(** * aikit orchestrator: provider adapters and the tool registry loop

    A shallow embedding of [aikit-orchestrator/src/ai-adapter.ts] (the three
    provider adapters) and of the orchestrator's background script (the
    [ToolRegistry] class: agent loop, tool dispatch, permission round-trip).

    Conventions of the embedding:
    - an [async] function is a state-passing computation whose result is a
      [Completion]: [Returned v] for a fulfilled promise, [Threw e] for a
      rejected one (or a synchronous [throw]);
    - the [onEvent] of an adapter appends to an event list carried in the
      state; the [onEvent] that the caller of [executePrompt] passes in is
      a parameter of the loop ([Caller]): a recorder where no other is
      named, and [port.postMessage] in the port listener, which throws
      once the port is disconnected;
    - everything outside the repository (provider SDK clients, the browser
      API, the permission manager of [aikit-common], [JSON.parse]) is an
      oracle: a function supplied from outside.  A provider client and the
      permission manager may reject with any value; the browser rejects
      the promises of its own API with [Error] objects;
    - a thrown value is [null] or [undefined], or it is known by its
      [message] property, the only one the code reads; the numbers by
      which a provider reply addresses the array of calls are natural
      numbers, and those below [2^32 - 1] are indices of the array;
    - a message of another extension is untyped: its [tools] may be
      missing or hold [null]; an element that has properties is read as
      the descriptor it is taken for;
    - one conversation runs at a time: while [executeTool] waits for a
      permission response, the event loop runs the message listener and
      the timer and nothing else. *)

From Stdlib Require Import Ascii String.
From stdpp Require Import base strings pretty list gmap.

Local Open Scope string_scope.
Local Open Scope list_scope.

(** ** JavaScript values and control flow *)

(** The JSON fragment of TypeScript's [any]; numbers keep their literal. *)
#[local] Unset Elimination Schemes.
Inductive Json :=
| JNull
| JBool (b : bool)
| JNumber (literal : string)
| JString (s : string)
| JArray (items : list Json)
| JObject (fields : list (string * Json)).
#[local] Set Elimination Schemes.

(** A value with properties, seen through the only one the code reads of
    what it catches: an [Error] has its message there, any other object
    or primitive may have none. *)
Record JsError := mkError { message : option string }.

Definition Error (msg : string) : JsError := mkError (Some msg).

(** What a [throw] or a rejected promise carries: any value.  [null] and
    [undefined] have no properties; reading one throws. *)
Inductive Thrown :=
| object (e : JsError)
| nullish.

Coercion object : JsError >-> Thrown.

(** What the console shows of a thrown value. *)
Definition logged (error_ : Thrown) : option string :=
  match error_ with object e => message e | nullish => None end.

(** How an awaited computation ends: the promise is fulfilled, it is
    rejected (or the code throws), or it never settles. *)
Inductive Completion (A : Type) :=
| Returned (a : A)
| Threw (e : Thrown)
| Unsettled.
Arguments Returned {A} a.
Arguments Threw {A} e.
Arguments Unsettled {A}.

(** Truthiness of a string and of an optional (possibly [undefined]) string. *)
Definition truthy (s : string) : bool :=
  match s with EmptyString => false | String _ _ => true end.

Definition truthy_opt (o : option string) : bool :=
  match o with Some s => truthy s | None => false end.

(** [o || d] on an optional string. *)
Definition or_default (o : option string) (d : string) : string :=
  match o with
  | Some s => if truthy s then s else d
  | None => d
  end.

(** Computations over a mutable state [S] that may throw; mutations made
    before a throw persist, as in JavaScript. *)
Definition M (S A : Type) : Type := S → Completion A * S.

Definition ret {S A} (a : A) : M S A := λ s, (Returned a, s).

Definition bind {S A B} (m : M S A) (k : A → M S B) : M S B :=
  λ s, match m s with
       | (Returned a, s') => k a s'
       | (Threw e, s') => (Threw e, s')
       | (Unsettled, s') => (Unsettled, s')
       end.

Definition throw {S A} (e : Thrown) : M S A := λ s, (Threw e, s).

(** [await] of a promise whose settlement the environment has decided. *)
Definition await {S A} (c : Completion A) : M S A := λ s, (c, s).

(** A call of a synchronous function that returns or throws an object. *)
Definition sync {S A} (r : JsError + A) : M S A :=
  λ s, (match r with inr a => Returned a | inl e => Threw e end, s).

Definition get {S} : M S S := λ s, (Returned s, s).

Definition modify {S} (f : S → S) : M S unit := λ s, (Returned tt, f s).

(** [try { body } catch (error) { handler(error) }]. *)
Definition try_catch {S A} (body : M S A) (handler : Thrown → M S A) : M S A :=
  λ s, match body s with
       | (Returned a, s') => (Returned a, s')
       | (Threw e, s') => handler e s'
       | (Unsettled, s') => (Unsettled, s')
       end.

Declare Scope js_scope.
Delimit Scope js_scope with js.
Notation "'let*' x := m 'in' k" := (bind m (λ x, k))
  (at level 10, x name, m at level 99, k at level 200) : js_scope.
Notation "m ;; k" := (bind m (λ _, k))
  (at level 100, right associativity) : js_scope.

Local Open Scope js_scope.

(** A call of an [async] function whose promise nobody awaits: what the
    function throws rejects that promise and is lost. *)
Definition unawaited {S} (m : M S unit) : M S unit :=
  try_catch m (λ _, ret tt).

(** [for (const x of xs) body(x)]. *)
Fixpoint for_of {S A} (xs : list A) (body : A → M S unit) : M S unit :=
  match xs with
  | [] => ret tt
  | x :: xs' => body x ;; for_of xs' body
  end.

Definition when {S} (b : bool) (m : M S unit) : M S unit :=
  if b then m else ret tt.

(** [s.replace(/\./g, "_")]. *)
Fixpoint replace_dots (s : string) : string :=
  match s with
  | EmptyString => EmptyString
  | String c s' =>
      String (if Ascii.eqb c "."%char then "_"%char else c) (replace_dots s')
  end.

Fixpoint contains_dot (s : string) : bool :=
  match s with
  | EmptyString => false
  | String c s' => Ascii.eqb c "."%char || contains_dot s'
  end.

(** ** ai-adapter.ts: the canonical data model *)

Inductive Role := user | assistant | tool.

#[global] Instance Role_eq_dec : EqDecision Role.
Proof. solve_decision. Defined.

(** The [function] member of a recorded tool call. *)
Module FunctionCall.
Record t := mk { name : string; arguments : string }.
End FunctionCall.

(** An element of [AIMessage.tool_calls], as [executePrompt] builds it. *)
Module ToolCallRef.
Record t := mk { id : string; type : string; function : FunctionCall.t }.
End ToolCallRef.

Module AIMessage.
Record t := mk {
  role : Role;
  content : option string;
  tool_calls : option (list ToolCallRef.t);
  tool_call_id : option string
}.
End AIMessage.

Module AITool.
Record t := mk { name : string; description : string; input_schema : Json }.
End AITool.

Module ToolCall.
Record t := mk { id : string; name : string; input : Json }.
End ToolCall.

(** One element of a [message_update] content array. *)
Module ContentPart.
Record t := mk { type : string; text : option string }.
End ContentPart.

Definition text_part (s : string) : ContentPart.t :=
  ContentPart.mk "text" (Some s).

(** [ToolExecutionResponse] of the background script; it travels inside
    [tool_result] events. *)
Module ToolExecutionResponse.
Record t := mk {
  content : option (list ContentPart.t);
  details : option Json;
  error : option string
}.
End ToolExecutionResponse.

Inductive AIEvent :=
| message_start
| message_update (content : list ContentPart.t)
| tool_use (toolCall : ToolCall.t)
| tool_result (toolCall : ToolCall.t) (result : ToolExecutionResponse.t)
| message_complete (content : string)
| error (error : string).

Definition is_message_start (e : AIEvent) : bool :=
  match e with message_start => true | _ => false end.
Definition is_message_update (e : AIEvent) : bool :=
  match e with message_update _ => true | _ => false end.
Definition is_tool_use (e : AIEvent) : bool :=
  match e with tool_use _ => true | _ => false end.
Definition is_message_complete (e : AIEvent) : bool :=
  match e with message_complete _ => true | _ => false end.
Definition is_error (e : AIEvent) : bool :=
  match e with error _ => true | _ => false end.

(** Number of events of a kind in an emitted sequence. *)
Definition count (p : AIEvent → bool) (es : list AIEvent) : nat :=
  length (filter (λ e, p e = true) es).

(** The state an adapter call runs in: the adapter's own fields [St] and the
    events handed to [onEvent] so far. *)
Module Run.
Record t (St : Type) := mk { self : St; emitted : list AIEvent }.
Arguments mk {St} self emitted.
Arguments self {St} _.
Arguments emitted {St} _.
End Run.

Definition onEvent {St} (e : AIEvent) : M (Run.t St) unit :=
  modify (λ r, Run.mk (Run.self r) (Run.emitted r ++ [e])).

(** The engine's message for a property read on [undefined]. *)
Definition TypeError_undefined (what : string) : JsError :=
  Error (what +:+ " is undefined").

(** The [catch] block shared by the three adapters.  The argument of
    [onEvent] is evaluated first: when the caught value is [null] or
    [undefined], reading [error.message] throws and nothing is emitted. *)
Definition catch_handler {St} (error_ : Thrown) : M (Run.t St) unit :=
  match error_ with
  | object e => onEvent (error (or_default (message e) "Unknown error occurred"))
  | nullish => throw (TypeError_undefined "error")
  end.

(** The [AIAdapter] interface.  [this] is the [self] component of the
    state; the promise [sendMessage] returns is the computation's
    completion. *)
Class AIAdapter (A : Type) := {
  sendMessage :
    list AIMessage.t → list AITool.t → string → M (Run.t A) unit
}.

(** Runs a call on a fresh event log. *)
Definition call {A R} (m : M (Run.t A) R) (this : A) :
  Completion R * Run.t A :=
  m (Run.mk this []).

Definition events_of {A R} (r : Completion R * Run.t A) : list AIEvent :=
  Run.emitted (snd r).

(** ** AnthropicAdapter *)

Module Anthropic.

Module MessageParam.
Record t := mk { role : Role; content : string }.
End MessageParam.

Module Request.
Record t := mk {
  model : string;
  max_tokens : nat;
  system : string;
  messages : list MessageParam.t;
  tools : option (list AITool.t)
}.
End Request.

Inductive ContentBlock :=
| TextBlock (text : string)
| ToolUseBlock (id name : string) (input : Json)
| OtherBlock (type : string).

Module Response.
Record t := mk { content : list ContentBlock }.
End Response.

(** [client.messages.create]. *)
Definition Client := Request.t → Completion Response.t.

End Anthropic.

Record AnthropicAdapter := { anthropic_client : Anthropic.Client }.

(** The [messages.map] of the Anthropic request: [m.role as ...] is a
    compile-time cast and leaves the value as it is. *)
Definition anthropic_message (m : AIMessage.t) : Anthropic.MessageParam.t :=
  Anthropic.MessageParam.mk (AIMessage.role m) (or_default (AIMessage.content m) "").

(** One iteration of [for (const block of response.content)] over the
    locals [textContent] and [toolCalls]. *)
Definition anthropic_block (acc : string * list ToolCall.t)
    (block : Anthropic.ContentBlock) : string * list ToolCall.t :=
  let '(textContent, toolCalls) := acc in
  match block with
  | Anthropic.TextBlock text => (textContent +:+ text, toolCalls)
  | Anthropic.ToolUseBlock id name input =>
      (textContent, toolCalls ++ [ToolCall.mk id name input])
  | Anthropic.OtherBlock _ => (textContent, toolCalls)
  end.

Definition anthropic_request (messages : list AIMessage.t)
    (tools : list AITool.t) (systemPrompt : string) : Anthropic.Request.t :=
  Anthropic.Request.mk "claude-sonnet-4-20250514" 4096 systemPrompt
    (map anthropic_message messages)
    (if bool_decide (0 < length tools) then Some tools else None).

(** The [try] block of [AnthropicAdapter.sendMessage]. *)
Definition AnthropicAdapter_try (messages : list AIMessage.t)
    (tools : list AITool.t) (systemPrompt : string) :
  M (Run.t AnthropicAdapter) unit :=
  onEvent message_start ;;
  let* this := get in
  let* response :=
    await (anthropic_client (Run.self this)
             (anthropic_request messages tools systemPrompt)) in
  let '(textContent, toolCalls) :=
    fold_left anthropic_block (Anthropic.Response.content response) ("", []) in
  when (truthy textContent)
    (onEvent (message_update [text_part textContent])) ;;
  if bool_decide (0 < length toolCalls)
  then for_of toolCalls (λ toolCall, onEvent (tool_use toolCall))
  else onEvent (message_complete textContent).

#[global] Instance AnthropicAdapter_AIAdapter : AIAdapter AnthropicAdapter := {
  sendMessage messages tools systemPrompt :=
    try_catch (AnthropicAdapter_try messages tools systemPrompt) catch_handler
}.

(** ** OpenAIAdapter *)

(** The global [JSON] object: parser and printer are the engine's. *)
Class JSON := {
  JSON_parse : string → JsError + Json;
  JSON_stringify : Json → string
}.

Module OpenAI.

Module FunctionDef.
Record t := mk { name : string; description : string; parameters : Json }.
End FunctionDef.

Module Tool.
Record t := mk { type : string; function : FunctionDef.t }.
End Tool.

(** The three object shapes [openaiMessages] is built from, and the
    leading system message. *)
Inductive MessageParam :=
| SystemMessage (content : string)
| ToolMessage (content : string) (tool_call_id : option string)
| AssistantCalls (content : option string) (tool_calls : list ToolCallRef.t)
| PlainMessage (role : Role) (content : string).

Module Request.
Record t := mk {
  model : string;
  messages : list MessageParam;
  tools : option (list Tool.t);
  stream : bool
}.
End Request.

Module FunctionDelta.
Record t := mk { name : option string; arguments : option string }.
End FunctionDelta.

Module ToolCallDelta.
Record t := mk {
  index : nat;
  id : option string;
  function : option FunctionDelta.t
}.
End ToolCallDelta.

Module Delta.
Record t := mk {
  content : option string;
  tool_calls : option (list ToolCallDelta.t)
}.
End Delta.

(** A chunk, seen through [chunk.choices[0]?.delta]. *)
Module Chunk.
Record t := mk { delta : option Delta.t }.
End Chunk.

(** What [for await] gets from the stream: the chunks it yields and, when
    the stream breaks, the error it throws after them. *)
Module Stream.
Record t := mk { chunks : list Chunk.t; failure : option Thrown }.
End Stream.

(** [client.chat.completions.create]. *)
Definition Client := Request.t → Completion Stream.t.

End OpenAI.

Record OpenAIAdapter := {
  openai_client : OpenAI.Client;
  openai_model : string;
  toolNameMap : gmap string string
}.

Definition set_toolNameMap (f : gmap string string → gmap string string)
    (r : Run.t OpenAIAdapter) : Run.t OpenAIAdapter :=
  Run.mk {| openai_client := openai_client (Run.self r);
            openai_model := openai_model (Run.self r);
            toolNameMap := f (toolNameMap (Run.self r)) |}
         (Run.emitted r).

Definition normalizeToolName (name : string) : string := replace_dots name.

(** [xs.map(f)] for a callback with effects. *)
Fixpoint Array_map {S A B} (xs : list A) (f : A → M S B) : M S (list B) :=
  match xs with
  | [] => ret []
  | x :: xs' =>
      let* y := f x in
      let* ys := Array_map xs' f in
      ret (y :: ys)
  end.

(** The callback of [tools.map] in [OpenAIAdapter.sendMessage]. *)
Definition openai_tool (t : AITool.t) : M (Run.t OpenAIAdapter) OpenAI.Tool.t :=
  let normalizedName := normalizeToolName (AITool.name t) in
  modify (set_toolNameMap (insert normalizedName (AITool.name t))) ;;
  ret (OpenAI.Tool.mk "function"
         (OpenAI.FunctionDef.mk normalizedName (AITool.description t)
            (AITool.input_schema t))).

(** The callback of [messages.map] in [OpenAIAdapter.sendMessage]. *)
Definition openai_message (m : AIMessage.t) : OpenAI.MessageParam :=
  match AIMessage.role m, AIMessage.tool_calls m with
  | tool, _ =>
      OpenAI.ToolMessage (or_default (AIMessage.content m) "")
        (AIMessage.tool_call_id m)
  | assistant, Some tool_calls =>
      OpenAI.AssistantCalls (AIMessage.content m) tool_calls
  | role, _ => OpenAI.PlainMessage role (or_default (AIMessage.content m) "")
  end.

(** An entry of the local [toolCalls] array while the stream is read. *)
Module Accumulated.
Record t := mk { id : string; type : string; function : FunctionCall.t }.
End Accumulated.

(** [a[index]] and [a[index] = v] on an array that may have holes.  The
    list holds what is stored under each natural number: a hole is [None],
    and writing past the end leaves holes behind.  Only the numbers below
    [2^32 - 1] are indices of the array; what is written under a larger
    one is a property of the array object, which [a[index]] reads back
    but which the array's [length] and its iteration do not see. *)
Definition Array_get {A} (a : list (option A)) (index : nat) : option A :=
  mjoin (a !! index).

Definition Array_set {A} (a : list (option A)) (index : nat) (v : A) :
  list (option A) :=
  if bool_decide (index < length a)
  then <[index := Some v]> a
  else a ++ replicate (index - length a) None ++ [Some v].

(** The first number that is not an array index. *)
Definition Array_limit : N := 4294967295.

(** The positions of a list below a limit. *)
Fixpoint below {A} (limit : N) (a : list A) : list A :=
  match a with
  | [] => []
  | x :: a' =>
      if (limit =? 0)%N then [] else x :: below (N.pred limit) a'
  end.

(** A list without the holes at its end. *)
Fixpoint without_trailing_holes {A} (a : list (option A)) : list (option A) :=
  match a with
  | [] => []
  | x :: a' =>
      match x, without_trailing_holes a' with
      | None, [] => []
      | _, rest => x :: rest
      end
  end.

(** The elements of the array, those [a.length] counts and [for ... of]
    visits: what is stored under the array indices, up to the last one
    written. *)
Definition Array_elements {A} (a : list (option A)) : list (option A) :=
  without_trailing_holes (below Array_limit a).
Arguments Array_elements : simpl never.

(** The body of [for (const toolCallDelta of delta.tool_calls)]. *)
Definition openai_tool_call_delta (toolCalls : list (option Accumulated.t))
    (toolCallDelta : OpenAI.ToolCallDelta.t) : list (option Accumulated.t) :=
  let index := OpenAI.ToolCallDelta.index toolCallDelta in
  let id := OpenAI.ToolCallDelta.id toolCallDelta in
  let fn := OpenAI.ToolCallDelta.function toolCallDelta in
  let entry0 :=
    match Array_get toolCalls index with
    | Some entry => entry
    | None => Accumulated.mk (or_default id "") "function" (FunctionCall.mk "" "")
    end in
  let entry1 :=
    if truthy_opt id
    then Accumulated.mk (or_default id "") (Accumulated.type entry0)
           (Accumulated.function entry0)
    else entry0 in
  let name := fn ≫= OpenAI.FunctionDelta.name in
  let arguments := fn ≫= OpenAI.FunctionDelta.arguments in
  let f1 := Accumulated.function entry1 in
  let f2 :=
    if truthy_opt name
    then FunctionCall.mk (FunctionCall.name f1 +:+ or_default name "")
           (FunctionCall.arguments f1)
    else f1 in
  let f3 :=
    if truthy_opt arguments
    then FunctionCall.mk (FunctionCall.name f2)
           (FunctionCall.arguments f2 +:+ or_default arguments "")
    else f2 in
  Array_set toolCalls index
    (Accumulated.mk (Accumulated.id entry1) (Accumulated.type entry1) f3).

(** [for await (const chunk of stream)] over the chunks the stream yields,
    threading the locals [accumulatedContent] and [toolCalls]. *)
Fixpoint openai_chunks {St} (chunks : list OpenAI.Chunk.t)
    (accumulatedContent : string) (toolCalls : list (option Accumulated.t)) :
  M (Run.t St) (string * list (option Accumulated.t)) :=
  match chunks with
  | [] => ret (accumulatedContent, toolCalls)
  | chunk :: rest =>
      match OpenAI.Chunk.delta chunk with
      | None => openai_chunks rest accumulatedContent toolCalls
      | Some delta =>
          let content := OpenAI.Delta.content delta in
          let accumulatedContent' :=
            if truthy_opt content
            then accumulatedContent +:+ or_default content ""
            else accumulatedContent in
          when (truthy_opt content)
            (onEvent (message_update [text_part accumulatedContent'])) ;;
          let toolCalls' :=
            match OpenAI.Delta.tool_calls delta with
            | Some deltas => fold_left openai_tool_call_delta deltas toolCalls
            | None => toolCalls
            end in
          openai_chunks rest accumulatedContent' toolCalls'
      end
  end.

Section WithJSON.
Context `{!JSON}.

(** The body of the final [for (const toolCall of toolCalls)]; a hole of
    the array is visited as [undefined]. *)
Definition openai_emit_tool_use (toolCall : option Accumulated.t) :
  M (Run.t OpenAIAdapter) unit :=
  match toolCall with
  | None => throw (TypeError_undefined "toolCall")
  | Some toolCall =>
      let* this := get in
      let name := FunctionCall.name (Accumulated.function toolCall) in
      let originalName :=
        or_default (toolNameMap (Run.self this) !! name) name in
      let* input :=
        sync (JSON_parse (FunctionCall.arguments (Accumulated.function toolCall))) in
      onEvent (tool_use (ToolCall.mk (Accumulated.id toolCall) originalName input))
  end.

(** The [try] block of [OpenAIAdapter.sendMessage]. *)
Definition OpenAIAdapter_try (messages : list AIMessage.t)
    (tools : list AITool.t) (systemPrompt : string) :
  M (Run.t OpenAIAdapter) unit :=
  onEvent message_start ;;
  modify (set_toolNameMap (λ _, ∅)) ;;
  let* openaiTools :=
    if bool_decide (0 < length tools)
    then let* ts := Array_map tools openai_tool in ret (Some ts)
    else ret None in
  let openaiMessages :=
    OpenAI.SystemMessage systemPrompt :: map openai_message messages in
  let* this := get in
  let* stream :=
    await (openai_client (Run.self this)
             (OpenAI.Request.mk (openai_model (Run.self this)) openaiMessages
                openaiTools true)) in
  let* locals := openai_chunks (OpenAI.Stream.chunks stream) "" [] in
  match OpenAI.Stream.failure stream with
  | Some e => throw e
  | None => ret tt
  end ;;
  let '(accumulatedContent, toolCalls) := locals in
  if bool_decide (0 < length (Array_elements toolCalls))
  then for_of (Array_elements toolCalls) openai_emit_tool_use
  else onEvent (message_complete accumulatedContent).

#[global] Instance OpenAIAdapter_AIAdapter : AIAdapter OpenAIAdapter := {
  sendMessage messages tools systemPrompt :=
    try_catch (OpenAIAdapter_try messages tools systemPrompt) catch_handler
}.

End WithJSON.

(** ** GoogleAdapter *)

Module Google.

Module Part.
Record t := mk { text : string }.
End Part.

Module Content.
Record t := mk { role : string; parts : list Part.t }.
End Content.

(** [model.startChat({ history })], [chat.sendMessage(text)] and
    [result.response.text()] in one step: the reply text, or what any of
    them throws. *)
Definition GenerativeModel := list Content.t → string → Completion string.

(** [client.getGenerativeModel({ model, systemInstruction })]. *)
Definition Client := string → string → JsError + GenerativeModel.

End Google.

Record GoogleAdapter := {
  google_client : Google.Client;
  google_model : string
}.

(** [messages.slice(0, -1)]. *)
Definition slice_0_minus1 {A} (xs : list A) : list A :=
  take (length xs - 1) xs.

(** The callback of [messages.slice(0, -1).map]. *)
Definition google_content (m : AIMessage.t) : Google.Content.t :=
  Google.Content.mk
    (match AIMessage.role m with user => "user" | _ => "model" end)
    [Google.Part.mk (or_default (AIMessage.content m) "")].

(** The [try] block of [GoogleAdapter.sendMessage]. *)
Definition GoogleAdapter_try (messages : list AIMessage.t)
    (tools : list AITool.t) (systemPrompt : string) :
  M (Run.t GoogleAdapter) unit :=
  onEvent message_start ;;
  let* this := get in
  let* model :=
    sync (google_client (Run.self this) (google_model (Run.self this))
            systemPrompt) in
  let history := map google_content (slice_0_minus1 messages) in
  match messages !! (length messages - 1) with
  | None => throw (TypeError_undefined "lastMessage")
  | Some lastMessage =>
      let* text :=
        await (model history (or_default (AIMessage.content lastMessage) "")) in
      onEvent (message_update [text_part text]) ;;
      onEvent (message_complete text)
  end.

#[global] Instance GoogleAdapter_AIAdapter : AIAdapter GoogleAdapter := {
  sendMessage messages tools systemPrompt :=
    try_catch (GoogleAdapter_try messages tools systemPrompt) catch_handler
}.

(** ** createAdapter *)

(** The SDK handles the constructors build from the API key. *)
Record Clients := {
  new_Anthropic : string → Anthropic.Client;
  new_OpenAI : string → option string → OpenAI.Client;
  new_GoogleGenerativeAI : string → Google.Client
}.

Inductive Adapter :=
| anAnthropicAdapter (a : AnthropicAdapter)
| anOpenAIAdapter (a : OpenAIAdapter)
| aGoogleAdapter (a : GoogleAdapter).

Definition createAdapter (sdk : Clients) (provider apiKey : string)
    (model baseURL : option string) : JsError + Adapter :=
  if decide (provider = "anthropic") then
    inr (anAnthropicAdapter {| anthropic_client := new_Anthropic sdk apiKey |})
  else if decide (provider = "openai") then
    inr (anOpenAIAdapter
                {| openai_client := new_OpenAI sdk apiKey baseURL;
                   openai_model := default "gpt-4" model;
                   toolNameMap := ∅ |})
  else if decide (provider = "google") then
    inr (aGoogleAdapter
                {| google_client := new_GoogleGenerativeAI sdk apiKey;
                   google_model := default "gemini-pro" model |})
  else inl (Error ("Unsupported provider: " +:+ provider)).

(** Runs a computation of one variant on the state of the sum. *)
Definition lift_run {A R} (inj : A → Adapter) (m : M (Run.t A) R) (this : A) :
  M (Run.t Adapter) R :=
  λ r, match m (Run.mk this (Run.emitted r)) with
       | (c, r') => (c, Run.mk (inj (Run.self r')) (Run.emitted r'))
       end.

Section Dispatch.
Context `{!JSON}.

(** The [try] block of whichever variant the adapter is. *)
Definition Adapter_try (messages : list AIMessage.t) (tools : list AITool.t)
    (systemPrompt : string) : M (Run.t Adapter) unit :=
  λ r, match Run.self r with
       | anAnthropicAdapter a =>
           lift_run anAnthropicAdapter
             (AnthropicAdapter_try messages tools systemPrompt) a r
       | anOpenAIAdapter a =>
           lift_run anOpenAIAdapter
             (OpenAIAdapter_try messages tools systemPrompt) a r
       | aGoogleAdapter a =>
           lift_run aGoogleAdapter
             (GoogleAdapter_try messages tools systemPrompt) a r
       end.

(** Dynamic dispatch of [adapter.sendMessage]. *)
#[global] Instance Adapter_AIAdapter : AIAdapter Adapter := {
  sendMessage messages tools systemPrompt :=
    λ r, match Run.self r with
         | anAnthropicAdapter a =>
             lift_run anAnthropicAdapter
               (sendMessage messages tools systemPrompt) a r
         | anOpenAIAdapter a =>
             lift_run anOpenAIAdapter
               (sendMessage messages tools systemPrompt) a r
         | aGoogleAdapter a =>
             lift_run aGoogleAdapter
               (sendMessage messages tools systemPrompt) a r
         end
}.

End Dispatch.

(** ** background.ts: the tool registry *)

Module ToolDescriptor.
Record t := mk {
  name : string;
  label : string;
  description : string;
  parameters : Json
}.
End ToolDescriptor.

(** A value of the [registeredTools] map. *)
Module Registration.
Record t := mk { extensionId : string; descriptor : ToolDescriptor.t }.
End Registration.

Module ToolExecutionRequest.
Record t := mk {
  type : string;
  toolName : string;
  params : Json;
  toolCallId : string
}.
End ToolExecutionRequest.

(** The [{ url?, tabId? }] context of a tool call. *)
Module ToolContext.
Record t := mk { url : option string; tabId : option Z }.
End ToolContext.

Module Tab.
Record t := mk { url : option string; id : option Z }.
End Tab.

(** The result of [PermissionManager.checkPermission]. *)
Module PermissionCheck.
Record t := mk { allowed : bool; requiresPrompt : bool }.
End PermissionCheck.

Module PermissionRequestMessage.
Record t := mk {
  type : string;
  toolName : string;
  toolDescriptor : ToolDescriptor.t;
  params : Json;
  context : ToolContext.t;
  requestId : string
}.
End PermissionRequestMessage.

Module PermissionResponseMessage.
Record t := mk {
  requestId : string;
  granted : bool;
  remember : bool;
  scope : option string
}.
End PermissionResponseMessage.

Inductive Decision := always_allow | always_deny.

(** The [PermissionManager] of [aikit-common], whose code is not part of
    these sources: its storage is a state [PM], and the four methods the
    registry calls are taken as given.  [storePermission] returns the
    settlement of its promise with the storage it leaves. *)
Class PermissionManager := {
  PM : Type;
  isDomainAwareTool : PM → string → bool;
  extractDomain : PM → string → string;
  checkPermission :
    PM → string → ToolContext.t → ToolDescriptor.t →
    Completion PermissionCheck.t;
  storePermission :
    PM → string → Decision → option string → Completion unit * PM
}.

(** How a promise of the browser's own API settles.  When a call fails,
    the browser rejects with an [Error] object of its making, whatever
    went wrong on the other side. *)
Inductive Reply (A : Type) :=
| fulfilled (a : A)
| rejected (e : JsError)
| no_reply.
Arguments fulfilled {A} a.
Arguments rejected {A} e.
Arguments no_reply {A}.

Definition settlement {A} (reply : Reply A) : Completion A :=
  match reply with
  | fulfilled a => Returned a
  | rejected e => Threw e
  | no_reply => Unsettled
  end.

(** The browser around the background script.  Every consultation happens
    at an instant of a logical clock, so that the same call may be answered
    differently at different times.  [deliveries] are the
    [PERMISSION_RESPONSE] messages the runtime hands to the message
    listener during the 60 seconds after that instant, in order of
    arrival.  [port_connected port n] tells whether the other end of a
    port is still there when the script has caused [n] effects; when it
    is not, [port.postMessage] throws. *)
Class Browser := {
  tabs_query : nat → Reply (list Tab.t);
  runtime_sendMessage :
    nat → string → ToolExecutionRequest.t →
    Reply (option ToolExecutionResponse.t);
  Date_now : nat → string;
  Math_random : nat → string;
  deliveries : nat → list PermissionResponseMessage.t;
  port_connected : nat → nat → bool
}.

(** A value of the [pendingPermissionRequests] map.  [resolve] and [reject]
    are the two functions of one promise, named by that promise. *)
Module Pending.
Record t := mk {
  resolve : nat;
  reject : nat;
  toolName : string;
  domain : option string
}.
End Pending.

(** What the script does to the outside. *)
Inductive Effect :=
| console_log (text : string)
| console_warn (text : string) (detail : string)
| console_error (text : string) (detail : option string)
| port_postMessage (port : nat) (message : PermissionRequestMessage.t)
| port_AGENT_COMPLETE (port : nat)
| port_AGENT_ERROR (port : nat) (error : string)
| sent_to_extension (extensionId : string) (request : ToolExecutionRequest.t)
| caller_onEvent (event : AIEvent).

(** A JavaScript [Map] with string keys: iteration follows insertion order,
    and [set] on a key that is present keeps its place. *)
Fixpoint Map_get {V} (k : string) (m : list (string * V)) : option V :=
  match m with
  | [] => None
  | (k', v) :: m' => if decide (k' = k) then Some v else Map_get k m'
  end.

Fixpoint Map_set {V} (k : string) (v : V) (m : list (string * V)) :
  list (string * V) :=
  match m with
  | [] => [(k, v)]
  | (k', v') :: m' =>
      if decide (k' = k) then (k, v) :: m' else (k', v') :: Map_set k v m'
  end.

Definition Map_delete {V} (k : string) (m : list (string * V)) :
  list (string * V) :=
  filter (λ kv, kv.1 ≠ k) m.

Section Registry.
Context `{!JSON} `{!PermissionManager} `{!Browser}.
Context {A : Type} `{!AIAdapter A}.

(** The fields of the [ToolRegistry] singleton, and next to them the part
    of the world the script acts on: the effects it has caused, the logical
    clock, and the promises created by [requestPermissionFromUser] that
    have settled. *)
Record ToolRegistry := mkToolRegistry {
  registeredTools : list (string * Registration.t);
  adapter : option A;
  conversationHistory : list AIMessage.t;
  permissionManager : PM;
  connectedPorts : list nat;
  pendingPermissionRequests : gmap string Pending.t;
  trace : list Effect;
  clock : nat;
  promises : gmap nat (Completion bool);
  next_promise : nat
}.

Definition set_registeredTools f (w : ToolRegistry) : ToolRegistry :=
  mkToolRegistry (f (registeredTools w)) (adapter w) (conversationHistory w)
    (permissionManager w) (connectedPorts w) (pendingPermissionRequests w)
    (trace w) (clock w) (promises w) (next_promise w).

Definition set_adapter f (w : ToolRegistry) : ToolRegistry :=
  mkToolRegistry (registeredTools w) (f (adapter w)) (conversationHistory w)
    (permissionManager w) (connectedPorts w) (pendingPermissionRequests w)
    (trace w) (clock w) (promises w) (next_promise w).

Definition set_conversationHistory f (w : ToolRegistry) : ToolRegistry :=
  mkToolRegistry (registeredTools w) (adapter w) (f (conversationHistory w))
    (permissionManager w) (connectedPorts w) (pendingPermissionRequests w)
    (trace w) (clock w) (promises w) (next_promise w).

Definition set_permissionManager f (w : ToolRegistry) : ToolRegistry :=
  mkToolRegistry (registeredTools w) (adapter w) (conversationHistory w)
    (f (permissionManager w)) (connectedPorts w) (pendingPermissionRequests w)
    (trace w) (clock w) (promises w) (next_promise w).

Definition set_pendingPermissionRequests f (w : ToolRegistry) : ToolRegistry :=
  mkToolRegistry (registeredTools w) (adapter w) (conversationHistory w)
    (permissionManager w) (connectedPorts w) (f (pendingPermissionRequests w))
    (trace w) (clock w) (promises w) (next_promise w).

Definition set_trace f (w : ToolRegistry) : ToolRegistry :=
  mkToolRegistry (registeredTools w) (adapter w) (conversationHistory w)
    (permissionManager w) (connectedPorts w) (pendingPermissionRequests w)
    (f (trace w)) (clock w) (promises w) (next_promise w).

Definition set_clock f (w : ToolRegistry) : ToolRegistry :=
  mkToolRegistry (registeredTools w) (adapter w) (conversationHistory w)
    (permissionManager w) (connectedPorts w) (pendingPermissionRequests w)
    (trace w) (f (clock w)) (promises w) (next_promise w).

Definition set_promises f (w : ToolRegistry) : ToolRegistry :=
  mkToolRegistry (registeredTools w) (adapter w) (conversationHistory w)
    (permissionManager w) (connectedPorts w) (pendingPermissionRequests w)
    (trace w) (clock w) (f (promises w)) (next_promise w).

Definition set_next_promise f (w : ToolRegistry) : ToolRegistry :=
  mkToolRegistry (registeredTools w) (adapter w) (conversationHistory w)
    (permissionManager w) (connectedPorts w) (pendingPermissionRequests w)
    (trace w) (clock w) (promises w) (f (next_promise w)).

Definition effect (e : Effect) : M ToolRegistry unit :=
  modify (set_trace (λ t, t ++ [e])).

(** Reads the clock and advances it: one consultation of the browser. *)
Definition tick : M ToolRegistry nat :=
  let* w := get in
  modify (set_clock S) ;;
  ret (clock w).

(** [this.conversationHistory.push(m)]. *)
Definition push_history (m : AIMessage.t) : M ToolRegistry unit :=
  modify (set_conversationHistory (λ h, h ++ [m])).

(** Settling a promise: only the first call has an effect. *)
Definition settle (p : nat) (c : Completion bool) : M ToolRegistry unit :=
  modify (set_promises (λ ps, match ps !! p with
                              | Some _ => ps
                              | None => <[p := c]> ps
                              end)).

Definition registerExtension (extensionId : string)
    (tools : list ToolDescriptor.t) : M ToolRegistry unit :=
  effect (console_log ("Registering tools from extension: " +:+ extensionId)) ;;
  for_of tools (λ tool,
    modify (set_registeredTools
              (Map_set (ToolDescriptor.name tool)
                 (Registration.mk extensionId tool)))) ;;
  effect (console_log ("Registered " +:+ pretty (length tools) +:+ " tools from "
                       +:+ extensionId)).

Definition unregisterExtension (extensionId : string) : M ToolRegistry unit :=
  effect (console_log ("Unregistering extension: " +:+ extensionId)) ;;
  let* w := get in
  for_of (registeredTools w) (λ entry,
    let '(toolName, registration) := entry in
    when (bool_decide (Registration.extensionId registration = extensionId))
      (modify (set_registeredTools (Map_delete toolName)))).

Definition getAITools : M ToolRegistry (list AITool.t) :=
  let* w := get in
  ret (map (λ kv, let registration := kv.2 in
                  AITool.mk
                    (ToolDescriptor.name (Registration.descriptor registration))
                    (ToolDescriptor.description (Registration.descriptor registration))
                    (ToolDescriptor.parameters (Registration.descriptor registration)))
         (registeredTools w)).

(** [xs.join(sep)]. *)
Fixpoint join (sep : string) (xs : list string) : string :=
  match xs with
  | [] => ""
  | [x] => x
  | x :: xs' => x +:+ sep +:+ join sep xs'
  end.

Definition text_result (text : string) (error_ : option string) :
  ToolExecutionResponse.t :=
  ToolExecutionResponse.mk (Some [text_part text]) None error_.

Definition getToolContext (toolName : string) : M ToolRegistry ToolContext.t :=
  let* w := get in
  if negb (isDomainAwareTool (permissionManager w) toolName)
  then ret (ToolContext.mk None None)
  else
    let* found :=
      try_catch
        (let* now := tick in
         let* tabs := await (settlement (tabs_query now)) in
         match tabs with
         | tab :: _ => ret (Some (ToolContext.mk (Tab.url tab) (Tab.id tab)))
         | [] => ret None
         end)
        (λ error_,
           effect (console_error "Failed to get tab context:" (logged error_)) ;;
           ret None) in
    match found with
    | Some context => ret context
    | None => ret (ToolContext.mk None None)
    end.

(** The message listener's [PERMISSION_RESPONSE] case. *)
Definition handlePermissionResponse (response : PermissionResponseMessage.t) :
  M ToolRegistry unit :=
  let requestId := PermissionResponseMessage.requestId response in
  let granted := PermissionResponseMessage.granted response in
  let remember := PermissionResponseMessage.remember response in
  let* w := get in
  match pendingPermissionRequests w !! requestId with
  | None =>
      effect (console_warn "No pending permission request for:" requestId)
  | Some pending =>
      modify (set_pendingPermissionRequests (delete requestId)) ;;
      let domain :=
        if decide (PermissionResponseMessage.scope response = Some "domain")
        then Pending.domain pending else None in
      let store decision : M ToolRegistry unit :=
        let* w := get in
        let '(stored, pm) :=
          storePermission (permissionManager w) (Pending.toolName pending)
            decision domain in
        modify (set_permissionManager (λ _, pm)) ;;
        match stored with
        | Threw error_ =>
            effect (console_error "Failed to store permission:" (logged error_))
        | _ => ret tt
        end in
      (if granted && remember then store always_allow
       else if negb granted && remember then store always_deny
       else ret tt) ;;
      settle (Pending.resolve pending) (Returned granted)
  end.

(** The callback [requestPermissionFromUser] hands to [setTimeout]. *)
Definition permission_timeout (requestId : string) (reject : nat) :
  M ToolRegistry unit :=
  let* w := get in
  match pendingPermissionRequests w !! requestId with
  | Some _ =>
      modify (set_pendingPermissionRequests (delete requestId)) ;;
      settle reject (Threw (Error "Permission request timeout"))
  | None => ret tt
  end.

(** What the event loop runs while [executeTool] is suspended on the
    promise of a permission request. *)
Inductive Task :=
| PERMISSION_RESPONSE (response : PermissionResponseMessage.t)
| timer_60000 (requestId : string) (reject : nat).

Definition run_task (task : Task) : M ToolRegistry unit :=
  match task with
  | PERMISSION_RESPONSE response => handlePermissionResponse response
  | timer_60000 requestId reject => permission_timeout requestId reject
  end.

(** [await promise]: tasks run until the promise has settled; if none is
    left and it has not, the function never resumes. *)
Fixpoint await_promise (promise : nat) (tasks : list Task) : M ToolRegistry bool :=
  let* w := get in
  match promises w !! promise with
  | Some settled => await settled
  | None =>
      match tasks with
      | [] => await Unsettled
      | task :: tasks' => run_task task ;; await_promise promise tasks'
      end
  end.

Definition requestPermissionFromUser (toolCall : ToolCall.t)
    (descriptor : ToolDescriptor.t) (context : ToolContext.t) :
  M ToolRegistry bool :=
  let* now := tick in
  let requestId := "perm-" +:+ Date_now now +:+ "-" +:+ Math_random now in
  let request :=
    PermissionRequestMessage.mk "PERMISSION_REQUEST" (ToolCall.name toolCall)
      descriptor (ToolCall.input toolCall) context requestId in
  let* w := get in
  for_of (connectedPorts w) (λ port, effect (port_postMessage port request)) ;;
  let promise := next_promise w in
  modify (set_next_promise S) ;;
  modify (set_pendingPermissionRequests
            (insert requestId
               (Pending.mk promise promise (ToolCall.name toolCall)
                  (match ToolContext.url context with
                   | Some url =>
                       if truthy url
                       then Some (extractDomain (permissionManager w) url)
                       else None
                   | None => None
                   end)))) ;;
  await_promise promise
    (map PERMISSION_RESPONSE (deliveries now) ++ [timer_60000 requestId promise]).

Definition executeTool (toolCall : ToolCall.t) :
  M ToolRegistry ToolExecutionResponse.t :=
  let name := ToolCall.name toolCall in
  let* w := get in
  match Map_get name (registeredTools w) with
  | None =>
      ret (text_result ("Unknown tool: " +:+ name) (Some ("Unknown tool: " +:+ name)))
  | Some registration =>
      let* context := getToolContext name in
      let* w := get in
      let* permissionCheck :=
        await (checkPermission (permissionManager w) name context
                 (Registration.descriptor registration)) in
      if negb (PermissionCheck.allowed permissionCheck)
         && negb (PermissionCheck.requiresPrompt permissionCheck)
      then ret (text_result ("Permission denied for tool: " +:+ name)
                  (Some "Permission denied"))
      else
        let* granted :=
          if PermissionCheck.requiresPrompt permissionCheck
          then requestPermissionFromUser toolCall
                 (Registration.descriptor registration) context
          else ret true in
        if negb granted
        then ret (text_result ("User denied permission for tool: " +:+ name)
                    (Some "User denied permission"))
        else
          try_catch
            (let* now := tick in
             let request :=
               ToolExecutionRequest.mk "TOOL_EXECUTE" name
                 (ToolCall.input toolCall) (ToolCall.id toolCall) in
             effect (sent_to_extension (Registration.extensionId registration)
                       request) ;;
             let* response :=
               await (settlement
                        (runtime_sendMessage now
                           (Registration.extensionId registration) request)) in
             match response with
             | None => throw (TypeError_undefined "response")
             | Some response =>
                 if truthy_opt (ToolExecutionResponse.error response)
                 then ret (text_result
                             ("Error: " +:+
                                default "" (ToolExecutionResponse.error response))
                             (ToolExecutionResponse.error response))
                 else ret response
             end)
            (λ error_,
               effect (console_error ("Error executing tool " +:+ name +:+ ":")
                         (logged error_)) ;;
               match error_ with
               | object e =>
                   ret (text_result
                          ("Error: " +:+ default "undefined" (message e))
                          (message e))
               | nullish => throw (TypeError_undefined "error")
               end)
  end.

Definition systemPrompt : string :=
  "You are a helpful AI assistant that can control the browser using available tools. When the user asks you to perform an action, use the appropriate tools to accomplish it. Be concise and helpful.".

(** The [onEvent] parameter of [executePrompt]: what the caller of the
    loop passes in.  It is called synchronously and may throw. *)
Class Caller := caller : AIEvent → M ToolRegistry unit.

(** The caller meant where no other is named: its [onEvent] records the
    event and returns. *)
Definition recorder : Caller := λ event, effect (caller_onEvent event).

Section Loop.
Context {the_caller : Caller}.

(** The callback [executePrompt] passes to [adapter.sendMessage], with the
    local [pendingToolCalls] threaded through.  The callback is [async]
    and the adapters do not await it: when the caller's [onEvent] throws
    in it, what follows in the callback is skipped and the adapter goes
    on. *)
Definition executePrompt_onEvent (pendingToolCalls : list ToolCall.t)
    (event : AIEvent) : M ToolRegistry (list ToolCall.t) :=
  match event with
  | tool_use toolCall =>
      unawaited (caller (tool_use toolCall)) ;;
      ret (pendingToolCalls ++ [toolCall])
  | message_complete content =>
      unawaited
        (caller event ;;
         push_history (AIMessage.mk assistant (Some content) None None)) ;;
      ret pendingToolCalls
  | _ =>
      unawaited (caller event) ;;
      ret pendingToolCalls
  end.

Fixpoint executePrompt_onEvents (pendingToolCalls : list ToolCall.t)
    (events : list AIEvent) : M ToolRegistry (list ToolCall.t) :=
  match events with
  | [] => ret pendingToolCalls
  | event :: events' =>
      let* pendingToolCalls' := executePrompt_onEvent pendingToolCalls event in
      executePrompt_onEvents pendingToolCalls' events'
  end.

(** [await this.adapter.sendMessage(history, tools, systemPrompt, callback)]:
    the callback sees the adapter's events in the order they are emitted,
    then the call's own completion is awaited. *)
Definition call_adapter (this_adapter : A) (tools : list AITool.t) :
  M ToolRegistry (list ToolCall.t) :=
  let* w := get in
  let '(completion, run) :=
    call (sendMessage (conversationHistory w) tools systemPrompt) this_adapter in
  modify (set_adapter (λ _, Some (Run.self run))) ;;
  let* pendingToolCalls := executePrompt_onEvents [] (Run.emitted run) in
  await completion ;;
  ret pendingToolCalls.

(** The element of [openAIToolCalls] made from a buffered call. *)
Definition openAIToolCall (tc : ToolCall.t) : ToolCallRef.t :=
  ToolCallRef.mk (ToolCall.id tc) "function"
    (FunctionCall.mk (normalizeToolName (ToolCall.name tc))
       (JSON_stringify (ToolCall.input tc))).

(** [result.content?.map(c => c.text).join(" ") || "Tool executed"]. *)
Definition resultText (result : ToolExecutionResponse.t) : string :=
  or_default
    ((λ content, join " " (map (λ c, default "" (ContentPart.text c)) content))
       <$> ToolExecutionResponse.content result)
    "Tool executed".

(** The body of [for (const toolCall of pendingToolCalls)]. *)
Definition run_tool_call (toolCall : ToolCall.t) : M ToolRegistry unit :=
  let* result := executeTool toolCall in
  caller (tool_result toolCall result) ;;
  push_history
    (AIMessage.mk tool (Some (resultText result)) None (Some (ToolCall.id toolCall))).

(** The body of [if (pendingToolCalls.length > 0)]. *)
Definition run_tool_calls (pendingToolCalls : list ToolCall.t) :
  M ToolRegistry unit :=
  let openAIToolCalls := map openAIToolCall pendingToolCalls in
  push_history (AIMessage.mk assistant None (Some openAIToolCalls) None) ;;
  for_of pendingToolCalls run_tool_call.

(** One iteration of [while (continueConversation)]; the result is the
    value [continueConversation] has at its end. *)
Definition executePrompt_turn (this_adapter : A) (tools : list AITool.t) :
  M ToolRegistry bool :=
  let* pendingToolCalls := call_adapter this_adapter tools in
  if bool_decide (0 < length pendingToolCalls)
  then run_tool_calls pendingToolCalls ;; ret true
  else ret false.

(** The loop of [executePrompt], for at most [turns] iterations: [true]
    when it ended within them. *)
Fixpoint executePrompt_while (turns : nat) (tools : list AITool.t) :
  M ToolRegistry bool :=
  match turns with
  | 0 => ret false
  | S turns' =>
      let* w := get in
      match adapter w with
      | None => throw (TypeError_undefined "this.adapter")
      | Some this_adapter =>
          let* continueConversation := executePrompt_turn this_adapter tools in
          if continueConversation
          then executePrompt_while turns' tools
          else ret true
      end
  end.

Definition executePrompt (turns : nat) (prompt : string) : M ToolRegistry bool :=
  let* w := get in
  match adapter w with
  | None =>
      throw (Error "Adapter not initialized. Please configure API key first.")
  | Some _ =>
      push_history (AIMessage.mk user (Some prompt) None None) ;;
      let* tools := getAITools in
      executePrompt_while turns tools
  end.

End Loop.

(** [port.postMessage(frame)]; the frame posted is the effect. *)
Definition postMessage (port : nat) (frame : Effect) : M ToolRegistry unit :=
  let* w := get in
  if port_connected port (length (trace w))
  then effect frame
  else throw (Error "Attempt to postMessage on disconnected port").

(** The [onMessage] listener of an [agent-stream] port, for a message of
    type [EXECUTE_PROMPT].  The callback it passes to [executePrompt] posts
    each event to the port; when the loop is still running after [turns]
    turns, nothing has been posted after the events.  The [catch] block
    posts as well, and nothing catches what it throws. *)
Definition on_EXECUTE_PROMPT (turns : nat) (port : nat) (prompt : string) :
  M ToolRegistry unit :=
  let onEvent : Caller := λ event, postMessage port (caller_onEvent event) in
  when (truthy prompt)
    (try_catch
       (let* ended := executePrompt (the_caller := onEvent) turns prompt in
        if ended then postMessage port (port_AGENT_COMPLETE port)
        else await Unsettled)
       (λ error_,
          match error_ with
          | object e =>
              postMessage port
                (port_AGENT_ERROR port (or_default (message e) "Unknown error"))
          | nullish => throw (TypeError_undefined "error")
          end)).

End Registry.

Arguments ToolRegistry {_} A.
Arguments mkToolRegistry {_ A}.
Arguments Caller {_} A.

#[global] Existing Instance recorder.

(** [initializeAdapter], with the defaults of its parameters. *)
Definition initializeAdapter `{!PermissionManager} (sdk : Clients)
    (apiKey : string) (provider model baseURL : option string) :
  M (ToolRegistry Adapter) bool :=
  try_catch
    (let* created :=
       sync (createAdapter sdk (default "anthropic" provider) apiKey
               (Some (default "claude-sonnet-4-20250514" model)) baseURL) in
     modify (set_adapter (λ _, Some created)) ;;
     effect (console_log "AI adapter initialized successfully") ;;
     ret true)
    (λ error_,
       effect (console_error "Failed to initialize adapter:" (logged error_)) ;;
       throw error_).

(** ** Views used to state the properties *)

(** Events other than [error]. *)
Definition not_error (e : AIEvent) : Prop := is_error e = false.

(** [m] only appends to the event log, and what it appends satisfies [P]. *)
Definition emits {St R} (P : AIEvent → Prop) (m : M (Run.t St) R) : Prop :=
  ∀ r c r', m r = (c, r') →
    ∃ es, Run.emitted r' = Run.emitted r ++ es ∧ Forall P es.

(** The shape of a turn that did not fail: the start, then updates, then
    either the completion or the tool calls. *)
Inductive turn_end : list AIEvent → Prop :=
| ends_complete content : turn_end [message_complete content]
| ends_tool_use es :
    es ≠ [] → Forall (λ e, is_tool_use e = true) es → turn_end es.

Definition turn_shape (es : list AIEvent) : Prop :=
  ∃ updates tail,
    es = message_start :: updates ++ tail
    ∧ Forall (λ e, is_message_update e = true) updates
    ∧ turn_end tail.

(** The same shape as the specification words it, by counts. *)
Definition exactly_one_outcome (es : list AIEvent) : Prop :=
  head es = Some message_start
  ∧ count is_message_start es = 1
  ∧ ((count is_message_complete es = 1 ∧ count is_tool_use es = 0
      ∧ ∃ content, last es = Some (message_complete content))
     ∨ ((1 ≤ count is_tool_use es)%nat ∧ count is_message_complete es = 0
        ∧ ∃ toolCall, last es = Some (tool_use toolCall))).

(** The [tool_use] events of a sequence, in order. *)
Definition tool_uses (es : list AIEvent) : list ToolCall.t :=
  omap (λ e, match e with tool_use toolCall => Some toolCall | _ => None end) es.

(** The assistant messages the loop's callback records for the
    [message_complete] events of a sequence. *)
Definition completions (es : list AIEvent) : list AIMessage.t :=
  omap (λ e, match e with
             | message_complete content =>
                 Some (AIMessage.mk assistant (Some content) None None)
             | _ => None
             end) es.

(** The declaration [openai_tool] returns for a tool. *)
Definition openai_declaration (t : AITool.t) : OpenAI.Tool.t :=
  OpenAI.Tool.mk "function"
    (OpenAI.FunctionDef.mk (normalizeToolName (AITool.name t))
       (AITool.description t) (AITool.input_schema t)).

(** The entries [openai_tool] has written into a map [m] once
    [tools.map] is over. *)
Definition with_tool_names (tools : list AITool.t) (m : gmap string string) :
  gmap string string :=
  fold_left (λ m t, <[normalizeToolName (AITool.name t) := AITool.name t]> m)
    tools m.

(** The adapter once [sendMessage] has rebuilt its map for a catalog. *)
Definition rebuilt (this : OpenAIAdapter) (tools : list AITool.t) : OpenAIAdapter :=
  {| openai_client := openai_client this;
     openai_model := openai_model this;
     toolNameMap := with_tool_names tools ∅ |}.

(** The same adapter holding another name map. *)
Definition holding (names : gmap string string) (this : OpenAIAdapter) :
  OpenAIAdapter :=
  {| openai_client := openai_client this;
     openai_model := openai_model this;
     toolNameMap := names |}.

(** The request [OpenAIAdapter.sendMessage] passes to the client. *)
Definition openai_request (this : OpenAIAdapter) (messages : list AIMessage.t)
    (tools : list AITool.t) (systemPrompt : string) : OpenAI.Request.t :=
  OpenAI.Request.mk (openai_model this)
    (OpenAI.SystemMessage systemPrompt :: map openai_message messages)
    (if bool_decide (0 < length tools)
     then Some (map openai_declaration tools) else None)
    true.

(** The local [toolCalls] array once the stream has been read. *)
Definition openai_toolCalls (chunks : list OpenAI.Chunk.t) :
  list (option Accumulated.t) :=
  match call (openai_chunks chunks "" []) tt with
  | (Returned locals, _) => locals.2
  | _ => []
  end.

(** The calls the final loop of [OpenAIAdapter.sendMessage] reports, for a
    given name map: it stops at the first hole and at the first arguments
    [JSON.parse] rejects. *)
Fixpoint reported_calls `{!JSON} (names : gmap string string)
    (toolCalls : list (option Accumulated.t)) : list ToolCall.t :=
  match toolCalls with
  | Some toolCall :: rest =>
      let name := FunctionCall.name (Accumulated.function toolCall) in
      match JSON_parse (FunctionCall.arguments (Accumulated.function toolCall)) with
      | inr input =>
          ToolCall.mk (Accumulated.id toolCall) (or_default (names !! name) name)
            input
          :: reported_calls names rest
      | inl _ => []
      end
  | _ => []
  end.

(** *** Views of the registry *)

(** The [tool] message the loop records for a call and its result. *)
Definition tool_message (toolCall : ToolCall.t)
    (result : ToolExecutionResponse.t) : AIMessage.t :=
  AIMessage.mk tool (Some (resultText result)) None (Some (ToolCall.id toolCall)).

(** The assistant message the loop records for the buffered calls. *)
Definition tool_calls_message `{!JSON} (pendingToolCalls : list ToolCall.t) :
  AIMessage.t :=
  AIMessage.mk assistant None (Some (map openAIToolCall pendingToolCalls)) None.

(** The events handed to the caller's [onEvent], in order, among some
    effects. *)
Definition forwarded (effects : list Effect) : list AIEvent :=
  omap (λ e, match e with caller_onEvent event => Some event | _ => None end)
    effects.

(** The requests sent to tool owners, in order, among some effects. *)
Definition dispatched (effects : list Effect) :
  list (string * ToolExecutionRequest.t) :=
  omap (λ e, match e with
             | sent_to_extension extensionId request => Some (extensionId, request)
             | _ => None
             end) effects.

(** Effects that are neither a call of the caller's [onEvent] nor a
    request to a tool owner. *)
Definition housekeeping (e : Effect) : Prop :=
  match e with
  | caller_onEvent _ | sent_to_extension _ _ => False
  | _ => True
  end.

(** Effects a dispatch of [toolCall] may cause: neither a call of the
    caller's [onEvent] nor a request to an owner that is not the call's
    own. *)
Definition dispatch_of (toolCall : ToolCall.t) (e : Effect) : Prop :=
  match e with
  | caller_onEvent _ => False
  | sent_to_extension _ request =>
      request = ToolExecutionRequest.mk "TOOL_EXECUTE" (ToolCall.name toolCall)
                  (ToolCall.input toolCall) (ToolCall.id toolCall)
  | _ => True
  end.

(** The effects of running buffered calls one after the other: for each
    call that got a result, the effects of its dispatch and then its
    [tool_result] event, before anything of the next call; and, when a
    dispatch did not return, its effects at the very end. *)
Inductive call_segments :
  list ToolCall.t → list ToolExecutionResponse.t → list Effect → Prop :=
| segments_end : call_segments [] [] []
| segments_stop toolCall rest effects :
    Forall (dispatch_of toolCall) effects →
    call_segments (toolCall :: rest) [] effects
| segments_next toolCall rest result results effects effects' :
    Forall (dispatch_of toolCall) effects →
    call_segments rest results effects' →
    call_segments (toolCall :: rest) (result :: results)
      (effects ++ caller_onEvent (tool_result toolCall result) :: effects').

Section RegistryViews.
Context `{!PermissionManager} {A : Type}.

(** What [handlePermissionResponse] does for a remembered answer: the
    decision goes to the permission manager, and a failure to store it is
    logged. *)
Definition remember_decision (response : PermissionResponseMessage.t)
    (entry : Pending.t) (w : ToolRegistry A) : ToolRegistry A :=
  if PermissionResponseMessage.remember response then
    let decision :=
      if PermissionResponseMessage.granted response
      then always_allow else always_deny in
    let domain :=
      if decide (PermissionResponseMessage.scope response = Some "domain")
      then Pending.domain entry else None in
    let '(stored, pm) :=
      storePermission (permissionManager w) (Pending.toolName entry)
        decision domain in
    let w1 := set_permissionManager (λ _, pm) w in
    match stored with
    | Threw error_ =>
        set_trace (λ t, t ++ [console_error "Failed to store permission:"
                                (logged error_)]) w1
    | _ => w1
    end
  else w.

(** The write-once update [settle] makes to the promises. *)
Definition settled_with (p : nat) (c : Completion bool)
    (ps : gmap nat (Completion bool)) : gmap nat (Completion bool) :=
  match ps !! p with
  | Some _ => ps
  | None => <[p := c]> ps
  end.

End RegistryViews.

Section RegistryFrames.
Context `{!PermissionManager} {A : Type}.

(** [w'] comes after [w] by steps that leave the history, the registered
    tools, the adapter and the ports alone and cause only effects in [P]. *)
Definition steps (P : Effect → Prop) (w w' : ToolRegistry A) : Prop :=
  conversationHistory w' = conversationHistory w
  ∧ registeredTools w' = registeredTools w
  ∧ adapter w' = adapter w
  ∧ connectedPorts w' = connectedPorts w
  ∧ ∃ effects, trace w' = trace w ++ effects ∧ Forall P effects.

Definition frames {R} (P : Effect → Prop) (m : M (ToolRegistry A) R) : Prop :=
  ∀ w, steps P w (m w).2.

End RegistryFrames.

Section PermissionViews.
Context `{!PermissionManager} `{!Browser} {A : Type}.

(** The id [requestPermissionFromUser] gives a request made in [w]. *)
Definition next_requestId (w : ToolRegistry A) : string :=
  "perm-" +:+ Date_now (clock w) +:+ "-" +:+ Math_random (clock w).

(** The entry it puts into the pending map. *)
Definition pending_entry (w : ToolRegistry A) (toolCall : ToolCall.t)
    (context : ToolContext.t) : Pending.t :=
  Pending.mk (next_promise w) (next_promise w) (ToolCall.name toolCall)
    (match ToolContext.url context with
     | Some url =>
         if truthy url then Some (extractDomain (permissionManager w) url)
         else None
     | None => None
     end).

(** The registry when the wait begins: the request is posted to every
    port and the entry is in the map. *)
Definition prompting (w : ToolRegistry A) (toolCall : ToolCall.t)
    (descriptor : ToolDescriptor.t) (context : ToolContext.t) : ToolRegistry A :=
  set_pendingPermissionRequests
    (insert (next_requestId w) (pending_entry w toolCall context))
    (set_next_promise S
       (set_trace
          (λ t, t ++ map (λ port,
                   port_postMessage port
                     (PermissionRequestMessage.mk "PERMISSION_REQUEST"
                        (ToolCall.name toolCall) descriptor
                        (ToolCall.input toolCall) context (next_requestId w)))
                 (connectedPorts w))
          (set_clock S w))).

(** No entry of the pending map and no settled promise bears the number
    the next promise will get. *)
Definition promise_fresh (w : ToolRegistry A) : Prop :=
  promises w !! next_promise w = None
  ∧ ∀ requestId entry,
      pendingPermissionRequests w !! requestId = Some entry →
      Pending.resolve entry ≠ next_promise w.

(** While a wait for [promise] under [requestId] is on: the entry is in
    the map, the promise is not settled, and no other entry settles it. *)
Definition waiting_for (requestId : string) (promise : nat)
    (w : ToolRegistry A) : Prop :=
  (∃ entry, pendingPermissionRequests w !! requestId = Some entry
            ∧ Pending.resolve entry = promise)
  ∧ promises w !! promise = None
  ∧ ∀ other entry,
      other ≠ requestId →
      pendingPermissionRequests w !! other = Some entry →
      Pending.resolve entry ≠ promise.

(** Every promise that an entry of the pending map settles, and every
    promise that has settled, was created before: its number is below the
    next one. *)
Definition promises_bounded (w : ToolRegistry A) : Prop :=
  (∀ promise settled,
     promises w !! promise = Some settled → promise < next_promise w)
  ∧ ∀ requestId entry,
      pendingPermissionRequests w !! requestId = Some entry →
      Pending.resolve entry < next_promise w.

(** The invariant of a wait: the promises are bounded and the awaited one
    is among those created. *)
Definition bounded_with (promise : nat) (w : ToolRegistry A) : Prop :=
  promises_bounded w ∧ promise < next_promise w.

(** [m] keeps the property [I] of the registry. *)
Definition keeps {R} (I : ToolRegistry A → Prop) (m : M (ToolRegistry A) R) :
  Prop :=
  ∀ w, I w → I (m w).2.

End PermissionViews.

(** ** A small world to run the code in *)

(** A [JSON] that knows the empty object only. *)
Definition example_JSON : JSON := {|
  JSON_parse s :=
    if decide (s = "{}") then inr (JObject [])
    else inl (Error "JSON.parse: unexpected character");
  JSON_stringify j := match j with JObject [] => "{}" | _ => "null" end
|}.

Definition example_tool (name : string) : AITool.t :=
  AITool.mk name "" (JObject []).

(** A stream chunk that carries one whole tool call. *)
Definition example_call_chunk (index : nat) (id name arguments : string) :
  OpenAI.Chunk.t :=
  OpenAI.Chunk.mk
    (Some (OpenAI.Delta.mk None
             (Some [OpenAI.ToolCallDelta.mk index (Some id)
                      (Some (OpenAI.FunctionDelta.mk (Some name) (Some arguments)))]))).

(** An OpenAI client that answers every request with the same stream. *)
Definition example_OpenAI (chunks : list OpenAI.Chunk.t) : OpenAIAdapter :=
  {| openai_client := λ _, Returned (OpenAI.Stream.mk chunks None);
     openai_model := "gpt-4";
     toolNameMap := ∅ |}.

Definition example_prompt : list AIMessage.t :=
  [AIMessage.mk user (Some "list files") None None].

(** The history of a tool-calling turn, as the loop records it. *)
Definition example_history : list AIMessage.t :=
  [AIMessage.mk user (Some "list files") None None;
   AIMessage.mk assistant None
     (Some [ToolCallRef.mk "toolu_1" "function" (FunctionCall.mk "fs_list" "{}")])
     None;
   AIMessage.mk tool (Some "a.txt b.txt") None (Some "toolu_1")].

(** A permission manager that gives the same answer to every check and
    keeps the decisions it is asked to store. *)
Definition example_PermissionManager (check : PermissionCheck.t) :
  PermissionManager := {|
  PM := list (string * Decision * option string);
  isDomainAwareTool _ _ := false;
  extractDomain _ url := url;
  checkPermission _ _ _ _ := Returned check;
  storePermission pm toolName decision domain :=
    (Returned tt, pm ++ [(toolName, decision, domain)])
|}.

Definition prompts : PermissionCheck.t := PermissionCheck.mk false true.
Definition allows : PermissionCheck.t := PermissionCheck.mk true false.

(** A browser with no open tab, requests made at instant [t] named
    [perm-t-0.5], tool owners that answer ["done"], and the given
    [PERMISSION_RESPONSE] messages arriving during every wait. *)
Definition example_Browser (responses : list PermissionResponseMessage.t) :
  Browser := {|
  tabs_query _ := fulfilled [];
  runtime_sendMessage _ _ _ :=
    fulfilled (Some (ToolExecutionResponse.mk (Some [text_part "done"]) None None));
  Date_now t := pretty t;
  Math_random _ := "0.5";
  deliveries _ := responses;
  port_connected _ _ := true
|}.

Definition example_descriptor (name : string) : ToolDescriptor.t :=
  ToolDescriptor.mk name name "" (JObject []).

Definition example_registration (extensionId name : string) :
  string * Registration.t :=
  (name, Registration.mk extensionId (example_descriptor name)).

(** A registry right after start: one connected port, nothing pending. *)
Definition example_registry `{!PermissionManager} {A} (pm : PM)
    (this_adapter : A) (registered : list (string * Registration.t)) :
  ToolRegistry A :=
  mkToolRegistry registered (Some this_adapter) [] pm [1] ∅ [] 0 ∅ 0.

(** The call a model makes to list files. *)
Definition example_call : ToolCall.t := ToolCall.mk "call_1" "fs.list" (JObject []).

(** An adapter whose provider asks for [fs.list] under its rewritten
    name. *)
Definition example_adapter : Adapter :=
  anOpenAIAdapter (example_OpenAI [example_call_chunk 0 "call_1" "fs_list" "{}"]).

(** Two calls of one turn, and an adapter whose provider asks for both. *)
Definition example_click : ToolCall.t := ToolCall.mk "call_1" "nav.click" (JObject []).
Definition example_list : ToolCall.t := ToolCall.mk "call_2" "fs.list" (JObject []).

Definition example_two_calls : Adapter :=
  anOpenAIAdapter
    (example_OpenAI [example_call_chunk 0 "call_1" "nav_click" "{}";
                     example_call_chunk 1 "call_2" "fs_list" "{}"]).

Definition example_owners : list (string * Registration.t) :=
  [example_registration "ext-1" "nav.click";
   example_registration "ext-2" "fs.list"].

(** A registry whose permission manager asks for every tool, in a browser
    where nobody answers the prompt. *)
Definition unanswered_registry :
  @ToolRegistry (example_PermissionManager prompts) Adapter :=
  @example_registry (example_PermissionManager prompts) _ []
    example_two_calls example_owners.

Definition unanswered_call (toolCall : ToolCall.t) :=
  @executeTool (example_PermissionManager prompts) (example_Browser [])
    Adapter toolCall unanswered_registry.

Definition unanswered_prompt :=
  @executePrompt example_JSON (example_PermissionManager prompts)
    (example_Browser []) Adapter (@Adapter_AIAdapter example_JSON) recorder
    5 "click, then list" unanswered_registry.

(** The same prompt, as it comes in over port 1. *)
Definition unanswered_stream :=
  @on_EXECUTE_PROMPT example_JSON (example_PermissionManager prompts)
    (example_Browser []) Adapter (@Adapter_AIAdapter example_JSON)
    5 1 "click, then list" unanswered_registry.

(** A registry waiting for the answer to one permission request. *)
Definition waiting_registry :
  @ToolRegistry (example_PermissionManager prompts) Adapter :=
  @mkToolRegistry (example_PermissionManager prompts) Adapter
    example_owners (Some example_two_calls) []
    ([] : list (string * Decision * option string)) [1]
    {["perm-0-0.5" := Pending.mk 0 0 "nav.click" None]} [] 1 ∅ 1.

Definition example_grant : PermissionResponseMessage.t :=
  PermissionResponseMessage.mk "perm-0-0.5" true true None.

Definition example_late_denial : PermissionResponseMessage.t :=
  PermissionResponseMessage.mk "perm-0-0.5" false true None.

(** A registry without tools whose permission manager allows everything. *)
Definition allowing_registry :
  @ToolRegistry (example_PermissionManager allows) Adapter :=
  @example_registry (example_PermissionManager allows) _ []
    example_two_calls [].

(** An OpenAI adapter whose provider asks for the given calls first and,
    once the request holds a tool result, answers ["Done."]. *)
Definition example_agent (chunks : list OpenAI.Chunk.t) : Adapter :=
  anOpenAIAdapter
    {| openai_client request :=
         if existsb (λ m, match m with OpenAI.ToolMessage _ _ => true | _ => false end)
              (OpenAI.Request.messages request)
         then Returned (OpenAI.Stream.mk
                          [OpenAI.Chunk.mk (Some (OpenAI.Delta.mk (Some "Done.") None))]
                          None)
         else Returned (OpenAI.Stream.mk chunks None);
       openai_model := "gpt-4";
       toolNameMap := ∅ |}.

(** A whole prompt in a browser where nothing needs a prompt. *)
Definition example_run (registered : list (string * Registration.t))
    (chunks : list OpenAI.Chunk.t) (prompt : string) :=
  @executePrompt example_JSON (example_PermissionManager allows)
    (example_Browser []) Adapter (@Adapter_AIAdapter example_JSON) recorder
    5 prompt
    (@example_registry (example_PermissionManager allows) _ []
       (example_agent chunks) registered).

(** ** Further views: what the adapters read from a reply *)

(** The non-empty [delta.content] fragments of the chunks, in order. *)
Definition content_fragments (chunks : list OpenAI.Chunk.t) : list string :=
  omap (λ chunk,
          delta ← OpenAI.Chunk.delta chunk;
          content ← OpenAI.Delta.content delta;
          if truthy content then Some content else None)
    chunks.

(** The texts shown one after the other when each fragment is appended to
    what was shown before. *)
Fixpoint running_text (shown : string) (fragments : list string) : list string :=
  match fragments with
  | [] => []
  | fragment :: rest =>
      (shown +:+ fragment) :: running_text (shown +:+ fragment) rest
  end.

Definition concat_text (fragments : list string) : string :=
  foldr String.append "" fragments.

(** The content arrays of the [message_update] events of a sequence. *)
Definition updates (es : list AIEvent) : list (list ContentPart.t) :=
  omap (λ e, match e with message_update content => Some content | _ => None end)
    es.

(** The texts and the tool invocations among the blocks of an Anthropic
    reply, each in order. *)
Definition block_texts (blocks : list Anthropic.ContentBlock) : list string :=
  omap (λ block, match block with
                 | Anthropic.TextBlock text => Some text
                 | _ => None
                 end) blocks.

Definition block_calls (blocks : list Anthropic.ContentBlock) : list ToolCall.t :=
  omap (λ block, match block with
                 | Anthropic.ToolUseBlock id name input =>
                     Some (ToolCall.mk id name input)
                 | _ => None
                 end) blocks.

(** The fragments one stream delta adds to an accumulated call. *)
Definition delta_name (d : OpenAI.ToolCallDelta.t) : string :=
  or_default (OpenAI.ToolCallDelta.function d ≫= OpenAI.FunctionDelta.name) "".

Definition delta_arguments (d : OpenAI.ToolCallDelta.t) : string :=
  or_default (OpenAI.ToolCallDelta.function d ≫= OpenAI.FunctionDelta.arguments) "".

(** The id an accumulated call ends with: the last non-empty id among the
    deltas, or the one it had. *)
Definition last_id (had : string) (deltas : list OpenAI.ToolCallDelta.t) : string :=
  fold_left (λ id d, or_default (OpenAI.ToolCallDelta.id d) id) deltas had.

(** The tool-call deltas of a stream, in the order the loop visits them,
    and those among them that address one slot of the array. *)
Definition stream_deltas (chunks : list OpenAI.Chunk.t) :
  list OpenAI.ToolCallDelta.t :=
  chunks ≫= λ chunk,
    match OpenAI.Chunk.delta chunk ≫= OpenAI.Delta.tool_calls with
    | Some deltas => deltas
    | None => []
    end.

Definition deltas_at (index : nat) (deltas : list OpenAI.ToolCallDelta.t) :
  list OpenAI.ToolCallDelta.t :=
  filter (λ d, OpenAI.ToolCallDelta.index d = index) deltas.

(** An entry of [toolCalls] after one more delta for its slot. *)
Definition grown (entry : Accumulated.t) (d : OpenAI.ToolCallDelta.t) :
  Accumulated.t :=
  Accumulated.mk
    (or_default (OpenAI.ToolCallDelta.id d) (Accumulated.id entry))
    (Accumulated.type entry)
    (FunctionCall.mk
       (FunctionCall.name (Accumulated.function entry) +:+ delta_name d)
       (FunctionCall.arguments (Accumulated.function entry)
          +:+ delta_arguments d)).

Definition blank : Accumulated.t :=
  Accumulated.mk "" "function" (FunctionCall.mk "" "").

(** The call put together from the deltas of one slot. *)
Definition assembled (deltas : list OpenAI.ToolCallDelta.t) :
  option Accumulated.t :=
  match deltas with
  | [] => None
  | _ =>
      Some (Accumulated.mk (last_id "" deltas) "function"
              (FunctionCall.mk (concat_text (map delta_name deltas))
                 (concat_text (map delta_arguments deltas))))
  end.

(** ** Views of the registered tools *)

(** The descriptor a registration leaves under a name: the last one of
    that name among the tools sent. *)
Definition last_named (name : string) (tools : list ToolDescriptor.t) :
  option ToolDescriptor.t :=
  last (filter (λ tool, ToolDescriptor.name tool = name) tools).

(** What holds of a [Map] that only [registerExtension] has written to: no
    name occurs twice, and every entry is filed under the name of its
    descriptor. *)
Definition well_formed (tools : list (string * Registration.t)) : Prop :=
  NoDup tools.*1
  ∧ Forall (λ kv, kv.1 = ToolDescriptor.name (Registration.descriptor kv.2)) tools.

(** The entries an extension does not own. *)
Definition others (extensionId : string) (tools : list (string * Registration.t)) :
  list (string * Registration.t) :=
  filter (λ kv, Registration.extensionId kv.2 ≠ extensionId) tools.

(** ** The rest of the registry's interface *)

(** An element of the array [getRegisteredTools] returns. *)
Module RegisteredTool.
Record t := mk {
  name : string;
  extensionId : string;
  descriptor : ToolDescriptor.t
}.
End RegisteredTool.


(** The engine's message for a [for ... of] over a value that cannot be
    iterated. *)
Definition TypeError_not_iterable (what : string) : JsError :=
  Error (what +:+ " is not iterable").

Section Listeners.
Context `{!PermissionManager} {A : Type}.

Definition getRegisteredTools : M (ToolRegistry A) (list RegisteredTool.t) :=
  let* w := get in
  ret (map (λ kv, RegisteredTool.mk kv.1 (Registration.extensionId kv.2)
                    (Registration.descriptor kv.2))
         (registeredTools w)).

(** [registerExtension] as the listener calls it, on a [tools] that no
    type has checked: the loop throws on a value that cannot be iterated,
    and on reading [tool.name] of an element that is [null] or
    [undefined], after the elements before it are registered. *)
Definition registerExtension_unchecked (extensionId : string)
    (tools : option (list (option ToolDescriptor.t))) : M (ToolRegistry A) unit :=
  effect (console_log ("Registering tools from extension: " +:+ extensionId)) ;;
  match tools with
  | None => throw (TypeError_not_iterable "tools")
  | Some tools =>
      for_of tools (λ element,
        match element with
        | None => throw (TypeError_undefined "tool")
        | Some descriptor =>
            modify (set_registeredTools
                      (Map_set (ToolDescriptor.name descriptor)
                         (Registration.mk extensionId descriptor)))
        end) ;;
      effect (console_log ("Registered " +:+ pretty (length tools)
                           +:+ " tools from " +:+ extensionId))
  end.


End Listeners.

(** The elements of an array before the first that is [null] or
    [undefined]. *)
Fixpoint before_null {X} (l : list (option X)) : list X :=
  match l with
  | Some x :: l' => x :: before_null l'
  | _ => []
  end.

Fixpoint has_null {X} (l : list (option X)) : bool :=
  match l with
  | [] => false
  | None :: _ => true
  | Some _ :: l' => has_null l'
  end.


(** The tools [getAITools] offers for a map of registrations. *)
Definition offered (tools : list (string * Registration.t)) : list AITool.t :=
  map (λ kv, AITool.mk (ToolDescriptor.name (Registration.descriptor kv.2))
               (ToolDescriptor.description (Registration.descriptor kv.2))
               (ToolDescriptor.parameters (Registration.descriptor kv.2)))
    tools.

(** ** Views of a dispatch *)

(** The request [executeTool] sends to the owner of a tool. *)
Definition execute_request (toolCall : ToolCall.t) : ToolExecutionRequest.t :=
  ToolExecutionRequest.mk "TOOL_EXECUTE" (ToolCall.name toolCall)
    (ToolCall.input toolCall) (ToolCall.id toolCall).

Section DispatchViews.
Context `{!PermissionManager} `{!Browser} {A : Type}.

(** The [try] statement that ends [executeTool], for the registration
    found. *)
Definition dispatch (toolCall : ToolCall.t) (registration : Registration.t) :
  M (ToolRegistry A) ToolExecutionResponse.t :=
  let name := ToolCall.name toolCall in
  try_catch
    (let* now := tick in
     let request :=
       ToolExecutionRequest.mk "TOOL_EXECUTE" name
         (ToolCall.input toolCall) (ToolCall.id toolCall) in
     effect (sent_to_extension (Registration.extensionId registration)
               request) ;;
     let* response :=
       await (settlement
                (runtime_sendMessage now
                   (Registration.extensionId registration) request)) in
     match response with
     | None => throw (TypeError_undefined "response")
     | Some response =>
         if truthy_opt (ToolExecutionResponse.error response)
         then ret (text_result
                     ("Error: " +:+
                        default "" (ToolExecutionResponse.error response))
                     (ToolExecutionResponse.error response))
         else ret response
     end)
    (λ error_,
       effect (console_error ("Error executing tool " +:+ name +:+ ":")
                 (logged error_)) ;;
       match error_ with
       | object e =>
           ret (text_result
                  ("Error: " +:+ default "undefined" (message e))
                  (message e))
       | nullish => throw (TypeError_undefined "error")
       end).

(** What lets a call through, for the answer of the permission check:
    the policy allows it without a prompt, or a prompt was needed and an
    answer that grants it came in for the very request made. *)
Definition permitted (check : PermissionCheck.t) : Prop :=
  if PermissionCheck.requiresPrompt check
  then ∃ now response,
         response ∈ deliveries now
         ∧ PermissionResponseMessage.requestId response
           = "perm-" +:+ Date_now now +:+ "-" +:+ Math_random now
         ∧ PermissionResponseMessage.granted response = true
  else PermissionCheck.allowed check = true.

(** The effects a state has seen since an earlier one. *)
Definition since (w w' : ToolRegistry A) : list Effect :=
  drop (length (trace w)) (trace w').

End DispatchViews.

(** Lines written to the console as a warning or an error. *)
Definition is_log (e : Effect) : Prop :=
  match e with
  | console_warn _ _ | console_error _ _ => True
  | _ => False
  end.

(** What comes in while a prompt for [perm-0-0.5] is open: an answer to
    another request, a grant, and a denial after it. *)
Definition example_answers : list PermissionResponseMessage.t :=
  [PermissionResponseMessage.mk "perm-9-0.5" false false None;
   example_grant; example_late_denial].

(** A registry with the two owners whose permission manager allows
    everything. *)
Definition owners_registry :
  @ToolRegistry (example_PermissionManager allows) Adapter :=
  @example_registry (example_PermissionManager allows) _ []
    example_two_calls example_owners.

(** ** Views of a whole prompt *)

(** Effects other than the frame that ends a prompt on a port. *)
Definition in_turn (e : Effect) : Prop :=
  match e with
  | port_AGENT_COMPLETE _ | port_AGENT_ERROR _ _ => False
  | _ => True
  end.

(** A history in which every [tool] message has a text and answers a call
    that an earlier assistant message records. *)
Definition answers_recorded (history : list AIMessage.t) : Prop :=
  ∀ i m,
    history !! i = Some m → AIMessage.role m = tool →
    truthy_opt (AIMessage.content m) = true
    ∧ ∃ j a refs ref,
        j < i ∧ history !! j = Some a
        ∧ AIMessage.role a = assistant
        ∧ AIMessage.tool_calls a = Some refs
        ∧ ref ∈ refs
        ∧ AIMessage.tool_call_id m = Some (ToolCallRef.id ref).

Section PromptViews.
Context `{!PermissionManager} {A : Type}.

(** A computation relates every state to the state it leaves. *)
Definition relates {R} (Rel : relation (ToolRegistry A))
    (m : M (ToolRegistry A) R) : Prop :=
  ∀ w, Rel w (m w).2.

(** The later state has seen more effects, all of them in [P]. *)
Definition emitting (P : Effect → Prop) : relation (ToolRegistry A) :=
  λ w w', ∃ effects, trace w' = trace w ++ effects ∧ Forall P effects.

(** The later history extends the earlier one and answers recorded calls
    if the earlier one does. *)
Definition recording : relation (ToolRegistry A) :=
  λ w w',
    (∃ added, conversationHistory w' = conversationHistory w ++ added)
    ∧ (answers_recorded (conversationHistory w) →
       answers_recorded (conversationHistory w')).

End PromptViews.


(** An adapter whose provider rejects every request with [undefined]. *)
Definition example_rejecting_undefined : Adapter :=
  anAnthropicAdapter {| anthropic_client := λ _, Threw nullish |}.

(** A denial for the site, to the request made at instant 1, and what
    comes in during the wait for it. *)
Definition example_domain_denial : PermissionResponseMessage.t :=
  PermissionResponseMessage.mk "perm-1-0.5" false true (Some "domain").

Definition example_second_answers : list PermissionResponseMessage.t :=
  [example_late_denial; example_domain_denial].

(** A browser in which every port is gone once the script has caused
    [open_for] effects, and a prompt that comes in over port 1 and is
    stopped right after its first frame. *)
Definition example_closing_Browser (open_for : nat) : Browser := {|
  tabs_query _ := fulfilled [];
  runtime_sendMessage _ _ _ :=
    fulfilled (Some (ToolExecutionResponse.mk (Some [text_part "done"]) None None));
  Date_now t := pretty t;
  Math_random _ := "0.5";
  deliveries _ := [];
  port_connected _ n := bool_decide (n < open_for)
|}.

Definition stopped_stream :=
  @on_EXECUTE_PROMPT example_JSON (example_PermissionManager allows)
    (example_closing_Browser 1) Adapter (@Adapter_AIAdapter example_JSON)
    5 1 "list files"
    (@example_registry (example_PermissionManager allows) Adapter []
       example_adapter example_owners).

(** The request a call is dispatched with, and the extension it goes to:
    the one registered under the name the call carries. *)
Definition dispatch_to (registered : list (string * Registration.t))
    (toolCall : ToolCall.t) : option (string * ToolExecutionRequest.t) :=
  (λ registration,
     (Registration.extensionId registration,
      ToolExecutionRequest.mk "TOOL_EXECUTE" (ToolCall.name toolCall)
        (ToolCall.input toolCall) (ToolCall.id toolCall)))
  <$> Map_get (ToolCall.name toolCall) registered.

(** * Properties *)

(** ** The monad *)

Lemma bind_inv_Returned {S A B} (m : M S A) (k : A → M S B) s b s2 :
  bind m k s = (Returned b, s2) →
  ∃ a s1, m s = (Returned a, s1) ∧ k a s1 = (Returned b, s2).
Proof.
  unfold bind. destruct (m s) as [[a | e |] s1] eqn:Hm; intros Hk;
    [eauto | discriminate | discriminate].
Qed.

Lemma onEvent_run {St} (e : AIEvent) (r : Run.t St) :
  onEvent e r = (Returned tt, Run.mk (Run.self r) (Run.emitted r ++ [e])).
Proof. reflexivity. Qed.

Lemma for_of_onEvent {St X} (f : X → AIEvent) (xs : list X) (r : Run.t St) :
  for_of xs (λ x, onEvent (f x)) r
  = (Returned tt, Run.mk (Run.self r) (Run.emitted r ++ map f xs)).
Proof.
  revert r. induction xs as [| x xs IH]; intros [this es]; simpl.
  - unfold ret. by rewrite app_nil_r.
  - unfold bind. rewrite onEvent_run. simpl. rewrite IH. simpl.
    by rewrite <- app_assoc.
Qed.

(** ** Counting events *)

Lemma count_nil p : count p [] = 0.
Proof. reflexivity. Qed.

Lemma count_app p es1 es2 : count p (es1 ++ es2) = count p es1 + count p es2.
Proof. unfold count. by rewrite filter_app, length_app. Qed.

Lemma count_cons p e es :
  count p (e :: es) = (if p e then 1 else 0) + count p es.
Proof.
  unfold count. destruct (p e) eqn:He.
  - rewrite filter_cons_True by done. reflexivity.
  - rewrite filter_cons_False by (rewrite He; discriminate). reflexivity.
Qed.

Lemma count_none p es :
  Forall (λ e, p e = false) es → count p es = 0.
Proof.
  induction 1 as [| e es He _ IH]; [done |].
  rewrite count_cons, He, IH. done.
Qed.

Lemma count_all p es :
  Forall (λ e, p e = true) es → count p es = length es.
Proof.
  induction 1 as [| e es He _ IH]; [done |].
  rewrite count_cons, He, IH. done.
Qed.

Lemma Forall_kind_exclusive (p q : AIEvent → bool) es :
  (∀ e, p e = true → q e = false) →
  Forall (λ e, p e = true) es → Forall (λ e, q e = false) es.
Proof. intros Hpq Hp. eapply Forall_impl; [exact Hp | auto]. Qed.

Lemma turn_shape_counts es : turn_shape es → exactly_one_outcome es.
Proof.
  intros (updates & tail & -> & Hupd & Hend).
  assert (Hu_start : count is_message_start updates = 0).
  { apply count_none. revert Hupd. apply Forall_kind_exclusive. by intros []. }
  assert (Hu_done : count is_message_complete updates = 0).
  { apply count_none. revert Hupd. apply Forall_kind_exclusive. by intros []. }
  assert (Hu_tool : count is_tool_use updates = 0).
  { apply count_none. revert Hupd. apply Forall_kind_exclusive. by intros []. }
  split; [done |].
  rewrite !count_cons, !count_app, Hu_start, Hu_done, Hu_tool. simpl.
  destruct Hend as [content | tail Hne Htools].
  - split; [done |]. left. repeat split; try done.
    exists content. by rewrite app_comm_cons, last_snoc.
  - assert (Ht_start : count is_message_start tail = 0).
    { apply count_none. revert Htools. apply Forall_kind_exclusive. by intros []. }
    assert (Ht_done : count is_message_complete tail = 0).
    { apply count_none. revert Htools. apply Forall_kind_exclusive. by intros []. }
    rewrite Ht_start, Ht_done, (count_all _ _ Htools).
    split; [done |]. right. repeat split; try done.
    + destruct tail; [done | simpl; lia].
    + destruct (List.exists_last Hne) as (tail' & e & ->).
      apply Forall_app in Htools as [_ He].
      inversion_clear He as [| ? ? He' _].
      destruct e; try discriminate. eexists.
      rewrite app_comm_cons, app_assoc. apply last_snoc.
Qed.

(** ** What a computation hands to [onEvent] *)

Lemma emits_ret {St R} P (x : R) : emits (St := St) P (ret x).
Proof. intros r c r' [= <- <-]. exists []. by rewrite app_nil_r. Qed.

Lemma emits_throw {St R} P e : emits (St := St) (R := R) P (throw e).
Proof. intros r c r' [= <- <-]. exists []. by rewrite app_nil_r. Qed.

Lemma emits_await {St R} P (x : Completion R) : emits (St := St) P (await x).
Proof. intros r c r' [= <- <-]. exists []. by rewrite app_nil_r. Qed.

Lemma emits_sync {St R} P (x : JsError + R) : emits (St := St) P (sync x).
Proof. intros r c r' [= <- <-]. exists []. by rewrite app_nil_r. Qed.

Lemma emits_get {St} P : emits (St := St) P get.
Proof. intros r c r' [= <- <-]. exists []. by rewrite app_nil_r. Qed.

Lemma emits_onEvent {St} (P : AIEvent → Prop) e : P e → emits (St := St) P (onEvent e).
Proof. intros He r c r' [= <- <-]. exists [e]. simpl. auto. Qed.

Lemma emits_set_toolNameMap P f : emits P (modify (set_toolNameMap f)).
Proof. intros r c r' [= <- <-]. exists []. simpl. by rewrite app_nil_r. Qed.

Lemma emits_bind {St R R'} P (m : M (Run.t St) R) (k : R → M (Run.t St) R') :
  emits P m → (∀ x, emits P (k x)) → emits P (bind m k).
Proof.
  intros Hm Hk r c r'. unfold bind.
  destruct (m r) as [[x | e |] r1] eqn:E; intros Hr.
  - destruct (Hm _ _ _ E) as (es1 & E1 & H1).
    destruct (Hk x _ _ _ Hr) as (es2 & E2 & H2).
    exists (es1 ++ es2). rewrite E2, E1, app_assoc.
    split; [done | by apply Forall_app].
  - injection Hr as <- <-. eauto.
  - injection Hr as <- <-. eauto.
Qed.

Lemma emits_try_catch {St R} P (m : M (Run.t St) R) h :
  emits P m → (∀ e, emits P (h e)) → emits P (try_catch m h).
Proof.
  intros Hm Hh r c r'. unfold try_catch.
  destruct (m r) as [[x | e |] r1] eqn:E; intros Hr.
  - injection Hr as <- <-. eauto.
  - destruct (Hm _ _ _ E) as (es1 & E1 & H1).
    destruct (Hh e _ _ _ Hr) as (es2 & E2 & H2).
    exists (es1 ++ es2). rewrite E2, E1, app_assoc.
    split; [done | by apply Forall_app].
  - injection Hr as <- <-. eauto.
Qed.

Lemma emits_when {St} P b (m : M (Run.t St) unit) : emits P m → emits P (when b m).
Proof. destruct b; [done | intros _; apply emits_ret]. Qed.

Lemma emits_for_of {St X} P (xs : list X) (body : X → M (Run.t St) unit) :
  (∀ x, emits P (body x)) → emits P (for_of xs body).
Proof.
  intros Hbody. induction xs as [| x xs IH]; simpl.
  - apply emits_ret.
  - apply emits_bind; auto.
Qed.

Lemma emits_Array_map {St X Y} P (xs : list X) (f : X → M (Run.t St) Y) :
  (∀ x, emits P (f x)) → emits P (Array_map xs f).
Proof.
  intros Hf. induction xs as [| x xs IH]; simpl.
  - apply emits_ret.
  - apply emits_bind; [done |]. intros y. apply emits_bind; [done |].
    intros ys. apply emits_ret.
Qed.

Lemma emits_weaken {St R} (P Q : AIEvent → Prop) (m : M (Run.t St) R) :
  (∀ e, P e → Q e) → emits P m → emits Q m.
Proof.
  intros HPQ Hm r c r' Hr. destruct (Hm _ _ _ Hr) as (es & E & Hes).
  exists es. split; [done |]. eapply Forall_impl; eauto.
Qed.

Lemma emits_lift_run {X R} P (inj : X → Adapter) (m : M (Run.t X) R) this :
  emits P m → emits P (lift_run inj m this).
Proof.
  intros Hm r c r'. unfold lift_run.
  destruct (m _) as [c1 r1] eqn:E. intros [= <- <-].
  destruct (Hm _ _ _ E) as (es & Hes & HP). simpl in *. eauto.
Qed.

Create HintDb emits.
#[local] Hint Resolve emits_ret emits_throw emits_await emits_sync emits_get
  emits_set_toolNameMap emits_when emits_for_of emits_Array_map : emits.

Ltac emits_leaf :=
  first [ apply emits_onEvent; reflexivity | solve [eauto with emits] ].

Ltac emits_step :=
  first [ apply emits_bind; [emits_leaf | intros ?] | emits_leaf ].

(** *** The stream loop of the OpenAI adapter *)

Lemma openai_chunks_Returned {St} chunks acc toolCalls (r : Run.t St) :
  ∃ locals es,
    openai_chunks chunks acc toolCalls r
    = (Returned locals, Run.mk (Run.self r) (Run.emitted r ++ es))
    ∧ Forall (λ e, is_message_update e = true) es.
Proof.
  revert acc toolCalls r.
  induction chunks as [| chunk rest IH]; intros acc toolCalls [this es0]; simpl.
  - exists (acc, toolCalls), []. by rewrite app_nil_r.
  - destruct (OpenAI.Chunk.delta chunk) as [delta |]; [| apply IH].
    unfold bind, when. destruct (truthy_opt (OpenAI.Delta.content delta)).
    + rewrite onEvent_run. simpl.
      edestruct IH as (locals & es & -> & Hes).
      eexists locals, (message_update _ :: es). simpl.
      rewrite <- app_assoc. split; [reflexivity |].
      constructor; [done | exact Hes].
    + unfold ret. apply IH.
Qed.

Section AdapterFacts.
Context `{!JSON}.

Lemma openai_emit_tool_use_emits toolCall :
  emits (λ e, is_tool_use e = true) (openai_emit_tool_use toolCall).
Proof. destruct toolCall; simpl; repeat emits_step. Qed.

(** When the final loop runs to its end it has emitted one [tool_use] per
    element of the array. *)
Lemma for_of_emit_tool_use_Returned toolCalls r r' :
  for_of toolCalls openai_emit_tool_use r = (Returned tt, r') →
  ∃ es, Run.emitted r' = Run.emitted r ++ es
        ∧ length es = length toolCalls
        ∧ Forall (λ e, is_tool_use e = true) es.
Proof.
  revert r. induction toolCalls as [| toolCall rest IH]; intros r; simpl.
  - intros [= <-]. exists []. by rewrite app_nil_r.
  - intros Hrun. apply bind_inv_Returned in Hrun as ([] & r1 & H1 & H2).
    destruct (IH _ H2) as (es2 & E2 & Hlen & Hes2). rewrite E2.
    destruct toolCall as [toolCall |]; [| discriminate].
    simpl in H1. unfold bind, get, sync in H1.
    destruct (JSON_parse _) as [e | input]; try discriminate.
    rewrite onEvent_run in H1. injection H1 as <-. simpl.
    eexists (_ :: es2). rewrite <- app_assoc. simpl.
    split; [done |]. split; [by rewrite Hlen |]. by constructor.
Qed.

End AdapterFacts.

(** *** The tool catalog of the OpenAI adapter *)

Lemma Array_map_openai_tool tools (r : Run.t OpenAIAdapter) :
  Array_map tools openai_tool r
  = (Returned (map openai_declaration tools),
     set_toolNameMap (with_tool_names tools) r).
Proof.
  revert r. induction tools as [| t tools IH]; intros [[c m names] es]; [done |].
  simpl. unfold bind at 1. unfold openai_tool at 1. unfold bind at 1.
  unfold modify, ret at 1. simpl. unfold bind. rewrite IH. reflexivity.
Qed.

(** The name a lookup in the rebuilt map finds: that of the last tool of
    the catalog whose rewritten form is the key. *)
Lemma with_tool_names_lookup tools m n :
  with_tool_names tools m !! n
  = match last (filter (λ t, normalizeToolName (AITool.name t) = n) tools) with
    | Some t => Some (AITool.name t)
    | None => m !! n
    end.
Proof.
  revert m. induction tools as [| t tools IH]; intros m; [done |].
  unfold with_tool_names in *. simpl. rewrite IH.
  destruct (decide (normalizeToolName (AITool.name t) = n)) as [Heq | Hne].
  - rewrite filter_cons_True by done.
    destruct (filter _ tools) as [| t' ts] eqn:E; simpl.
    + by rewrite Heq, lookup_insert_eq.
    + change (last (t :: t' :: ts)) with (last (t' :: ts)).
      by destruct (last (t' :: ts)) eqn:El; [| apply last_None in El].
  - rewrite filter_cons_False by done.
    destruct (last _); [done |]. by rewrite lookup_insert_ne.
Qed.

Section AdapterRuns.
Context `{!JSON}.

(** [OpenAIAdapter.sendMessage] step by step: the map is rebuilt, the
    request goes out, the stream is read, the calls are emitted. *)
Lemma OpenAIAdapter_try_run messages tools systemPrompt this :
  call (OpenAIAdapter_try messages tools systemPrompt) this
  = let r0 := Run.mk (rebuilt this tools) [message_start] in
    match openai_client this (openai_request this messages tools systemPrompt) with
    | Returned stream =>
        match openai_chunks (OpenAI.Stream.chunks stream) "" [] r0 with
        | (Returned (accumulatedContent, toolCalls), r1) =>
            match OpenAI.Stream.failure stream with
            | Some e => (Threw e, r1)
            | None =>
                (if bool_decide (0 < length (Array_elements toolCalls))
                 then for_of (Array_elements toolCalls) openai_emit_tool_use
                 else onEvent (message_complete accumulatedContent)) r1
            end
        | (Threw e, r1) => (Threw e, r1)
        | (Unsettled, r1) => (Unsettled, r1)
        end
    | Threw e => (Threw e, r0)
    | Unsettled => (Unsettled, r0)
    end.
Proof.
  destruct this as [client model names].
  unfold call, OpenAIAdapter_try, openai_request, rebuilt. simpl.
  unfold bind at 1. rewrite onEvent_run. simpl.
  unfold bind at 1. unfold modify at 1. simpl.
  unfold bind at 1.
  assert (Hmap :
    (if bool_decide (0 < length tools)
     then bind (Array_map tools openai_tool) (λ ts, ret (Some ts))
     else ret None)
      (set_toolNameMap (λ _, ∅)
         (Run.mk {| openai_client := client; openai_model := model;
                    toolNameMap := names |} [message_start]))
    = (Returned (if bool_decide (0 < length tools)
                 then Some (map openai_declaration tools) else None),
       Run.mk {| openai_client := client; openai_model := model;
                 toolNameMap := with_tool_names tools ∅ |} [message_start])).
  { case_bool_decide as Hlen.
    - unfold bind. rewrite Array_map_openai_tool. reflexivity.
    - destruct tools; [reflexivity | simpl in Hlen; lia]. }
  rewrite Hmap. clear Hmap.
  unfold bind at 1. unfold get at 1. simpl.
  unfold bind at 1. unfold await at 1.
  destruct (client _) as [stream | e |]; [| reflexivity | reflexivity].
  unfold bind at 1.
  destruct (openai_chunks _ _ _ _) as [[[acc toolCalls] | e |] r1];
    [| reflexivity | reflexivity].
  unfold bind at 1.
  destruct (OpenAI.Stream.failure stream); reflexivity.
Qed.

Lemma AnthropicAdapter_try_run messages tools systemPrompt this :
  call (AnthropicAdapter_try messages tools systemPrompt) this
  = let r0 := Run.mk this [message_start] in
    match anthropic_client this (anthropic_request messages tools systemPrompt) with
    | Returned response =>
        let '(textContent, toolCalls) :=
          fold_left anthropic_block (Anthropic.Response.content response) ("", []) in
        (Returned tt,
         Run.mk this
           (message_start
              :: (if truthy textContent
                  then [message_update [text_part textContent]] else [])
              ++ (if bool_decide (0 < length toolCalls)
                  then map tool_use toolCalls
                  else [message_complete textContent])))
    | Threw e => (Threw e, r0)
    | Unsettled => (Unsettled, r0)
    end.
Proof.
  unfold call, AnthropicAdapter_try. simpl.
  unfold bind at 1. rewrite onEvent_run. simpl.
  unfold bind at 1. unfold get at 1. simpl.
  unfold bind at 1. unfold await at 1.
  destruct (anthropic_client _ _) as [response | e |]; [| reflexivity | reflexivity].
  destruct (fold_left _ _ _) as [textContent toolCalls].
  unfold bind, when.
  destruct (truthy textContent); simpl; case_bool_decide;
    rewrite ?for_of_onEvent, ?onEvent_run; reflexivity.
Qed.

Lemma GoogleAdapter_try_run messages tools systemPrompt this :
  call (GoogleAdapter_try messages tools systemPrompt) this
  = let r0 := Run.mk this [message_start] in
    match google_client this (google_model this) systemPrompt with
    | inr model =>
        match messages !! (length messages - 1) with
        | None => (Threw (TypeError_undefined "lastMessage"), r0)
        | Some lastMessage =>
            match model (map google_content (slice_0_minus1 messages))
                    (or_default (AIMessage.content lastMessage) "") with
            | Returned text =>
                (Returned tt,
                 Run.mk this [message_start; message_update [text_part text];
                              message_complete text])
            | Threw e => (Threw e, r0)
            | Unsettled => (Unsettled, r0)
            end
        end
    | inl e => (Threw e, r0)
    end.
Proof.
  unfold call, GoogleAdapter_try. simpl.
  unfold bind at 1. rewrite onEvent_run. simpl.
  unfold bind at 1. unfold get at 1. simpl.
  unfold bind at 1. unfold sync at 1.
  destruct (google_client _ _ _) as [e | model]; [reflexivity |].
  destruct (messages !! _) as [lastMessage |]; [| reflexivity].
  unfold bind, await. destruct (model _ _); reflexivity.
Qed.

End AdapterRuns.

Section AdapterTheorems.
Context `{!JSON}.

(** *** No [try] block emits an [error] event itself *)

Lemma AnthropicAdapter_try_emits messages tools systemPrompt :
  emits not_error (AnthropicAdapter_try messages tools systemPrompt).
Proof.
  unfold AnthropicAdapter_try. do 3 emits_step.
  destruct (fold_left _ _ _) as [textContent toolCalls].
  apply emits_bind; [apply emits_when; emits_step | intros _].
  case_bool_decide; [apply emits_for_of; intros ? |]; emits_step.
Qed.

Lemma openai_chunks_emits chunks acc toolCalls :
  emits (St := OpenAIAdapter) not_error (openai_chunks chunks acc toolCalls).
Proof.
  intros r c r' Hr.
  destruct (openai_chunks_Returned chunks acc toolCalls r) as (l & es & E & Hes).
  rewrite E in Hr. injection Hr as <- <-. exists es. split; [done |].
  eapply Forall_impl; [exact Hes |]. by intros [].
Qed.

Lemma OpenAIAdapter_try_emits messages tools systemPrompt :
  emits not_error (OpenAIAdapter_try messages tools systemPrompt).
Proof.
  unfold OpenAIAdapter_try. do 2 emits_step.
  apply emits_bind; [| intros openaiTools].
  { case_bool_decide; [| emits_step].
    apply emits_bind; [| intros ?; emits_step].
    apply emits_Array_map. intros t. unfold openai_tool. repeat emits_step. }
  do 2 emits_step.
  apply emits_bind; [apply openai_chunks_emits | intros locals].
  apply emits_bind;
    [destruct (OpenAI.Stream.failure _); emits_step | intros _].
  destruct locals as [accumulatedContent toolCalls].
  case_bool_decide; [| emits_step].
  apply emits_for_of. intros toolCall.
  eapply emits_weaken; [| apply openai_emit_tool_use_emits].
  by intros [].
Qed.

Lemma GoogleAdapter_try_emits messages tools systemPrompt :
  emits not_error (GoogleAdapter_try messages tools systemPrompt).
Proof.
  unfold GoogleAdapter_try. do 3 emits_step.
  destruct (messages !! _); repeat emits_step.
Qed.

Lemma Adapter_try_emits messages tools systemPrompt :
  emits not_error (Adapter_try messages tools systemPrompt).
Proof.
  intros r c r'. unfold Adapter_try.
  destruct (Run.self r) as [a | a | a]; apply emits_lift_run;
    auto using AnthropicAdapter_try_emits, OpenAIAdapter_try_emits,
      GoogleAdapter_try_emits.
Qed.

(** Dispatch commutes with the [try]/[catch] every variant has. *)
Lemma Adapter_sendMessage_try_catch messages tools systemPrompt r :
  sendMessage (A := Adapter) messages tools systemPrompt r
  = try_catch (Adapter_try messages tools systemPrompt) catch_handler r.
Proof.
  destruct r as [[a | a | a] es]; simpl; unfold Adapter_try, lift_run, try_catch;
    simpl;
    match goal with
    | |- context [?body (Run.mk a es)] =>
        destruct (body (Run.mk a es)) as [[[] | [e |] |] [a' es']]
    end; reflexivity.
Qed.

(** *** The shape of a [try] block that ran to its end *)

Lemma AnthropicAdapter_try_shape messages tools systemPrompt this r' :
  call (AnthropicAdapter_try messages tools systemPrompt) this = (Returned tt, r') →
  turn_shape (Run.emitted r').
Proof.
  rewrite AnthropicAdapter_try_run. simpl.
  destruct (anthropic_client _ _) as [response | e |]; try discriminate.
  destruct (fold_left _ _ _) as [textContent toolCalls].
  intros [= <-]. simpl.
  eexists (if truthy textContent then _ else _), _. split; [reflexivity |].
  split; [destruct (truthy textContent); repeat constructor |].
  case_bool_decide as Hlen; [| constructor].
  apply ends_tool_use.
  - destruct toolCalls; [simpl in Hlen; lia | done].
  - apply Forall_map, Forall_true. done.
Qed.

Lemma OpenAIAdapter_try_shape messages tools systemPrompt this r' :
  call (OpenAIAdapter_try messages tools systemPrompt) this = (Returned tt, r') →
  turn_shape (Run.emitted r').
Proof.
  rewrite OpenAIAdapter_try_run. simpl.
  destruct (openai_client _ _) as [stream | e |]; try discriminate.
  destruct (openai_chunks_Returned (OpenAI.Stream.chunks stream) "" []
              (Run.mk (rebuilt this tools) [message_start]))
    as ([acc toolCalls] & updates & -> & Hupdates).
  destruct (OpenAI.Stream.failure stream); [discriminate |].
  simpl. case_bool_decide as Hlen.
  - intros Hloop. apply for_of_emit_tool_use_Returned in Hloop
      as (es & -> & Hes_len & Hes).
    simpl. exists updates, es. split; [done |]. split; [done |].
    apply ends_tool_use; [| done].
    destruct es; [simpl in Hes_len; lia | done].
  - rewrite onEvent_run. intros [= <-]. simpl.
    exists updates, [message_complete acc]. split; [done |]. split; [done |].
    constructor.
Qed.

Lemma GoogleAdapter_try_shape messages tools systemPrompt this r' :
  call (GoogleAdapter_try messages tools systemPrompt) this = (Returned tt, r') →
  turn_shape (Run.emitted r').
Proof.
  rewrite GoogleAdapter_try_run. simpl.
  destruct (google_client _ _ _) as [e | model]; try discriminate.
  destruct (messages !! _) as [lastMessage |]; [| discriminate].
  destruct (model _ _) as [text | e |]; try discriminate.
  intros [= <-]. simpl.
  exists [message_update [text_part text]], [message_complete text].
  split; [done |]. split; [repeat constructor | constructor].
Qed.

Lemma Adapter_try_shape messages tools systemPrompt (this : Adapter) r' :
  call (Adapter_try messages tools systemPrompt) this = (Returned tt, r') →
  turn_shape (Run.emitted r').
Proof.
  unfold call, Adapter_try, lift_run. simpl.
  destruct this as [a | a | a];
    match goal with
    | |- context [?body (Run.mk a [])] =>
        destruct (body (Run.mk a [])) as [c r1] eqn:Hbody
    end; intros [= -> <-]; simpl;
    eauto using AnthropicAdapter_try_shape, OpenAIAdapter_try_shape,
      GoogleAdapter_try_shape.
Qed.

End AdapterTheorems.

(** ** The adapters' event protocol *)

(** C2. For each of the three adapters, a [sendMessage] call whose [try]
    block runs to its end (the failure branch is not taken) emits
    [message_start] first and exactly once, and then ends either with
    exactly one [message_complete] and no [tool_use], or with at least one
    [tool_use] and no [message_complete]. *)
Theorem sendMessage_one_outcome `{!JSON} (this : Adapter)
    (messages : list AIMessage.t) (tools : list AITool.t) (systemPrompt : string) :
  (call (Adapter_try messages tools systemPrompt) this).1 = Returned tt →
  exactly_one_outcome
    (events_of (call (sendMessage messages tools systemPrompt) this)).
Proof.
  intros Htry. apply turn_shape_counts.
  unfold call, events_of in *. rewrite Adapter_sendMessage_try_catch.
  unfold try_catch.
  destruct (Adapter_try _ _ _ _) as [c r'] eqn:Hbody. simpl in Htry. subst c.
  simpl. eapply Adapter_try_shape. exact Hbody.
Qed.

Lemma sendMessage_one_outcome_witness :
  exactly_one_outcome
    (events_of
       (call (@sendMessage _ (@Adapter_AIAdapter example_JSON) example_prompt
                [example_tool "a.b.c"] "")
          (anOpenAIAdapter
             (example_OpenAI [example_call_chunk 0 "call_1" "a_b_c" "{}"])))).
Proof.
  apply (@sendMessage_one_outcome example_JSON). vm_compute. reflexivity.
Defined.

(** A [try] block that throws an object: one [error] event with the
    object's message (or the fixed text when it has none) ends the call,
    and the promise is fulfilled. *)
Lemma sendMessage_object_thrown `{!JSON} (this : Adapter)
    (messages : list AIMessage.t) (tools : list AITool.t) (systemPrompt : string)
    (thrown : JsError) :
  (call (Adapter_try messages tools systemPrompt) this).1 = Threw thrown →
  let r := call (sendMessage messages tools systemPrompt) this in
  r.1 = Returned tt
  ∧ count is_error (events_of r) = 1
  ∧ last (events_of r)
    = Some (error (or_default (message thrown) "Unknown error occurred")).
Proof.
  intros Htry r. subst r. unfold call, events_of in *.
  rewrite Adapter_sendMessage_try_catch. unfold try_catch.
  destruct (Adapter_try _ _ _ _) as [c r'] eqn:Hbody. simpl in Htry. subst c.
  destruct (Adapter_try_emits _ _ _ _ _ _ Hbody) as (es & Hes & Hno).
  unfold catch_handler. rewrite onEvent_run. simpl. rewrite Hes. simpl.
  split; [done |]. split; [| apply last_snoc].
  rewrite count_app, count_cons, count_nil. simpl.
  rewrite (count_none is_error es); [done |].
  eapply Forall_impl; [exact Hno | done].
Qed.

Example sendMessage_object_thrown_run :
  let r :=
    call (@sendMessage _ (@Adapter_AIAdapter example_JSON) example_prompt
            [example_tool "a.b.c"] "")
      (anOpenAIAdapter
         (example_OpenAI [example_call_chunk 0 "call_1" "a_b_c" "{}";
                          example_call_chunk 1 "call_2" "a_b_c" "{"])) in
  r.1 = Returned tt
  ∧ count is_error (events_of r) = 1
  ∧ last (events_of r) = Some (error "JSON.parse: unexpected character").
Proof.
  apply (@sendMessage_object_thrown example_JSON _ _ _ _
           (Error "JSON.parse: unexpected character")).
  vm_compute. reflexivity.
Qed.

(** C5 holds for every thrown value but two.  For each of the three
    adapters, when the [try] block of [sendMessage] throws or rejects
    with anything that has properties, the call emits exactly one
    [error] event, carrying the thrown message (or the fixed text when
    there is none), as its last event, and the promise it returns is
    fulfilled.  When the value thrown is [null] or [undefined], the
    [catch] block itself throws on reading [error.message]: no [error]
    event is emitted, the events are those the [try] block had emitted,
    and the promise is rejected with that [TypeError]. *)
Theorem sendMessage_thrown `{!JSON} (this : Adapter)
    (messages : list AIMessage.t) (tools : list AITool.t) (systemPrompt : string)
    (thrown : Thrown) :
  (call (Adapter_try messages tools systemPrompt) this).1 = Threw thrown →
  let r := call (sendMessage messages tools systemPrompt) this in
  match thrown with
  | object e =>
      r.1 = Returned tt
      ∧ count is_error (events_of r) = 1
      ∧ last (events_of r)
        = Some (error (or_default (message e) "Unknown error occurred"))
  | nullish =>
      r.1 = Threw (TypeError_undefined "error")
      ∧ count is_error (events_of r) = 0
      ∧ events_of r
        = events_of (call (Adapter_try messages tools systemPrompt) this)
  end.
Proof.
  intros Htry r. destruct thrown as [e |].
  { by apply sendMessage_object_thrown. }
  subst r. unfold call, events_of in *.
  rewrite Adapter_sendMessage_try_catch. unfold try_catch.
  destruct (Adapter_try _ _ _ _) as [c r'] eqn:Hbody. simpl in Htry. subst c.
  destruct (Adapter_try_emits _ _ _ _ _ _ Hbody) as (es & Hes & Hno).
  simpl. split; [done |]. split; [| done].
  rewrite Hes. simpl. apply count_none.
  eapply Forall_impl; [exact Hno | done].
Qed.

Lemma sendMessage_thrown_witness :
  let r :=
    call (@sendMessage _ (@Adapter_AIAdapter example_JSON) example_prompt
            [example_tool "a.b.c"] "") example_rejecting_undefined in
  r.1 = Threw (TypeError_undefined "error")
  ∧ count is_error (events_of r) = 0
  ∧ events_of r = [message_start].
Proof.
  exact (@sendMessage_thrown example_JSON example_rejecting_undefined
           example_prompt [example_tool "a.b.c"] "" nullish eq_refl).
Defined.

(** ** Tool names across the OpenAI adapter *)

Lemma replace_dots_idempotent s : replace_dots (replace_dots s) = replace_dots s.
Proof.
  induction s as [| c s IH]; [done |]. simpl. rewrite IH.
  destruct (Ascii.eqb c ".") eqn:E; [done |]. by rewrite E.
Qed.

Lemma replace_dots_changes s : contains_dot s = true → replace_dots s ≠ s.
Proof.
  induction s as [| c s IH]; [done |]. simpl.
  destruct (Ascii.eqb c ".") eqn:E; simpl.
  - apply Ascii.eqb_eq in E as ->. discriminate.
  - intros Hs [= Heq]. by apply IH.
Qed.

Lemma contains_dot_truthy s : contains_dot s = true → truthy s = true.
Proof. by destruct s. Qed.

Lemma replace_dots_truthy s : truthy (replace_dots s) = truthy s.
Proof. by destruct s. Qed.

Lemma tool_uses_app es1 es2 : tool_uses (es1 ++ es2) = tool_uses es1 ++ tool_uses es2.
Proof. apply omap_app. Qed.

Lemma tool_uses_map_tool_use tcs : tool_uses (map tool_use tcs) = tcs.
Proof. induction tcs as [| tc tcs IH]; [done |]. simpl. by rewrite IH. Qed.

Lemma tool_uses_none es :
  Forall (λ e, is_tool_use e = false) es → tool_uses es = [].
Proof.
  induction 1 as [| e es He _ IH]; [done |].
  destruct e; try discriminate; exact IH.
Qed.

(** The locals the stream loop ends with do not depend on the state it
    runs in. *)
Lemma openai_chunks_locals {St St'} chunks acc toolCalls
    (r : Run.t St) (r' : Run.t St') :
  (openai_chunks chunks acc toolCalls r).1
  = (openai_chunks chunks acc toolCalls r').1.
Proof.
  revert acc toolCalls r r'.
  induction chunks as [| chunk rest IH]; intros acc toolCalls r r'; [done |].
  simpl. destruct (OpenAI.Chunk.delta chunk) as [delta |]; [| apply IH].
  unfold bind, when. destruct (truthy_opt (OpenAI.Delta.content delta)).
  - rewrite !onEvent_run. apply IH.
  - unfold ret. apply IH.
Qed.

Lemma openai_chunks_toolCalls {St} chunks (r : Run.t St) :
  ∃ acc es,
    openai_chunks chunks "" [] r
    = (Returned (acc, openai_toolCalls chunks),
       Run.mk (Run.self r) (Run.emitted r ++ es))
    ∧ Forall (λ e, is_message_update e = true) es.
Proof.
  destruct (openai_chunks_Returned chunks "" [] r) as ([acc tcs] & es & E & Hes).
  exists acc, es. split; [| done]. rewrite E. do 3 f_equal.
  unfold openai_toolCalls, call.
  pose proof (openai_chunks_locals chunks "" [] r (Run.mk tt [])) as Hl.
  rewrite E in Hl. simpl in Hl.
  destruct (openai_chunks chunks "" [] (Run.mk tt [])) as [c r1].
  simpl in Hl. by subst c.
Qed.

(** ** The elements of an array *)

Lemma below_lookup {A} (limit : N) (a : list A) i :
  below limit a !! i = if (N.of_nat i <? limit)%N then a !! i else None.
Proof.
  revert limit i. induction a as [| x a IH]; intros limit i; simpl.
  - by destruct (_ <? _)%N.
  - destruct (N.eqb_spec limit 0) as [-> | Hpos].
    + by destruct (N.of_nat i).
    + destruct i as [| i]; simpl.
      * destruct (N.ltb_spec (N.of_nat 0) limit); [done | lia].
      * rewrite IH.
        destruct (N.ltb_spec (N.of_nat i) (N.pred limit)),
                 (N.ltb_spec (N.of_nat (S i)) limit); try done; lia.
Qed.

Lemma without_trailing_holes_lookup {A} (a : list (option A)) i x :
  without_trailing_holes a !! i = Some x → a !! i = Some x.
Proof.
  revert i. induction a as [| y a IH]; intros i; simpl; [done |].
  destruct y as [v |].
  - destruct i as [| i]; simpl; [done | apply IH].
  - destruct (without_trailing_holes a) as [| z rest] eqn:E; [done |].
    destruct i as [| i]; simpl; [done | apply IH].
Qed.

Lemma without_trailing_holes_before {A} (a : list (option A)) i j v :
  (i ≤ j)%nat → a !! j = Some (Some v) →
  without_trailing_holes a !! i = a !! i.
Proof.
  revert i j. induction a as [| y a IH]; intros i j Hle Hj; simpl; [done |].
  destruct j as [| j]; simpl in Hj.
  - assert (i = 0)%nat as -> by lia. injection Hj as ->. done.
  - assert (without_trailing_holes a ≠ []) as Hrest.
    { intros E. pose proof (IH j j (le_n _) Hj) as Hjj.
      rewrite E, Hj in Hjj. done. }
    destruct i as [| i].
    + destruct y; [done |]. by destruct (without_trailing_holes a).
    + assert (without_trailing_holes a !! i = a !! i) as Hi
        by (apply (IH i j); [lia | done]).
      destruct y; [done |].
      by destruct (without_trailing_holes a).
Qed.

(** The elements are an initial part of what the array stores. *)
Lemma Array_elements_lookup {A} (a : list (option A)) i x :
  Array_elements a !! i = Some x → a !! i = Some x.
Proof.
  unfold Array_elements. intros H.
  apply without_trailing_holes_lookup in H. rewrite below_lookup in H.
  by destruct (_ <? _)%N.
Qed.

(** Up to the last array index written, they are what the array stores. *)
Lemma Array_elements_before {A} (a : list (option A)) i j v :
  (i ≤ j)%nat → (N.of_nat j < Array_limit)%N → a !! j = Some (Some v) →
  Array_elements a !! i = a !! i.
Proof.
  intros Hle Hj Hv. unfold Array_elements.
  rewrite (without_trailing_holes_before _ i j v Hle).
  - rewrite below_lookup.
    destruct (N.ltb_spec (N.of_nat i) Array_limit); [done | lia].
  - rewrite below_lookup.
    destruct (N.ltb_spec (N.of_nat j) Array_limit); [done | lia].
Qed.

Lemma without_trailing_holes_holes {A} (a : list (option A)) :
  Forall (λ x, x = None) a → without_trailing_holes a = [].
Proof.
  induction 1 as [| x a -> _ IH]; simpl; [done |]. by rewrite IH.
Qed.

(** What is written under a number that is not an array index is not an
    element: the array written to stays empty. *)
Lemma Array_elements_beyond {A} (index : nat) (v : A) :
  (Array_limit ≤ N.of_nat index)%N → Array_elements (Array_set [] index v) = [].
Proof.
  intros Hlimit. unfold Array_elements.
  apply without_trailing_holes_holes, Forall_lookup. intros i x Hx.
  rewrite below_lookup in Hx.
  destruct (N.ltb_spec (N.of_nat i) Array_limit) as [Hi |]; [| done].
  unfold Array_set in Hx. simpl in Hx. rewrite Nat.sub_0_r in Hx.
  rewrite lookup_app_l in Hx by (rewrite length_replicate; lia).
  by apply lookup_replicate in Hx as [-> _].
Qed.

Lemma Array_elements_nil {A} : Array_elements (@nil (option A)) = [].
Proof. done. Qed.

Section ToolNames.
Context `{!JSON}.

(** The final loop, whatever its completion, has emitted exactly the
    reported calls. *)
Lemma for_of_emit_tool_use_run toolCalls (r : Run.t OpenAIAdapter) :
  ∃ c,
    for_of toolCalls openai_emit_tool_use r
    = (c, Run.mk (Run.self r)
            (Run.emitted r
               ++ map tool_use
                    (reported_calls (toolNameMap (Run.self r)) toolCalls)))
    ∧ c ≠ Unsettled ∧ c ≠ Threw nullish.
Proof.
  revert r. induction toolCalls as [| toolCall rest IH]; intros [this es]; simpl.
  - eexists. unfold ret. by rewrite app_nil_r.
  - destruct toolCall as [toolCall |]; simpl.
    + unfold bind at 1. unfold bind at 1. unfold get at 1. simpl.
      unfold bind at 1. unfold sync at 1.
      destruct (JSON_parse _) as [e | input]; simpl.
      * eexists. by rewrite app_nil_r.
      * edestruct IH as (c & -> & Hc). eexists. simpl.
        by rewrite <- app_assoc.
    + eexists. unfold bind, throw. by rewrite app_nil_r.
Qed.

(** The [tool_use] events of a whole call. *)
Lemma OpenAIAdapter_tool_uses messages tools systemPrompt this :
  tool_uses (events_of (call (sendMessage messages tools systemPrompt) this))
  = match openai_client this (openai_request this messages tools systemPrompt) with
    | Returned stream =>
        match OpenAI.Stream.failure stream with
        | None =>
            reported_calls (with_tool_names tools ∅)
              (Array_elements (openai_toolCalls (OpenAI.Stream.chunks stream)))
        | Some _ => []
        end
    | _ => []
    end.
Proof.
  unfold events_of, call, sendMessage, OpenAIAdapter_AIAdapter, try_catch.
  pose proof (OpenAIAdapter_try_run messages tools systemPrompt this) as Hrun.
  unfold call in Hrun. rewrite Hrun. clear Hrun. simpl.
  destruct (openai_client _ _) as [stream | [e |] |]; [| done | done | done].
  destruct (openai_chunks_toolCalls (OpenAI.Stream.chunks stream)
              (Run.mk (rebuilt this tools) [message_start]))
    as (acc & updates & -> & Hupdates).
  assert (Hnone : tool_uses updates = []).
  { apply tool_uses_none. eapply Forall_impl; [exact Hupdates |]. by intros []. }
  destruct (OpenAI.Stream.failure stream) as [[e |] |].
  { simpl. rewrite tool_uses_app, Hnone. done. }
  { simpl. exact Hnone. }
  simpl. case_bool_decide as Hlen.
  - destruct (for_of_emit_tool_use_run
                (Array_elements (openai_toolCalls (OpenAI.Stream.chunks stream)))
                (Run.mk (rebuilt this tools) (message_start :: updates)))
      as (c & -> & Hsettled).
    destruct c as [[] | [e |] |]; simpl;
      rewrite !tool_uses_app, ?tool_uses_app, Hnone, tool_uses_map_tool_use;
      simpl; by rewrite ?app_nil_r.
  - rewrite onEvent_run. simpl. rewrite tool_uses_app, Hnone.
    destruct (Array_elements _); [done | simpl in Hlen; lia].
Qed.

End ToolNames.

Section ToolNameRoundTrip.
Context `{!JSON}.

Lemma reported_calls_lookup names toolCalls k tc :
  reported_calls names toolCalls !! k = Some tc →
  ∃ c, toolCalls !! k = Some (Some c)
       ∧ ToolCall.id tc = Accumulated.id c
       ∧ ToolCall.name tc
         = or_default (names !! FunctionCall.name (Accumulated.function c))
             (FunctionCall.name (Accumulated.function c)).
Proof.
  revert k. induction toolCalls as [| [c |] rest IH]; intros k; simpl; try done.
  destruct (JSON_parse _) as [e | input]; [done |].
  destruct k as [| k]; simpl.
  - intros [= <-]. exists c. done.
  - apply IH.
Qed.

(** What a lookup in the rebuilt map returns for the rewritten form of a
    tool that shares it with no differently named tool. *)
Lemma with_tool_names_own tools (t : AITool.t) :
  t ∈ tools →
  (∀ u, u ∈ tools →
        normalizeToolName (AITool.name u) = normalizeToolName (AITool.name t) →
        AITool.name u = AITool.name t) →
  with_tool_names tools ∅ !! normalizeToolName (AITool.name t)
  = Some (AITool.name t).
Proof.
  intros Hin Hown. rewrite with_tool_names_lookup.
  destruct (last _) as [u |] eqn:El.
  - apply last_Some_elem_of, list_elem_of_filter in El as [Hn Hu].
    by rewrite (Hown u Hu Hn).
  - apply last_None in El.
    assert (t ∈ filter (λ t0, normalizeToolName (AITool.name t0)
                              = normalizeToolName (AITool.name t)) tools)
      as Ht by (by apply list_elem_of_filter).
    rewrite El in Ht. by apply elem_of_nil in Ht.
Qed.

Lemma with_tool_names_Some tools n original :
  with_tool_names tools ∅ !! n = Some original →
  ∃ u, u ∈ tools ∧ normalizeToolName (AITool.name u) = n
       ∧ AITool.name u = original.
Proof.
  rewrite with_tool_names_lookup.
  destruct (last _) as [u |] eqn:El; [| done].
  apply last_Some_elem_of, list_elem_of_filter in El as [Hn Hu].
  intros [= <-]. eauto.
Qed.

Lemma OpenAIAdapter_sendMessage_fresh messages tools systemPrompt this names :
  call (sendMessage messages tools systemPrompt) (holding names this)
  = call (sendMessage messages tools systemPrompt) this.
Proof.
  unfold call, sendMessage, OpenAIAdapter_AIAdapter, try_catch.
  pose proof (OpenAIAdapter_try_run messages tools systemPrompt this) as H1.
  pose proof (OpenAIAdapter_try_run messages tools systemPrompt
                (holding names this)) as H2.
  unfold call in H1, H2. rewrite H1, H2. by destruct this.
Qed.

Lemma OpenAIAdapter_sendMessage_rebuilds messages tools systemPrompt this :
  Run.self (call (sendMessage messages tools systemPrompt) this).2
  = rebuilt this tools.
Proof.
  unfold call, sendMessage, OpenAIAdapter_AIAdapter, try_catch.
  pose proof (OpenAIAdapter_try_run messages tools systemPrompt this) as Hrun.
  unfold call in Hrun. rewrite Hrun. clear Hrun. simpl.
  destruct (openai_client _ _) as [stream | [e |] |]; [| done | done | done].
  destruct (openai_chunks_toolCalls (OpenAI.Stream.chunks stream)
              (Run.mk (rebuilt this tools) [message_start]))
    as (acc & updates & -> & _).
  destruct (OpenAI.Stream.failure stream) as [[e |] |]; [done | done |].
  simpl. case_bool_decide.
  - destruct (for_of_emit_tool_use_run
                (Array_elements (openai_toolCalls (OpenAI.Stream.chunks stream)))
                (Run.mk (rebuilt this tools) (message_start :: updates)))
      as (c & -> & Hsettled).
    by destruct c as [[] | [e |] |].
  - done.
Qed.

End ToolNameRoundTrip.

(** C3, as amended.  In the OpenAI adapter, the one that rewrites tool
    names, take a tool of the catalog whose name contains a dot and whose
    rewritten form no differently named tool of the catalog shares.  Then
    during [sendMessage]: no [tool_use] event carries the rewritten form;
    the event for a call the provider addressed to the rewritten form
    carries the original name; the map left behind is the one of this
    call's catalog, and neither it nor the events depend on what the map
    held before the call. *)
Theorem tool_name_round_trip `{!JSON} (this : OpenAIAdapter)
    (messages : list AIMessage.t) (tools : list AITool.t) (systemPrompt : string)
    (t : AITool.t) :
  t ∈ tools →
  contains_dot (AITool.name t) = true →
  (∀ u, u ∈ tools →
        normalizeToolName (AITool.name u) = normalizeToolName (AITool.name t) →
        AITool.name u = AITool.name t) →
  let r := call (sendMessage messages tools systemPrompt) this in
  (∀ tc, tc ∈ tool_uses (events_of r) →
         ToolCall.name tc ≠ normalizeToolName (AITool.name t))
  ∧ (∀ stream k tc,
       openai_client this (openai_request this messages tools systemPrompt)
       = Returned stream →
       tool_uses (events_of r) !! k = Some tc →
       ∃ c, openai_toolCalls (OpenAI.Stream.chunks stream) !! k = Some (Some c)
            ∧ ToolCall.id tc = Accumulated.id c
            ∧ (FunctionCall.name (Accumulated.function c)
               = normalizeToolName (AITool.name t) →
               ToolCall.name tc = AITool.name t))
  ∧ toolNameMap (Run.self r.2) = with_tool_names tools ∅
  ∧ (∀ names,
       call (sendMessage messages tools systemPrompt) (holding names this) = r).
Proof.
  intros Hin Hdot Hown r. subst r.
  pose proof (with_tool_names_own tools t Hin Hown) as Hlookup.
  pose proof (contains_dot_truthy _ Hdot) as Htruthy.
  split; [| split; [| split]].
  - intros tc Htc. rewrite OpenAIAdapter_tool_uses in Htc.
    destruct (openai_client _ _) as [stream | |]; try by apply elem_of_nil in Htc.
    destruct (OpenAI.Stream.failure stream); [by apply elem_of_nil in Htc |].
    apply list_elem_of_lookup in Htc as [k Hk].
    apply reported_calls_lookup in Hk as (c & _ & _ & ->).
    set (n := FunctionCall.name (Accumulated.function c)).
    destruct (with_tool_names tools ∅ !! n) as [original |] eqn:Hn; simpl.
    + apply with_tool_names_Some in Hn as (u & Hu & Hnu & <-).
      destruct (truthy (AITool.name u)) eqn:Hut.
      * intros Heq. apply (replace_dots_changes _ Hdot).
        assert (AITool.name u = AITool.name t) as Hsame.
        { apply Hown; [done |]. rewrite Heq. apply replace_dots_idempotent. }
        unfold normalizeToolName in Heq. congruence.
      * intros Heq. destruct (AITool.name u); [| done].
        simpl in Hnu. rewrite <- Hnu in Heq.
        unfold normalizeToolName in Heq.
        pose proof (replace_dots_truthy (AITool.name t)) as Ht.
        rewrite <- Heq, Htruthy in Ht. done.
    + intros Heq. rewrite Heq, Hlookup in Hn. done.
  - intros stream k tc Hstream Hk. rewrite OpenAIAdapter_tool_uses, Hstream in Hk.
    destruct (OpenAI.Stream.failure stream); [done |].
    apply reported_calls_lookup in Hk as (c & Hc & Hid & Hname).
    apply Array_elements_lookup in Hc.
    exists c. split; [done |]. split; [done |].
    intros Hn. rewrite Hname, Hn, Hlookup. simpl. by rewrite Htruthy.
  - by rewrite OpenAIAdapter_sendMessage_rebuilds.
  - intros names. apply OpenAIAdapter_sendMessage_fresh.
Qed.

Example round_trip_run :
  tool_uses
    (events_of
       (call (@sendMessage _ (@OpenAIAdapter_AIAdapter example_JSON)
                example_prompt [example_tool "a.b.c"] "")
          (example_OpenAI [example_call_chunk 0 "call_1" "a_b_c" "{}"])))
  = [ToolCall.mk "call_1" "a.b.c" (JObject [])].
Proof. vm_compute. reflexivity. Qed.

Lemma tool_name_round_trip_witness :
  let this := example_OpenAI [example_call_chunk 0 "call_1" "a_b_c" "{}"] in
  let tools := [example_tool "a.b.c"] in
  let r :=
    call (@sendMessage _ (@OpenAIAdapter_AIAdapter example_JSON)
            example_prompt tools "") this in
  (∀ tc, tc ∈ tool_uses (events_of r) → ToolCall.name tc ≠ "a_b_c")
  ∧ (∀ stream k tc,
       openai_client this (openai_request this example_prompt tools "")
       = Returned stream →
       tool_uses (events_of r) !! k = Some tc →
       ∃ c, openai_toolCalls (OpenAI.Stream.chunks stream) !! k = Some (Some c)
            ∧ ToolCall.id tc = Accumulated.id c
            ∧ (FunctionCall.name (Accumulated.function c) = "a_b_c" →
               ToolCall.name tc = "a.b.c"))
  ∧ toolNameMap (Run.self r.2) = with_tool_names tools ∅
  ∧ (∀ names,
       call (@sendMessage _ (@OpenAIAdapter_AIAdapter example_JSON)
               example_prompt tools "") (holding names this) = r).
Proof.
  apply (@tool_name_round_trip example_JSON
           (example_OpenAI [example_call_chunk 0 "call_1" "a_b_c" "{}"])
           example_prompt [example_tool "a.b.c"] "" (example_tool "a.b.c")).
  - apply list_elem_of_here.
  - reflexivity.
  - intros u Hu _. apply list_elem_of_singleton in Hu. by subst u.
Defined.

Example collision_run :
  tool_uses
    (events_of
       (call (@sendMessage _ (@OpenAIAdapter_AIAdapter example_JSON)
                example_prompt [example_tool "a.b"; example_tool "a_b"] "")
          (example_OpenAI [example_call_chunk 0 "call_1" "a_b" "{}"])))
  = [ToolCall.mk "call_1" "a_b" (JObject [])].
Proof. vm_compute. reflexivity. Qed.

(** C3 as the specification states it fails: with the tools ["a.b"] and
    ["a_b"] in one catalog both are declared to the provider as ["a_b"], the
    map keeps the entry written last, and the event for a call to ["a_b"]
    carries ["a_b"], the rewritten form of the registered tool ["a.b"]. *)
Lemma tool_name_round_trip_counterexample :
  ¬ (∀ (J : JSON) (this : OpenAIAdapter) (messages : list AIMessage.t)
       (tools : list AITool.t) (systemPrompt : string) (t : AITool.t)
       (tc : ToolCall.t),
       t ∈ tools →
       contains_dot (AITool.name t) = true →
       tc ∈ tool_uses
              (events_of (call (sendMessage messages tools systemPrompt) this)) →
       ToolCall.name tc ≠ normalizeToolName (AITool.name t)).
Proof.
  intros Hclaim.
  apply (Hclaim example_JSON
           (example_OpenAI [example_call_chunk 0 "call_1" "a_b" "{}"])
           example_prompt [example_tool "a.b"; example_tool "a_b"] ""
           (example_tool "a.b") (ToolCall.mk "call_1" "a_b" (JObject []))).
  - apply list_elem_of_here.
  - reflexivity.
  - rewrite collision_run. apply list_elem_of_here.
  - reflexivity.
Qed.

(** ** The Anthropic request *)

(** Every message keeps its role in the request; nothing else of it but
    its text is passed on. *)
Lemma anthropic_message_role m :
  Anthropic.MessageParam.role (anthropic_message m) = AIMessage.role m.
Proof. reflexivity. Qed.

(** C9 fails on the code.  [AnthropicAdapter.sendMessage] passes every
    message of the history to the client with the role it has: the roles
    of the request are those of the history, in order, and that request
    is what the client is called with.  For a history that holds a tool
    result the request carries that message with the role [tool]; neither
    the call id of the result nor the calls of the assistant message are
    in the request. *)
Theorem anthropic_request_keeps_tool_role :
  (∀ (this : AnthropicAdapter) (messages : list AIMessage.t)
     (tools : list AITool.t) (systemPrompt : string),
     let request := anthropic_request messages tools systemPrompt in
     Anthropic.MessageParam.role <$> Anthropic.Request.messages request
     = AIMessage.role <$> messages
     ∧ (call (AnthropicAdapter_try messages tools systemPrompt) this).1
       = match anthropic_client this request with
         | Returned _ => Returned tt
         | Threw e => Threw e
         | Unsettled => Unsettled
         end)
  ∧ Anthropic.Request.messages (anthropic_request example_history [] "")
    = [Anthropic.MessageParam.mk user "list files";
       Anthropic.MessageParam.mk assistant "";
       Anthropic.MessageParam.mk tool "a.txt b.txt"].
Proof.
  split; [| reflexivity].
  intros this messages tools systemPrompt request. split.
  - subst request. simpl. rewrite <- list_fmap_compose.
    apply list_fmap_ext. intros i m _. apply anthropic_message_role.
  - rewrite AnthropicAdapter_try_run. fold request.
    destruct (anthropic_client this request) as [response | e |]; try done.
    by destruct (fold_left _ _ _).
Qed.

(** ** The registry: dispatch of one call *)

Section RegistryTheorems.
Context `{!JSON} `{!PermissionManager} `{!Browser}.
Context {A : Type} `{!AIAdapter A}.
Implicit Types w : ToolRegistry A.

Lemma executeTool_unregistered w toolCall :
  Map_get (ToolCall.name toolCall) (registeredTools w) = None →
  executeTool toolCall w
  = (Returned (text_result ("Unknown tool: " +:+ ToolCall.name toolCall)
                 (Some ("Unknown tool: " +:+ ToolCall.name toolCall))), w).
Proof.
  intros Hnone. unfold executeTool, bind, get. by rewrite Hnone.
Qed.

(** C7. A call whose name is not in the registry when it is dispatched
    gets the result with [error] set and the text ["Unknown tool: <name>"];
    the registry and the world are left as they were, so nothing was sent
    to any extension; and the loop over the buffered calls records the
    result (one [tool_result] event, one [tool] message) and goes on with
    the remaining calls. *)
Theorem executeTool_unknown_tool w (toolCall : ToolCall.t)
    (remaining : list ToolCall.t) :
  Map_get (ToolCall.name toolCall) (registeredTools w) = None →
  let unknown := "Unknown tool: " +:+ ToolCall.name toolCall in
  let result := ToolExecutionResponse.mk (Some [text_part unknown]) None (Some unknown) in
  executeTool toolCall w = (Returned result, w)
  ∧ for_of (toolCall :: remaining) run_tool_call w
    = for_of remaining run_tool_call
        (set_conversationHistory
           (λ h, h ++ [AIMessage.mk tool (Some unknown) None
                         (Some (ToolCall.id toolCall))])
           (set_trace (λ t, t ++ [caller_onEvent (tool_result toolCall result)]) w)).
Proof.
  intros Hnone unknown result.
  pose proof (executeTool_unregistered w toolCall Hnone) as Hrun.
  split; [exact Hrun |].
  simpl. unfold bind at 1. unfold run_tool_call at 1. unfold bind at 1.
  rewrite Hrun. reflexivity.
Qed.

(** ** The registry: permission responses *)

Lemma handlePermissionResponse_stale w response :
  pendingPermissionRequests w !! PermissionResponseMessage.requestId response = None →
  handlePermissionResponse response w
  = (Returned tt,
     set_trace (λ t, t ++ [console_warn "No pending permission request for:"
                             (PermissionResponseMessage.requestId response)]) w).
Proof.
  intros Hnone. unfold handlePermissionResponse, bind, get. by rewrite Hnone.
Qed.

Lemma handlePermissionResponse_run w response entry :
  pendingPermissionRequests w !! PermissionResponseMessage.requestId response
  = Some entry →
  handlePermissionResponse response w
  = (Returned tt,
     set_promises
       (settled_with (Pending.resolve entry)
          (Returned (PermissionResponseMessage.granted response)))
       (remember_decision response entry
          (set_pendingPermissionRequests
             (delete (PermissionResponseMessage.requestId response)) w))).
Proof.
  intros Hsome. unfold handlePermissionResponse. unfold bind at 1.
  unfold get at 1. rewrite Hsome. unfold remember_decision.
  destruct response as [requestId granted remember scope]. simpl.
  destruct granted, remember; simpl; unfold bind, get, modify, ret, settle;
    simpl; try reflexivity;
    destruct (storePermission _ _ _ _) as [[[] | e |] pm]; reflexivity.
Qed.

(** Storing a remembered decision touches the permission manager and the
    log only. *)
Lemma remember_decision_frame response entry w :
  let w' := remember_decision response entry w in
  pendingPermissionRequests w' = pendingPermissionRequests w
  ∧ promises w' = promises w
  ∧ next_promise w' = next_promise w
  ∧ conversationHistory w' = conversationHistory w
  ∧ registeredTools w' = registeredTools w
  ∧ clock w' = clock w
  ∧ ∃ errors, trace w' = trace w ++ errors
              ∧ Forall (λ e, ∃ text detail, e = console_error text detail) errors.
Proof.
  unfold remember_decision.
  destruct (PermissionResponseMessage.remember response).
  - destruct (storePermission _ _ _ _) as [[[] | e |] pm]; simpl;
      repeat split; try done;
      try (exists []; by rewrite app_nil_r).
    eexists [_]. split; [done |]. constructor; eauto.
  - simpl. repeat split; try done. exists []. by rewrite app_nil_r.
Qed.

Lemma handlePermissionResponse_pending w response entry :
  pendingPermissionRequests w !! PermissionResponseMessage.requestId response
  = Some entry →
  let w' := (handlePermissionResponse response w).2 in
  (handlePermissionResponse response w).1 = Returned tt
  ∧ pendingPermissionRequests w'
    = delete (PermissionResponseMessage.requestId response)
        (pendingPermissionRequests w)
  ∧ promises w'
    = settled_with (Pending.resolve entry)
        (Returned (PermissionResponseMessage.granted response)) (promises w)
  ∧ next_promise w' = next_promise w
  ∧ conversationHistory w' = conversationHistory w.
Proof.
  intros Hsome. rewrite (handlePermissionResponse_run _ _ _ Hsome). simpl.
  destruct (remember_decision_frame response entry
              (set_pendingPermissionRequests
                 (delete (PermissionResponseMessage.requestId response)) w))
    as (Hp & Hs & Hn & Hh & _).
  rewrite Hp, Hs, Hn, Hh. done.
Qed.

(** C8. The first response for a pending request removes its entry and
    fulfils the promise of the wait with the response's [granted]; a second
    response for the same [requestId] only logs a warning, and so does a
    response whose [requestId] is not pending in whatever state it
    arrives: the pending map, the promises and the permission store are
    not touched. *)
Theorem handlePermissionResponse_at_most_once w
    (first second : PermissionResponseMessage.t) (entry : Pending.t) :
  pendingPermissionRequests w !! PermissionResponseMessage.requestId first
  = Some entry →
  promises w !! Pending.resolve entry = None →
  PermissionResponseMessage.requestId second
  = PermissionResponseMessage.requestId first →
  let warning requestId :=
    set_trace (λ t, t ++ [console_warn "No pending permission request for:"
                            requestId]) in
  let w1 := (handlePermissionResponse first w).2 in
  (handlePermissionResponse first w).1 = Returned tt
  ∧ pendingPermissionRequests w1
    = delete (PermissionResponseMessage.requestId first)
        (pendingPermissionRequests w)
  ∧ promises w1
    = <[Pending.resolve entry :=
          Returned (PermissionResponseMessage.granted first)]> (promises w)
  ∧ handlePermissionResponse second w1
    = (Returned tt, warning (PermissionResponseMessage.requestId second) w1)
  ∧ (∀ w0 stale,
       pendingPermissionRequests w0 !! PermissionResponseMessage.requestId stale
       = None →
       handlePermissionResponse stale w0
       = (Returned tt, warning (PermissionResponseMessage.requestId stale) w0)).
Proof.
  intros Hentry Hwait Hsame warning w1.
  destruct (handlePermissionResponse_pending w first entry Hentry)
    as (Hret & Hpending & Hpromises & _).
  unfold settled_with in Hpromises. rewrite Hwait in Hpromises.
  repeat split; try done.
  - apply handlePermissionResponse_stale. subst w1.
    rewrite Hsame, Hpending. apply lookup_delete_eq.
  - intros w0 stale. apply handlePermissionResponse_stale.
Qed.

End RegistryTheorems.

(** ** The registry: what dispatching a call may touch *)

Section Framing.
Context `{!JSON} `{!PermissionManager} `{!Browser}.
Context {A : Type} `{!AIAdapter A}.
Implicit Types w : ToolRegistry A.
Implicit Types P : Effect → Prop.

Lemma steps_refl P w : steps P w w.
Proof. repeat split. exists []. by rewrite app_nil_r. Qed.

Lemma steps_trans P w1 w2 w3 : steps P w1 w2 → steps P w2 w3 → steps P w1 w3.
Proof.
  intros (Hh1 & Hr1 & Ha1 & Hp1 & es1 & Ht1 & HP1)
         (Hh2 & Hr2 & Ha2 & Hp2 & es2 & Ht2 & HP2).
  repeat split; try congruence.
  exists (es1 ++ es2). rewrite Ht2, Ht1, app_assoc.
  split; [done | by apply Forall_app].
Qed.

Lemma steps_weaken P Q w w' : (∀ e, P e → Q e) → steps P w w' → steps Q w w'.
Proof.
  intros HPQ (Hh & Hr & Ha & Hp & es & Ht & HP). repeat split; try done.
  exists es. split; [done |]. eapply Forall_impl; eauto.
Qed.

Lemma frames_ret {R} P (x : R) : frames (A := A) P (ret x).
Proof. intros w. apply steps_refl. Qed.

Lemma frames_throw {R} P e : frames (A := A) (R := R) P (throw e).
Proof. intros w. apply steps_refl. Qed.

Lemma frames_await {R} P (c : Completion R) : frames (A := A) P (await c).
Proof. intros w. apply steps_refl. Qed.

Lemma frames_get P : frames (A := A) P get.
Proof. intros w. apply steps_refl. Qed.

Lemma frames_bind {R R'} P (m : M (ToolRegistry A) R) (k : R → M (ToolRegistry A) R') :
  frames P m → (∀ x, frames P (k x)) → frames P (bind m k).
Proof.
  intros Hm Hk w. unfold bind. specialize (Hm w).
  destruct (m w) as [[x | e |] w1]; simpl in *; [| done | done].
  eapply steps_trans; [exact Hm | apply Hk].
Qed.

Lemma frames_try_catch {R} P (m : M (ToolRegistry A) R) h :
  frames P m → (∀ e, frames P (h e)) → frames P (try_catch m h).
Proof.
  intros Hm Hh w. unfold try_catch. specialize (Hm w).
  destruct (m w) as [[x | e |] w1]; simpl in *; [done | | done].
  eapply steps_trans; [exact Hm | apply Hh].
Qed.

Lemma frames_for_of {X} P (xs : list X) (body : X → M (ToolRegistry A) unit) :
  (∀ x, frames P (body x)) → frames P (for_of xs body).
Proof.
  intros Hbody. induction xs as [| x xs IH]; simpl.
  - apply frames_ret.
  - apply frames_bind; auto.
Qed.

Lemma frames_effect P e : P e → frames (A := A) P (effect e).
Proof.
  intros He w. repeat split. exists [e]. split; [done |]. by constructor.
Qed.

Lemma frames_tick P : frames (A := A) P tick.
Proof. intros w. repeat split. exists []. simpl. by rewrite app_nil_r. Qed.

Lemma frames_set_pendingPermissionRequests P f :
  frames (A := A) P (modify (set_pendingPermissionRequests f)).
Proof. intros w. repeat split. exists []. simpl. by rewrite app_nil_r. Qed.

Lemma frames_set_permissionManager P f :
  frames (A := A) P (modify (set_permissionManager f)).
Proof. intros w. repeat split. exists []. simpl. by rewrite app_nil_r. Qed.

Lemma frames_set_next_promise P f :
  frames (A := A) P (modify (set_next_promise f)).
Proof. intros w. repeat split. exists []. simpl. by rewrite app_nil_r. Qed.

Lemma frames_settle P p c : frames (A := A) P (settle p c).
Proof. intros w. repeat split. exists []. simpl. by rewrite app_nil_r. Qed.

Lemma frames_weaken {R} P Q (m : M (ToolRegistry A) R) :
  (∀ e, P e → Q e) → frames P m → frames Q m.
Proof. intros HPQ Hm w. eapply steps_weaken; eauto. Qed.

Create HintDb frames.
#[local] Hint Resolve frames_ret frames_throw frames_await frames_get
  frames_tick frames_set_pendingPermissionRequests
  frames_set_permissionManager frames_set_next_promise frames_settle : frames.

Ltac frames_leaf :=
  first [ apply frames_effect; solve [simpl; eauto] | solve [eauto with frames] ].

Ltac frames_step :=
  first [ apply frames_bind; [frames_leaf | intros ?] | frames_leaf ].

Lemma getToolContext_frames toolName : frames (A := A) housekeeping (getToolContext toolName).
Proof.
  unfold getToolContext. frames_step.
  destruct (negb _); [frames_step |].
  apply frames_bind; [| intros [context |]; frames_step].
  apply frames_try_catch; [| intros [e |]; repeat frames_step].
  apply frames_bind; [frames_leaf | intros now].
  apply frames_bind; [frames_leaf | intros [| tab tabs]]; frames_step.
Qed.

Lemma handlePermissionResponse_frames response :
  frames (A := A) housekeeping (handlePermissionResponse response).
Proof.
  unfold handlePermissionResponse. frames_step.
  destruct (_ !! _) as [entry |]; [| frames_step].
  frames_step.
  apply frames_bind; [| intros _; frames_step].
  assert (∀ decision,
    frames (A := A) housekeeping
      (bind get (λ w0 : ToolRegistry A,
         let '(stored, pm) :=
           storePermission (permissionManager w0) (Pending.toolName entry)
             decision
             (if decide (PermissionResponseMessage.scope response = Some "domain")
              then Pending.domain entry else None) in
         bind (modify (set_permissionManager (λ _, pm)))
           (λ _, match stored with
                 | Threw error_ =>
                     effect (console_error "Failed to store permission:"
                               (logged error_))
                 | _ => ret tt
                 end)))) as Hstore.
  { intros decision. frames_step.
    destruct (storePermission _ _ _ _) as [stored pm].
    frames_step. destruct stored; frames_step. }
  destruct (_ && _); [apply Hstore |].
  destruct (_ && _); [apply Hstore | frames_step].
Qed.

Lemma permission_timeout_frames requestId reject :
  frames (A := A) housekeeping (permission_timeout requestId reject).
Proof.
  unfold permission_timeout. frames_step.
  destruct (_ !! _); repeat frames_step.
Qed.

Lemma await_promise_frames promise tasks :
  frames (A := A) housekeeping (await_promise promise tasks).
Proof.
  induction tasks as [| task tasks IH]; simpl.
  - frames_step. destruct (_ !! _); frames_step.
  - frames_step. destruct (_ !! _); [frames_step |].
    apply frames_bind; [| intros _; exact IH].
    destruct task; [apply handlePermissionResponse_frames
                   | apply permission_timeout_frames].
Qed.

Lemma requestPermissionFromUser_frames toolCall descriptor context :
  frames (A := A) housekeeping (requestPermissionFromUser toolCall descriptor context).
Proof.
  unfold requestPermissionFromUser. do 2 frames_step.
  apply frames_bind; [apply frames_for_of; intros port; frames_step | intros _].
  do 2 frames_step. apply await_promise_frames.
Qed.

Lemma housekeeping_dispatch_of toolCall e : housekeeping e → dispatch_of toolCall e.
Proof. by destruct e. Qed.

Lemma executeTool_frames toolCall : frames (A := A) (dispatch_of toolCall) (executeTool toolCall).
Proof.
  unfold executeTool. frames_step.
  destruct (Map_get _ _) as [registration |]; [| frames_step].
  apply frames_bind; [| intros context].
  { eapply frames_weaken; [apply housekeeping_dispatch_of
                          | apply getToolContext_frames]. }
  do 2 frames_step. destruct (_ && _); [frames_step |].
  apply frames_bind; [| intros granted].
  { destruct (PermissionCheck.requiresPrompt _); [| frames_step].
    eapply frames_weaken; [apply housekeeping_dispatch_of
                          | apply requestPermissionFromUser_frames]. }
  destruct (negb granted); [frames_step |].
  apply frames_try_catch; [| intros [e |]; repeat frames_step].
  apply frames_bind; [frames_leaf | intros now].
  apply frames_bind; [frames_leaf | intros _].
  apply frames_bind; [frames_leaf | intros [response |]]; [| frames_step].
  destruct (truthy_opt _); frames_step.
Qed.

End Framing.

(** ** The registry: one turn of the loop *)

Section Turn.
Context `{!JSON} `{!PermissionManager} `{!Browser}.
Context {A : Type} `{!AIAdapter A}.
Implicit Types w : ToolRegistry A.

Lemma run_tool_call_run toolCall w :
  run_tool_call toolCall w
  = match executeTool toolCall w with
    | (Returned result, w1) =>
        (Returned tt,
         set_conversationHistory (λ h, h ++ [tool_message toolCall result])
           (set_trace (λ t, t ++ [caller_onEvent (tool_result toolCall result)])
              w1))
    | (Threw e, w1) => (Threw e, w1)
    | (Unsettled, w1) => (Unsettled, w1)
    end.
Proof.
  unfold run_tool_call. unfold bind at 1.
  destruct (executeTool toolCall w) as [[result | e |] w1]; reflexivity.
Qed.

(** The loop over the buffered calls, whatever its completion: one [tool]
    message per call that got a result, in the order of the calls, and
    effects segmented call by call. *)
Lemma for_of_run_tool_call calls w :
  let r := for_of calls run_tool_call w in
  ∃ results effects,
    conversationHistory r.2
    = conversationHistory w ++ zip_with tool_message calls results
    ∧ trace r.2 = trace w ++ effects
    ∧ call_segments calls results effects
    ∧ (r.1 = Returned tt → length results = length calls)
    ∧ registeredTools r.2 = registeredTools w
    ∧ adapter r.2 = adapter w.
Proof.
  revert w. induction calls as [| toolCall rest IH]; intros w; simpl.
  - exists [], []. rewrite !app_nil_r. repeat split; constructor.
  - unfold bind. rewrite run_tool_call_run.
    destruct (executeTool_frames toolCall w)
      as (Hh & Hr & Ha & _ & effects & Ht & HP).
    destruct (executeTool toolCall w) as [[result | e |] w1]; simpl in *.
    + destruct (IH (set_conversationHistory (λ h, h ++ [tool_message toolCall result])
                      (set_trace
                         (λ t, t ++ [caller_onEvent (tool_result toolCall result)])
                         w1)))
        as (results & effects' & Hh' & Ht' & Hseg & Hlen & Hr' & Ha').
      simpl in *.
      exists (result :: results),
             (effects ++ caller_onEvent (tool_result toolCall result) :: effects').
      rewrite Hh', Ht', Hh, Ht, Hr', Ha', <- !app_assoc. simpl.
      repeat split; try done.
      * by constructor.
      * intros Hret. by rewrite (Hlen Hret).
    + exists [], effects. rewrite Hh, Ht, app_nil_r.
      repeat split; try done. by constructor.
    + exists [], effects. rewrite Hh, Ht, app_nil_r.
      repeat split; try done. by constructor.
Qed.

Lemma run_tool_calls_run calls w :
  let r := run_tool_calls calls w in
  ∃ results effects,
    conversationHistory r.2
    = conversationHistory w
      ++ tool_calls_message calls :: zip_with tool_message calls results
    ∧ trace r.2 = trace w ++ effects
    ∧ call_segments calls results effects
    ∧ (r.1 = Returned tt → length results = length calls)
    ∧ registeredTools r.2 = registeredTools w
    ∧ adapter r.2 = adapter w.
Proof.
  assert (Hrun : run_tool_calls calls w
                 = for_of calls run_tool_call
                     (set_conversationHistory
                        (λ h, h ++ [tool_calls_message calls]) w))
    by reflexivity.
  rewrite Hrun. clear Hrun.
  destruct (for_of_run_tool_call calls
              (set_conversationHistory (λ h, h ++ [tool_calls_message calls]) w))
    as (results & effects & Hh & Ht & Hseg & Hlen & Hr & Ha).
  exists results, effects. cbv zeta. rewrite Hh, Ht. simpl.
  rewrite <- app_assoc. done.
Qed.

(** The callback on a whole event sequence: every event is handed on to
    the caller as it is, every [tool_use] is buffered, and every
    [message_complete] is recorded in the history. *)
Lemma executePrompt_onEvents_run pendingToolCalls events w :
  executePrompt_onEvents pendingToolCalls events w
  = (Returned (pendingToolCalls ++ tool_uses events),
     set_conversationHistory (λ h, h ++ completions events)
       (set_trace (λ t, t ++ map caller_onEvent events) w)).
Proof.
  revert pendingToolCalls w.
  induction events as [| event events IH]; intros pendingToolCalls w; simpl.
  - unfold ret. rewrite app_nil_r. destruct w. simpl.
    unfold set_conversationHistory, set_trace. simpl. by rewrite !app_nil_r.
  - unfold bind at 1.
    destruct event; simpl; unfold bind, effect, push_history, modify, ret;
      simpl; rewrite IH; destruct w; unfold set_conversationHistory, set_trace;
      simpl; rewrite <- ?app_assoc; reflexivity.
Qed.

End Turn.

(** ** No adapter of the repository reports both outcomes *)

Lemma completions_app es1 es2 :
  completions (es1 ++ es2) = completions es1 ++ completions es2.
Proof. apply omap_app. Qed.

Lemma completions_none es :
  Forall (λ e, is_message_complete e = false) es → completions es = [].
Proof.
  induction 1 as [| e es He _ IH]; [done |].
  destruct e; try discriminate; exact IH.
Qed.

Lemma completions_updates es :
  Forall (λ e, is_message_update e = true) es → completions es = [].
Proof.
  intros Hes. apply completions_none.
  eapply Forall_impl; [exact Hes |]. by intros [].
Qed.

Lemma completions_map_tool_use tcs : completions (map tool_use tcs) = [].
Proof. by induction tcs. Qed.

Lemma tool_uses_updates es :
  Forall (λ e, is_message_update e = true) es → tool_uses es = [].
Proof.
  intros Hes. apply tool_uses_none.
  eapply Forall_impl; [exact Hes |]. by intros [].
Qed.

Section Exclusive.
Context `{!JSON}.

(** A turn of one of the three adapters with a [tool_use] event has no
    [message_complete] event, however the call ends. *)
Lemma Adapter_events_exclusive (this : Adapter) messages tools systemPrompt :
  let es := events_of (call (sendMessage messages tools systemPrompt) this) in
  tool_uses es ≠ [] → completions es = [].
Proof.
  unfold events_of, call. simpl. unfold lift_run.
  destruct this as [a | a | a]; simpl; unfold try_catch.
  - pose proof (AnthropicAdapter_try_run messages tools systemPrompt a) as Hrun.
    unfold call in Hrun. rewrite Hrun. clear Hrun. simpl.
    destruct (anthropic_client _ _) as [response | [e |] |]; simpl; try done.
    destruct (fold_left _ _ _) as [textContent toolCalls]. simpl.
    case_bool_decide as Hlen.
    + intros _. destruct (truthy textContent); simpl;
        apply completions_map_tool_use.
    + intros Hcalls. exfalso. apply Hcalls.
      destruct (truthy textContent); reflexivity.
  - pose proof (OpenAIAdapter_try_run messages tools systemPrompt a) as Hrun.
    unfold call in Hrun. rewrite Hrun. clear Hrun. simpl.
    destruct (openai_client _ _) as [stream | [e |] |]; simpl; try done.
    destruct (openai_chunks_toolCalls (OpenAI.Stream.chunks stream)
                (Run.mk (rebuilt a tools) [message_start]))
      as (acc & updates & -> & Hupdates).
    pose proof (completions_updates _ Hupdates) as Hc.
    pose proof (tool_uses_updates _ Hupdates) as Ht.
    destruct (OpenAI.Stream.failure stream) as [[e |] |]; simpl.
    { rewrite completions_app, Hc. done. }
    { done. }
    case_bool_decide as Hlen.
    + destruct (for_of_emit_tool_use_run
                  (Array_elements (openai_toolCalls (OpenAI.Stream.chunks stream)))
                  (Run.mk (rebuilt a tools) (message_start :: updates)))
        as (c & -> & Hsettled).
      intros _. destruct c as [[] | [e |] |]; simpl;
        rewrite !completions_app, Hc, completions_map_tool_use; done.
    + rewrite onEvent_run. simpl. rewrite tool_uses_app, Ht. done.
  - pose proof (GoogleAdapter_try_run messages tools systemPrompt a) as Hrun.
    unfold call in Hrun. rewrite Hrun. clear Hrun. simpl.
    destruct (google_client _ _ _) as [e | model]; simpl; try done.
    destruct (messages !! _) as [lastMessage |]; simpl; try done.
    destruct (model _ _) as [text | [e |] |]; simpl; done.
Qed.

End Exclusive.

Section Settles.
Context `{!JSON}.

(** A call of one of the three adapters that reported a [tool_use] has
    returned: it can stay pending only on the provider's answer, which
    comes before any such event. *)
Lemma Adapter_tool_use_Returned (this : Adapter) messages tools systemPrompt :
  let r := call (sendMessage messages tools systemPrompt) this in
  tool_uses (events_of r) ≠ [] → r.1 = Returned tt.
Proof.
  unfold events_of, call. simpl. unfold lift_run.
  destruct this as [a | a | a]; simpl; unfold try_catch.
  - pose proof (AnthropicAdapter_try_run messages tools systemPrompt a) as Hrun.
    unfold call in Hrun. rewrite Hrun. clear Hrun. simpl.
    destruct (anthropic_client _ _) as [response | [e |] |]; simpl; try done.
    by destruct (fold_left _ _ _) as [textContent toolCalls].
  - pose proof (OpenAIAdapter_try_run messages tools systemPrompt a) as Hrun.
    unfold call in Hrun. rewrite Hrun. clear Hrun. simpl.
    destruct (openai_client _ _) as [stream | [e |] |]; simpl; try done.
    destruct (openai_chunks_toolCalls (OpenAI.Stream.chunks stream)
                (Run.mk (rebuilt a tools) [message_start]))
      as (acc & updates & -> & Hupdates).
    destruct (OpenAI.Stream.failure stream) as [[e |] |]; simpl; [done | |].
    { intros Hcalls. exfalso. apply Hcalls.
      exact (tool_uses_updates _ Hupdates). }
    case_bool_decide as Hlen.
    + destruct (for_of_emit_tool_use_run
                  (Array_elements (openai_toolCalls (OpenAI.Stream.chunks stream)))
                  (Run.mk (rebuilt a tools) (message_start :: updates)))
        as (c & -> & Hsettled).
      destruct Hsettled as [Hsettled Hobject].
      by destruct c as [[] | [e |] |].
    + by rewrite onEvent_run.
  - pose proof (GoogleAdapter_try_run messages tools systemPrompt a) as Hrun.
    unfold call in Hrun. rewrite Hrun. clear Hrun. simpl.
    destruct (google_client _ _ _) as [e | model]; simpl; try done.
    destruct (messages !! _) as [lastMessage |]; simpl; try done.
    destruct (model _ _) as [text | [e |] |]; simpl; done.
Qed.

End Settles.

Section AdapterCall.
Context `{!JSON} `{!PermissionManager} `{!Browser}.
Context {A : Type} `{!AIAdapter A}.
Implicit Types w : ToolRegistry A.

Lemma call_adapter_run (this : A) tools w :
  let r := call (sendMessage (conversationHistory w) tools systemPrompt) this in
  call_adapter this tools w
  = (match r.1 with
     | Returned _ => Returned (tool_uses (events_of r))
     | Threw e => Threw e
     | Unsettled => Unsettled
     end,
     set_conversationHistory (λ h, h ++ completions (events_of r))
       (set_trace (λ t, t ++ map caller_onEvent (events_of r))
          (set_adapter (λ _, Some (Run.self r.2)) w))).
Proof.
  unfold call_adapter, events_of. unfold bind at 1. unfold get at 1.
  destruct (call _ this) as [completion run]. simpl.
  unfold bind at 1. unfold modify at 1.
  unfold bind at 1. rewrite executePrompt_onEvents_run. simpl.
  unfold bind, await, ret. destruct completion; reflexivity.
Qed.

End AdapterCall.



(** ** A permission prompt nobody answers *)

(** C1 fails on the code.  With a permission check that asks for a prompt
    and no response within the 60 seconds, the pending entry is removed,
    but the wait is rejected, not resolved as a denial: [executeTool] has
    no result for the call, the rejection passes through the loop over the
    buffered calls and through [executePrompt], no [tool_result] event is
    handed to the caller, the second buffered call is never dispatched,
    and the port listener ends the prompt with [AGENT_ERROR]. *)
Theorem permission_timeout_rejects :
  (unanswered_call example_click).1 = Threw (Error "Permission request timeout")
  ∧ pendingPermissionRequests (unanswered_call example_click).2 = ∅
  ∧ unanswered_prompt.1 = Threw (Error "Permission request timeout")
  ∧ pendingPermissionRequests unanswered_prompt.2 = ∅
  ∧ forwarded (trace unanswered_prompt.2)
    = [message_start; tool_use example_click; tool_use example_list]
  ∧ dispatched (trace unanswered_prompt.2) = []
  ∧ last (trace unanswered_stream.2)
    = Some (port_AGENT_ERROR 1 "Permission request timeout").
Proof. vm_compute. repeat split. Qed.

(** C6 fails on the code, by the same rejection: the turn has buffered two
    calls and recorded the one assistant message that bears them, with
    [content] absent, but no [tool] message follows it. *)
Theorem permission_timeout_leaves_calls_unanswered :
  tool_uses (forwarded (trace unanswered_prompt.2)) = [example_click; example_list]
  ∧ conversationHistory unanswered_prompt.2
    = [AIMessage.mk user (Some "click, then list") None None;
       AIMessage.mk assistant None
         (Some [ToolCallRef.mk "call_1" "function" (FunctionCall.mk "nav_click" "{}");
                ToolCallRef.mk "call_2" "function" (FunctionCall.mk "fs_list" "{}")])
         None].
Proof. vm_compute. repeat split. Qed.

(** ** The properties at work *)

Lemma executeTool_unknown_tool_witness :
  let B := example_Browser [] in
  let unknown := "Unknown tool: fs.list" in
  let result :=
    ToolExecutionResponse.mk (Some [text_part unknown]) None (Some unknown) in
  executeTool example_list allowing_registry = (Returned result, allowing_registry)
  ∧ for_of [example_list; example_click] run_tool_call allowing_registry
    = for_of [example_click] run_tool_call
        (set_conversationHistory
           (λ h, h ++ [AIMessage.mk tool (Some unknown) None (Some "call_2")])
           (set_trace (λ t, t ++ [caller_onEvent (tool_result example_list result)])
              allowing_registry)).
Proof.
  intros B.
  apply (@executeTool_unknown_tool (example_PermissionManager allows)
           B Adapter allowing_registry example_list [example_click]).
  reflexivity.
Defined.

Lemma handlePermissionResponse_at_most_once_witness :
  let warning requestId :=
    set_trace (A := Adapter)
      (λ t, t ++ [console_warn "No pending permission request for:" requestId]) in
  let w1 := (handlePermissionResponse example_grant waiting_registry).2 in
  (handlePermissionResponse example_grant waiting_registry).1 = Returned tt
  ∧ pendingPermissionRequests w1
    = delete "perm-0-0.5" (pendingPermissionRequests waiting_registry)
  ∧ promises w1 = <[0 := Returned true]> (promises waiting_registry)
  ∧ handlePermissionResponse example_late_denial w1
    = (Returned tt, warning "perm-0-0.5" w1)
  ∧ (∀ w0 stale,
       pendingPermissionRequests w0 !! PermissionResponseMessage.requestId stale
       = None →
       handlePermissionResponse stale w0
       = (Returned tt, warning (PermissionResponseMessage.requestId stale) w0)).
Proof.
  apply (@handlePermissionResponse_at_most_once
           (example_PermissionManager prompts) Adapter waiting_registry
           example_grant example_late_denial (Pending.mk 0 0 "nav.click" None)).
  - vm_compute. reflexivity.
  - vm_compute. reflexivity.
  - reflexivity.
Defined.

(** The granted, remembered answer has reached the permission manager
    once; the late denial has not. *)
Example late_denial_not_stored :
  let w1 := (handlePermissionResponse example_grant waiting_registry).2 in
  let w2 := (handlePermissionResponse example_late_denial w1).2 in
  permissionManager w1 = [("nav.click", always_allow, None)]
  ∧ permissionManager w2 = [("nav.click", always_allow, None)].
Proof. vm_compute. split; reflexivity. Qed.

(** ** The wait for a permission response *)

Section PermissionWait.
Context `{!JSON} `{!PermissionManager} `{!Browser}.
Context {A : Type} `{!AIAdapter A}.
Implicit Types w : ToolRegistry A.

Lemma for_of_effect {X} (f : X → Effect) (xs : list X) w :
  for_of xs (λ x, effect (f x)) w
  = (Returned tt, set_trace (λ t, t ++ map f xs) w).
Proof.
  revert w. induction xs as [| x xs IH]; intros w; simpl.
  - unfold ret. destruct w. unfold set_trace. simpl. by rewrite app_nil_r.
  - unfold bind, effect, modify. rewrite IH. destruct w.
    unfold set_trace. simpl. by rewrite <- app_assoc.
Qed.

Lemma requestPermissionFromUser_run toolCall descriptor context w :
  requestPermissionFromUser toolCall descriptor context w
  = await_promise (next_promise w)
      (map PERMISSION_RESPONSE (deliveries (clock w))
         ++ [timer_60000 (next_requestId w) (next_promise w)])
      (prompting w toolCall descriptor context).
Proof.
  unfold requestPermissionFromUser. unfold bind at 1. unfold tick at 1.
  unfold bind at 1. unfold get at 1. unfold bind at 1. unfold modify at 1.
  unfold ret at 1. unfold bind at 1. unfold get at 1.
  unfold bind at 1. rewrite for_of_effect.
  unfold bind at 1. unfold modify at 1. unfold bind at 1. unfold modify at 1.
  reflexivity.
Qed.

Lemma prompting_waiting_for w toolCall descriptor context :
  promise_fresh w →
  waiting_for (next_requestId w) (next_promise w)
    (prompting w toolCall descriptor context).
Proof.
  intros [Hunsettled Hothers]. split; [| split].
  - eexists. simpl. rewrite lookup_insert_eq. done.
  - exact Hunsettled.
  - intros other entry Hne. simpl. rewrite lookup_insert_ne by done.
    apply Hothers.
Qed.

Lemma await_promise_unsettled promise task tasks w :
  promises w !! promise = None →
  await_promise promise (task :: tasks) w
  = match run_task task w with
    | (Returned _, w') => await_promise promise tasks w'
    | (Threw e, w') => (Threw e, w')
    | (Unsettled, w') => (Unsettled, w')
    end.
Proof.
  intros Hunsettled. cbn [await_promise]. unfold bind at 1. unfold get at 1.
  cbv beta iota. rewrite Hunsettled. reflexivity.
Qed.

Lemma await_promise_settled promise settled tasks w :
  promises w !! promise = Some settled →
  await_promise promise tasks w = (settled, w).
Proof.
  intros Hsettled. destruct tasks; cbn [await_promise]; unfold bind, get;
    cbv beta iota; rewrite Hsettled; reflexivity.
Qed.

(** A response for another request leaves the wait as it is. *)
Lemma handlePermissionResponse_other requestId promise response w :
  waiting_for requestId promise w →
  PermissionResponseMessage.requestId response ≠ requestId →
  (handlePermissionResponse response w).1 = Returned tt
  ∧ waiting_for requestId promise (handlePermissionResponse response w).2.
Proof.
  intros ((entry & Hentry & Hresolve) & Hunsettled & Hothers) Hne.
  destruct (pendingPermissionRequests w
              !! PermissionResponseMessage.requestId response)
    as [other |] eqn:Hother.
  - destruct (handlePermissionResponse_pending w response other Hother)
      as (Hret & Hpending & Hpromises & _).
    split; [exact Hret |].
    pose proof (Hothers _ _ Hne Hother) as Hdistinct.
    split; [| split].
    + exists entry. rewrite Hpending, lookup_delete_ne by done. done.
    + rewrite Hpromises. unfold settled_with.
      destruct (promises w !! Pending.resolve other); [done |].
      by rewrite lookup_insert_ne.
    + intros k e Hk. rewrite Hpending. intros He.
      apply lookup_delete_Some in He as [_ He]. by apply (Hothers k e).
  - rewrite (handlePermissionResponse_stale w response Hother). simpl.
    split; [done |]. split; [eauto | split; done].
Qed.

(** Responses for other requests are worked off without ending the wait. *)
Lemma await_promise_others requestId promise responses tasks w :
  waiting_for requestId promise w →
  Forall (λ r, PermissionResponseMessage.requestId r ≠ requestId) responses →
  ∃ w', waiting_for requestId promise w'
        ∧ await_promise promise (map PERMISSION_RESPONSE responses ++ tasks) w
          = await_promise promise tasks w'.
Proof.
  intros Hwait Hresponses. revert w Hwait.
  induction Hresponses as [| r rs Hr _ IH]; intros w Hwait; [eauto |].
  destruct (handlePermissionResponse_other _ _ r w Hwait Hr) as [Hret Hwait'].
  destruct (IH _ Hwait') as (w' & Hw' & Hrun).
  exists w'. split; [exact Hw' |]. rewrite <- Hrun.
  destruct Hwait as (_ & Hunsettled & _).
  cbn [map app]. rewrite (await_promise_unsettled _ _ _ _ Hunsettled).
  cbn [run_task].
  destruct (handlePermissionResponse r w) as [c w1]. simpl in *. by subst c.
Qed.

(** The timer ends a wait that is still on: the entry goes and the promise
    is rejected. *)
Lemma await_promise_timer requestId promise w :
  waiting_for requestId promise w →
  ∃ w', await_promise promise [timer_60000 requestId promise] w
        = (Threw (Error "Permission request timeout"), w')
        ∧ pendingPermissionRequests w' !! requestId = None.
Proof.
  intros ((entry & Hentry & _) & Hunsettled & _).
  rewrite (await_promise_unsettled _ _ _ _ Hunsettled). cbn [run_task].
  assert (Hrun : permission_timeout requestId promise w
                 = (Returned tt,
                    set_promises
                      (settled_with promise
                         (Threw (Error "Permission request timeout")))
                      (set_pendingPermissionRequests (delete requestId) w))).
  { unfold permission_timeout. unfold bind at 1. unfold get at 1.
    rewrite Hentry. reflexivity. }
  rewrite Hrun. eexists. split.
  - apply await_promise_settled. simpl. unfold settled_with.
    rewrite Hunsettled. apply lookup_insert_eq.
  - simpl. apply lookup_delete_eq.
Qed.

(** The response for the request ends the wait with its [granted]. *)
Lemma await_promise_response requestId promise response tasks w :
  waiting_for requestId promise w →
  PermissionResponseMessage.requestId response = requestId →
  ∃ w', await_promise promise (PERMISSION_RESPONSE response :: tasks) w
        = (Returned (PermissionResponseMessage.granted response), w')
        ∧ pendingPermissionRequests w' !! requestId = None.
Proof.
  intros ((entry & Hentry & Hresolve) & Hunsettled & _) <-.
  destruct (handlePermissionResponse_pending w response entry Hentry)
    as (Hret & Hpending & Hpromises & _).
  unfold settled_with in Hpromises. rewrite Hresolve, Hunsettled in Hpromises.
  exists (handlePermissionResponse response w).2.
  split; [| rewrite Hpending; apply lookup_delete_eq].
  rewrite (await_promise_unsettled _ _ _ _ Hunsettled). cbn [run_task].
  destruct (handlePermissionResponse response w) as [c w1]. simpl in *. subst c.
  apply await_promise_settled. rewrite Hpromises. apply lookup_insert_eq.
Qed.

(** With nobody answering for the request within the 60 seconds,
    [requestPermissionFromUser] is rejected and its entry is gone. *)
Lemma requestPermissionFromUser_timeout toolCall descriptor context w :
  promise_fresh w →
  Forall (λ r, PermissionResponseMessage.requestId r ≠ next_requestId w)
    (deliveries (clock w)) →
  ∃ w', requestPermissionFromUser toolCall descriptor context w
        = (Threw (Error "Permission request timeout"), w')
        ∧ pendingPermissionRequests w' !! next_requestId w = None.
Proof.
  intros Hfresh Hnone. rewrite requestPermissionFromUser_run.
  destruct (await_promise_others _ _ _ [timer_60000 (next_requestId w) (next_promise w)]
              _ (prompting_waiting_for w toolCall descriptor context Hfresh) Hnone)
    as (w1 & Hwait & ->).
  by apply await_promise_timer.
Qed.

(** The wait always ends: by the first response for the request, or by
    the timer. *)
Lemma requestPermissionFromUser_settles toolCall descriptor context w :
  promise_fresh w →
  (requestPermissionFromUser toolCall descriptor context w).1 ≠ Unsettled.
Proof.
  intros Hfresh. rewrite requestPermissionFromUser_run.
  pose proof (prompting_waiting_for w toolCall descriptor context Hfresh) as Hwait.
  revert Hwait. generalize (prompting w toolCall descriptor context).
  induction (deliveries (clock w)) as [| r rs IH]; intros w1 Hwait.
  - cbn [map app]. destruct (await_promise_timer _ _ _ Hwait) as (w' & -> & _).
    done.
  - cbn [map app]. destruct (decide (PermissionResponseMessage.requestId r = next_requestId w))
      as [Heq | Hne].
    + destruct (await_promise_response _ _ r
                  (map PERMISSION_RESPONSE rs
                     ++ [timer_60000 (next_requestId w) (next_promise w)])
                  _ Hwait Heq) as (w' & Hrun & _).
      rewrite Hrun. done.
    + destruct (await_promise_others _ _ [r]
                  (map PERMISSION_RESPONSE rs
                     ++ [timer_60000 (next_requestId w) (next_promise w)])
                  _ Hwait) as (w' & Hwait' & Hrun).
      { by constructor. }
      cbn [map app] in Hrun. rewrite Hrun. by apply IH.
Qed.

End PermissionWait.

Section TimeoutInTheLoop.
Context `{!JSON} `{!PermissionManager} `{!Browser}.
Context {A : Type} `{!AIAdapter A}.
Implicit Types w : ToolRegistry A.

(** Whenever the permission check of a registered tool asks for a prompt
    and nobody answers for the request within the 60 seconds, the entry is
    removed, [executeTool] is rejected, and so is the loop over the
    buffered calls, whatever calls remain. *)
Lemma executeTool_permission_timeout toolCall registration context check
    (remaining : list ToolCall.t) w w1 :
  Map_get (ToolCall.name toolCall) (registeredTools w) = Some registration →
  getToolContext (ToolCall.name toolCall) w = (Returned context, w1) →
  checkPermission (permissionManager w1) (ToolCall.name toolCall) context
    (Registration.descriptor registration) = Returned check →
  PermissionCheck.requiresPrompt check = true →
  promise_fresh w1 →
  Forall (λ r, PermissionResponseMessage.requestId r ≠ next_requestId w1)
    (deliveries (clock w1)) →
  ∃ w', executeTool toolCall w = (Threw (Error "Permission request timeout"), w')
        ∧ pendingPermissionRequests w' !! next_requestId w1 = None
        ∧ for_of (toolCall :: remaining) run_tool_call w
          = (Threw (Error "Permission request timeout"), w').
Proof.
  intros Hregistered Hcontext Hcheck Hprompt Hfresh Hnone.
  destruct (requestPermissionFromUser_timeout toolCall
              (Registration.descriptor registration) context w1 Hfresh Hnone)
    as (w' & Hwait & Hgone).
  assert (Hrun : executeTool toolCall w
                 = (Threw (Error "Permission request timeout"), w')).
  { unfold executeTool. unfold bind at 1. unfold get at 1. rewrite Hregistered.
    unfold bind at 1. rewrite Hcontext.
    unfold bind at 1. unfold get at 1.
    unfold bind at 1. unfold await at 1. rewrite Hcheck, Hprompt.
    rewrite andb_false_r. unfold bind at 1. rewrite Hwait. reflexivity. }
  exists w'. split; [exact Hrun |]. split; [exact Hgone |].
  cbn [for_of]. unfold bind. rewrite run_tool_call_run, Hrun. reflexivity.
Qed.

(** When the loop over the buffered calls returns, every call has its
    [tool] message, in the order of the calls. *)
Lemma run_tool_calls_Returned calls w w' :
  run_tool_calls calls w = (Returned tt, w') →
  ∃ results effects,
    length results = length calls
    ∧ conversationHistory w'
      = conversationHistory w
        ++ tool_calls_message calls :: zip_with tool_message calls results
    ∧ AIMessage.tool_call_id <$> zip_with tool_message calls results
      = (λ toolCall, Some (ToolCall.id toolCall)) <$> calls
    ∧ trace w' = trace w ++ effects
    ∧ call_segments calls results effects.
Proof.
  intros Hrun.
  destruct (run_tool_calls_run calls w)
    as (results & effects & Hh & Ht & Hseg & Hlen & _).
  rewrite Hrun in Hh, Ht, Hlen. simpl in *.
  specialize (Hlen eq_refl).
  exists results, effects. repeat split; try done.
  clear -Hlen. revert results Hlen.
  induction calls as [| toolCall calls IH]; intros [| result results] Hlen;
    try done.
  simpl. f_equal. apply IH. by injection Hlen.
Qed.

End TimeoutInTheLoop.

(** ** Whole prompts *)

(** No tool is registered and the model asks for [fs.list]: the loop
    records the call, the error result, and the text of the second turn. *)
Example prompt_with_unknown_tool :
  let r := example_run [] [example_call_chunk 0 "call_1" "fs_list" "{}"] "list files" in
  r.1 = Returned true
  ∧ conversationHistory r.2
    = [AIMessage.mk user (Some "list files") None None;
       AIMessage.mk assistant None
         (Some [ToolCallRef.mk "call_1" "function" (FunctionCall.mk "fs_list" "{}")])
         None;
       AIMessage.mk tool (Some "Unknown tool: fs_list") None (Some "call_1");
       AIMessage.mk assistant (Some "Done.") None None]
  ∧ dispatched (trace r.2) = [].
Proof. vm_compute. repeat split. Qed.

(** Two calls of one turn, both tools registered under their dotted names:
    the owners get the dotted names, in the order of the calls, and the
    history gets the rewritten ones. *)
Example prompt_with_two_calls :
  let r := example_run example_owners
             [example_call_chunk 0 "call_1" "nav_click" "{}";
              example_call_chunk 1 "call_2" "fs_list" "{}"] "click, then list" in
  r.1 = Returned true
  ∧ conversationHistory r.2
    = [AIMessage.mk user (Some "click, then list") None None;
       AIMessage.mk assistant None
         (Some [ToolCallRef.mk "call_1" "function" (FunctionCall.mk "nav_click" "{}");
                ToolCallRef.mk "call_2" "function" (FunctionCall.mk "fs_list" "{}")])
         None;
       AIMessage.mk tool (Some "done") None (Some "call_1");
       AIMessage.mk tool (Some "done") None (Some "call_2");
       AIMessage.mk assistant (Some "Done.") None None]
  ∧ dispatched (trace r.2)
    = [("ext-1", ToolExecutionRequest.mk "TOOL_EXECUTE" "nav.click" (JObject []) "call_1");
       ("ext-2", ToolExecutionRequest.mk "TOOL_EXECUTE" "fs.list" (JObject []) "call_2")]
  ∧ tool_uses (forwarded (trace r.2)) = [example_click; example_list].
Proof. vm_compute. repeat split. Qed.

(** ** The unanswered prompt, by the general lemma *)

(** A registry with nothing pending and no promise settled is ready for
    its next permission request. *)
Lemma promise_fresh_idle `{!PermissionManager} {A : Type}
    (w : ToolRegistry A) :
  pendingPermissionRequests w = ∅ → promises w = ∅ → promise_fresh w.
Proof.
  intros Hpending Hpromises. split.
  - rewrite Hpromises. apply lookup_empty.
  - intros requestId entry. rewrite Hpending, lookup_empty. done.
Qed.

(** The unanswered registry meets the conditions of
    [executeTool_permission_timeout]. *)
Example unanswered_click_times_out :
  ∃ w', unanswered_call example_click
        = (Threw (Error "Permission request timeout"), w')
        ∧ pendingPermissionRequests w' !! "perm-0-0.5" = None
        ∧ for_of [example_click; example_list]
            (@run_tool_call (example_PermissionManager prompts)
               (example_Browser []) Adapter recorder) unanswered_registry
          = (Threw (Error "Permission request timeout"), w').
Proof.
  apply (@executeTool_permission_timeout (example_PermissionManager prompts)
           (example_Browser []) Adapter example_click
           (Registration.mk "ext-1" (example_descriptor "nav.click"))
           (ToolContext.mk None None) prompts [example_list]
           unanswered_registry unanswered_registry); try reflexivity.
  - by apply promise_fresh_idle.
  - constructor.
Qed.

(** ** Every wait of a running registry ends *)

Section Bounded.
Context `{!JSON} `{!PermissionManager} `{!Browser}.
Context {A : Type} `{!AIAdapter A}.
Implicit Types w : ToolRegistry A.
Implicit Types I : ToolRegistry A → Prop.

Lemma promises_bounded_fresh w : promises_bounded w → promise_fresh w.
Proof.
  intros [Hsettled Hentries]. split.
  - destruct (promises w !! next_promise w) as [c |] eqn:E; [| done].
    apply Hsettled in E. lia.
  - intros requestId entry Hentry. apply Hentries in Hentry. lia.
Qed.

Lemma keeps_ret {R} I (x : R) : keeps (A := A) I (ret x).
Proof. by intros w. Qed.

Lemma keeps_throw {R} I e : keeps (A := A) (R := R) I (throw e).
Proof. by intros w. Qed.

Lemma keeps_await {R} I (c : Completion R) : keeps (A := A) I (await c).
Proof. by intros w. Qed.

Lemma keeps_get I : keeps (A := A) I get.
Proof. by intros w. Qed.

Lemma keeps_bind {R R'} I (m : M (ToolRegistry A) R) (k : R → M (ToolRegistry A) R') :
  keeps I m → (∀ x, keeps I (k x)) → keeps I (bind m k).
Proof.
  intros Hm Hk w Hw. unfold bind. specialize (Hm w Hw).
  destruct (m w) as [[x | e |] w1]; simpl in *; [| done | done].
  by apply Hk.
Qed.

Lemma keeps_try_catch {R} I (m : M (ToolRegistry A) R) h :
  keeps I m → (∀ e, keeps I (h e)) → keeps I (try_catch m h).
Proof.
  intros Hm Hh w Hw. unfold try_catch. specialize (Hm w Hw).
  destruct (m w) as [[x | e |] w1]; simpl in *; [done | | done].
  by apply Hh.
Qed.

Lemma keeps_for_of {X} I (xs : list X) (body : X → M (ToolRegistry A) unit) :
  (∀ x, keeps I (body x)) → keeps I (for_of xs body).
Proof.
  intros Hbody. induction xs as [| x xs IH]; simpl.
  - apply keeps_ret.
  - apply keeps_bind; auto.
Qed.

Lemma keeps_modify (f : ToolRegistry A → ToolRegistry A) I :
  (∀ w, promises (f w) = promises w
        ∧ pendingPermissionRequests (f w) = pendingPermissionRequests w
        ∧ next_promise (f w) = next_promise w) →
  (I = promises_bounded ∨ ∃ promise, I = bounded_with promise) →
  keeps I (modify f).
Proof.
  intros Hf HI w. specialize (Hf w) as (Hp & He & Hn). simpl.
  destruct HI as [-> | [promise ->]]; unfold bounded_with, promises_bounded;
    rewrite Hp, He, Hn; done.
Qed.

Lemma keeps_effect I e :
  (I = promises_bounded ∨ ∃ promise, I = bounded_with promise) →
  keeps I (effect e).
Proof. apply keeps_modify. done. Qed.

Lemma keeps_tick I :
  (I = promises_bounded ∨ ∃ promise, I = bounded_with promise) →
  keeps I tick.
Proof.
  intros HI. unfold tick. apply keeps_bind; [apply keeps_get | intros w].
  apply keeps_bind; [| intros _; apply keeps_ret].
  by apply keeps_modify.
Qed.

Lemma keeps_push_history I m :
  (I = promises_bounded ∨ ∃ promise, I = bounded_with promise) →
  keeps I (push_history m).
Proof. apply keeps_modify. done. Qed.

Lemma keeps_handlePermissionResponse promise response :
  keeps (A := A) (bounded_with promise) (handlePermissionResponse response).
Proof.
  intros w [[Hsettled Hentries] Hpromise].
  destruct (pendingPermissionRequests w
              !! PermissionResponseMessage.requestId response)
    as [entry |] eqn:Hentry.
  - destruct (handlePermissionResponse_pending w response entry Hentry)
      as (_ & Hpending & Hpromises & Hnext & _).
    unfold bounded_with, promises_bounded.
    rewrite Hpending, Hpromises, Hnext. split; [split |]; [| | done].
    + intros p c. unfold settled_with.
      destruct (promises w !! Pending.resolve entry); [apply Hsettled |].
      intros Hp. apply lookup_insert_Some in Hp as [[<- _] | [_ Hp]].
      * by apply (Hentries _ _ Hentry).
      * by apply (Hsettled _ _ Hp).
    + intros k e He. apply lookup_delete_Some in He as [_ He].
      by apply (Hentries _ _ He).
  - rewrite (handlePermissionResponse_stale w response Hentry). done.
Qed.

Lemma keeps_permission_timeout promise requestId :
  keeps (A := A) (bounded_with promise) (permission_timeout requestId promise).
Proof.
  intros w [[Hsettled Hentries] Hpromise]. unfold permission_timeout.
  unfold bind at 1. unfold get at 1.
  destruct (pendingPermissionRequests w !! requestId) as [entry |]; [| done].
  simpl. unfold bounded_with, promises_bounded. simpl.
  split; [split |]; [| | done].
  - intros p c.
    destruct (promises w !! promise); [apply Hsettled |].
    intros Hp. apply lookup_insert_Some in Hp as [[<- _] | [_ Hp]]; [done |].
    by apply (Hsettled _ _ Hp).
  - intros k e He. apply lookup_delete_Some in He as [_ He].
    by apply (Hentries _ _ He).
Qed.

Lemma keeps_await_promise promise requestId responses :
  keeps (A := A) (bounded_with promise)
    (await_promise promise
       (map PERMISSION_RESPONSE responses ++ [timer_60000 requestId promise])).
Proof.
  induction responses as [| r rs IH]; cbn [map app await_promise].
  - apply keeps_bind; [apply keeps_get | intros w].
    destruct (_ !! _); [apply keeps_await |].
    apply keeps_bind; [apply keeps_permission_timeout | intros _].
    apply keeps_bind; [apply keeps_get | intros w'].
    destruct (_ !! _); apply keeps_await.
  - apply keeps_bind; [apply keeps_get | intros w].
    destruct (_ !! _); [apply keeps_await |].
    apply keeps_bind; [apply keeps_handlePermissionResponse | intros _].
    exact IH.
Qed.

Lemma keeps_requestPermissionFromUser toolCall descriptor context :
  keeps (A := A) promises_bounded
    (requestPermissionFromUser toolCall descriptor context).
Proof.
  intros w [Hsettled Hentries]. rewrite requestPermissionFromUser_run.
  apply (keeps_await_promise (next_promise w)).
  unfold bounded_with, promises_bounded. simpl.
  split; [split |]; [| | lia].
  - intros p c Hp. apply Hsettled in Hp. lia.
  - intros k e He. apply lookup_insert_Some in He as [[_ <-] | [_ He]].
    + simpl. lia.
    + apply Hentries in He. lia.
Qed.

Lemma keeps_getToolContext toolName :
  keeps (A := A) promises_bounded (getToolContext toolName).
Proof.
  unfold getToolContext. apply keeps_bind; [apply keeps_get | intros w].
  destruct (negb _); [apply keeps_ret |].
  apply keeps_bind; [| intros [context |]; apply keeps_ret].
  apply keeps_try_catch.
  - apply keeps_bind; [apply keeps_tick; by left | intros now].
    apply keeps_bind; [apply keeps_await | intros [| tab tabs]];
      apply keeps_ret.
  - intros e. apply keeps_bind; [apply keeps_effect; by left | intros _].
    apply keeps_ret.
Qed.

Lemma keeps_executeTool toolCall :
  keeps (A := A) promises_bounded (executeTool toolCall).
Proof.
  unfold executeTool. apply keeps_bind; [apply keeps_get | intros w].
  destruct (Map_get _ _) as [registration |]; [| apply keeps_ret].
  apply keeps_bind; [apply keeps_getToolContext | intros context].
  apply keeps_bind; [apply keeps_get | intros w'].
  apply keeps_bind; [apply keeps_await | intros permissionCheck].
  destruct (_ && _); [apply keeps_ret |].
  apply keeps_bind; [| intros granted].
  { destruct (PermissionCheck.requiresPrompt _); [| apply keeps_ret].
    apply keeps_requestPermissionFromUser. }
  destruct (negb granted); [apply keeps_ret |].
  apply keeps_try_catch.
  - apply keeps_bind; [apply keeps_tick; by left | intros now].
    apply keeps_bind; [apply keeps_effect; by left | intros _].
    apply keeps_bind; [apply keeps_await | intros [response |]];
      [| apply keeps_throw].
    destruct (truthy_opt _); apply keeps_ret.
  - intros [e |]; (apply keeps_bind; [apply keeps_effect; by left | intros _]);
      [apply keeps_ret | apply keeps_throw].
Qed.

Lemma keeps_run_tool_call toolCall :
  keeps (A := A) promises_bounded (run_tool_call toolCall).
Proof.
  unfold run_tool_call.
  apply keeps_bind; [apply keeps_executeTool | intros result].
  apply keeps_bind; [apply keeps_effect; by left | intros _].
  apply keeps_push_history. by left.
Qed.

Lemma keeps_call_adapter (this : A) tools :
  keeps promises_bounded (call_adapter this tools).
Proof. intros w Hw. by rewrite call_adapter_run. Qed.

Lemma keeps_executePrompt_turn (this : A) tools :
  keeps promises_bounded (executePrompt_turn this tools).
Proof.
  unfold executePrompt_turn.
  apply keeps_bind; [apply keeps_call_adapter | intros pendingToolCalls].
  case_bool_decide; [| apply keeps_ret].
  apply keeps_bind; [| intros _; apply keeps_ret].
  unfold run_tool_calls.
  apply keeps_bind; [apply keeps_push_history; by left | intros _].
  apply keeps_for_of. apply keeps_run_tool_call.
Qed.

(** A prompt leaves the promises bounded, however it ends. *)
Lemma keeps_executePrompt turns prompt :
  keeps (A := A) promises_bounded (executePrompt turns prompt).
Proof.
  unfold executePrompt. apply keeps_bind; [apply keeps_get | intros w].
  destruct (adapter w); [| apply keeps_throw].
  apply keeps_bind; [apply keeps_push_history; by left | intros _].
  apply keeps_bind; [| intros tools].
  { unfold getAITools. apply keeps_bind; [apply keeps_get | intros w'].
    apply keeps_ret. }
  induction turns as [| turns IH]; cbn [executePrompt_while];
    [apply keeps_ret |].
  apply keeps_bind; [apply keeps_get | intros w'].
  destruct (adapter w') as [this |]; [| apply keeps_throw].
  apply keeps_bind; [apply keeps_executePrompt_turn | intros []];
    [exact IH | apply keeps_ret].
Qed.

(** In a registry whose promises are bounded, as they are at start and
    stay from prompt to prompt, the wait for a permission response always
    ends. *)
Lemma requestPermissionFromUser_ends toolCall descriptor context w :
  promises_bounded w →
  (requestPermissionFromUser toolCall descriptor context w).1 ≠ Unsettled.
Proof.
  intros Hw. apply requestPermissionFromUser_settles.
  by apply promises_bounded_fresh.
Qed.

Lemma promises_bounded_idle w :
  pendingPermissionRequests w = ∅ → promises w = ∅ → promises_bounded w.
Proof.
  intros Hpending Hpromises. split.
  - intros promise settled. rewrite Hpromises, lookup_empty. done.
  - intros requestId entry. rewrite Hpending, lookup_empty. done.
Qed.

End Bounded.

(** * Further properties of the adapters *)

(** ** Strings *)

Lemma append_nil_r s : s +:+ "" = s.
Proof.
  induction s as [| c s IH]; [done |].
  change (String c (s +:+ "") = String c s). by rewrite IH.
Qed.

Lemma append_assoc s1 s2 s3 : (s1 +:+ s2) +:+ s3 = s1 +:+ (s2 +:+ s3).
Proof.
  induction s1 as [| c s1 IH]; [done |].
  change (String c ((s1 +:+ s2) +:+ s3) = String c (s1 +:+ (s2 +:+ s3))).
  by rewrite IH.
Qed.

Lemma or_default_truthy s d : truthy s = true → or_default (Some s) d = s.
Proof. intros Hs. simpl. by rewrite Hs. Qed.

Lemma or_default_falsy o : truthy_opt o = false → or_default o "" = "".
Proof. destruct o as [s |]; [| done]. simpl. by destruct (truthy s). Qed.

Lemma contains_dot_replace_dots s : contains_dot (replace_dots s) = false.
Proof.
  induction s as [| c s IH]; [done |]. simpl. rewrite IH.
  destruct (Ascii.eqb c ".") eqn:E; [done |]. by rewrite E.
Qed.

Lemma replace_dots_without_dot s : contains_dot s = false → replace_dots s = s.
Proof.
  induction s as [| c s IH]; [done |]. simpl.
  destruct (Ascii.eqb c ".") eqn:E; [done |]. simpl.
  intros Hs. by rewrite IH.
Qed.

Lemma replace_dots_length s : String.length (replace_dots s) = String.length s.
Proof. induction s as [| c s IH]; [done |]. simpl. by rewrite IH. Qed.

(** X1. [normalizeToolName] keeps the length of a name, leaves no dot in
    it, changes exactly the names that have a dot, and applied twice does
    what it does once. *)
Theorem normalizeToolName_spec (name : string) :
  contains_dot (normalizeToolName name) = false
  ∧ String.length (normalizeToolName name) = String.length name
  ∧ (normalizeToolName name = name ↔ contains_dot name = false)
  ∧ normalizeToolName (normalizeToolName name) = normalizeToolName name.
Proof.
  unfold normalizeToolName. split; [apply contains_dot_replace_dots |].
  split; [apply replace_dots_length |].
  split; [| apply replace_dots_idempotent].
  split; [| apply replace_dots_without_dot].
  intros Hsame. destruct (contains_dot name) eqn:Hdot; [| done].
  by apply replace_dots_changes in Hdot.
Qed.

(** ** The text of a streamed reply *)

Lemma running_text_last shown fragments :
  last (shown :: running_text shown fragments)
  = Some (shown +:+ concat_text fragments).
Proof.
  revert shown. induction fragments as [| f fs IH]; intros shown.
  - simpl. by rewrite append_nil_r.
  - change (last (running_text shown (f :: fs)) = Some (shown +:+ (f +:+ concat_text fs))).
    simpl. rewrite <- append_assoc. apply IH.
Qed.

Lemma content_fragments_cons chunk rest :
  content_fragments (chunk :: rest)
  = match OpenAI.Chunk.delta chunk ≫= OpenAI.Delta.content with
    | Some content =>
        if truthy content then content :: content_fragments rest
        else content_fragments rest
    | None => content_fragments rest
    end.
Proof.
  unfold content_fragments.
  destruct chunk as [[[[content |] tool_calls] |]]; simpl; try done.
  by destruct (truthy content).
Qed.

(** The stream loop: what it has shown and what it ends with. *)
Lemma openai_chunks_text {St} chunks acc toolCalls (r : Run.t St) :
  ∃ toolCalls',
    openai_chunks chunks acc toolCalls r
    = (Returned (acc +:+ concat_text (content_fragments chunks), toolCalls'),
       Run.mk (Run.self r)
         (Run.emitted r
            ++ map (λ t, message_update [text_part t])
                 (running_text acc (content_fragments chunks)))).
Proof.
  revert acc toolCalls r.
  induction chunks as [| chunk rest IH]; intros acc toolCalls [this es0].
  - exists toolCalls. simpl. unfold ret. by rewrite append_nil_r, app_nil_r.
  - rewrite content_fragments_cons. cbn [openai_chunks].
    destruct (OpenAI.Chunk.delta chunk) as [delta |]; [| apply IH].
    cbn [mbind option_bind].
    destruct (OpenAI.Delta.content delta) as [content |];
      cbn [truthy_opt or_default].
    + destruct (truthy content) eqn:Htruthy.
      * unfold bind at 1. unfold when. rewrite onEvent_run.
        cbn [Run.self Run.emitted].
        match goal with
        | |- context [openai_chunks rest ?a ?t ?r] =>
            destruct (IH a t r) as (toolCalls' & ->)
        end.
        exists toolCalls'. cbn [Run.self Run.emitted running_text map].
        change (concat_text (content :: content_fragments rest))
          with (content +:+ concat_text (content_fragments rest)).
        by rewrite <- app_assoc, append_assoc.
      * unfold bind, when, ret. apply IH.
    + unfold bind, when, ret. apply IH.
Qed.

Lemma updates_app es1 es2 : updates (es1 ++ es2) = updates es1 ++ updates es2.
Proof. apply omap_app. Qed.

Lemma updates_map_update texts :
  updates (map (λ t, message_update [text_part t]) texts)
  = map (λ t, [text_part t]) texts.
Proof. induction texts as [| t ts IH]; [done |]. simpl. by rewrite IH. Qed.

Lemma updates_map_tool_use tcs : updates (map tool_use tcs) = [].
Proof. by induction tcs. Qed.

Section StreamedText.
Context `{!JSON}.

(** X2. In the OpenAI adapter every [message_update] carries the whole
    text received so far, one event per non-empty content fragment, in
    order; and a stream that ends without failure and without a tool call
    is completed with the concatenation of all fragments. *)
Theorem openai_updates_are_cumulative (this : OpenAIAdapter)
    (messages : list AIMessage.t) (tools : list AITool.t) (systemPrompt : string)
    (stream : OpenAI.Stream.t) :
  openai_client this (openai_request this messages tools systemPrompt)
  = Returned stream →
  let es := events_of (call (sendMessage messages tools systemPrompt) this) in
  let fragments := content_fragments (OpenAI.Stream.chunks stream) in
  updates es = map (λ t, [text_part t]) (running_text "" fragments)
  ∧ (OpenAI.Stream.failure stream = None →
     openai_toolCalls (OpenAI.Stream.chunks stream) = [] →
     last es = Some (message_complete (concat_text fragments))).
Proof.
  intros Hstream es fragments. subst es fragments.
  unfold events_of, call, sendMessage, OpenAIAdapter_AIAdapter, try_catch.
  pose proof (OpenAIAdapter_try_run messages tools systemPrompt this) as Hrun.
  unfold call in Hrun. rewrite Hrun. clear Hrun. simpl. rewrite Hstream.
  destruct (openai_chunks_toolCalls (OpenAI.Stream.chunks stream)
              (Run.mk (rebuilt this tools) [message_start]))
    as (acc & shown & Hchunks & _).
  destruct (openai_chunks_text (OpenAI.Stream.chunks stream) "" []
              (Run.mk (rebuilt this tools) [message_start]))
    as (toolCalls' & Htext).
  rewrite Htext in Hchunks. injection Hchunks as <- -> Hshown.
  subst shown. rewrite Htext. clear Htext.
  set (texts := running_text "" (content_fragments (OpenAI.Stream.chunks stream))).
  destruct (OpenAI.Stream.failure stream) as [[e |] |]; simpl.
  { split; [| done]. rewrite updates_app, updates_map_update. simpl.
    by rewrite app_nil_r. }
  { split; [| done]. by rewrite updates_map_update. }
  case_bool_decide as Hlen.
  - destruct (for_of_emit_tool_use_run
                (Array_elements (openai_toolCalls (OpenAI.Stream.chunks stream)))
                (Run.mk (rebuilt this tools)
                   (message_start
                      :: map (λ t, message_update [text_part t]) texts)))
      as (c & -> & _).
    split.
    + destruct c as [[] | [e |] |]; simpl;
        rewrite ?updates_app, updates_map_update, ?updates_map_tool_use;
        simpl; by rewrite ?app_nil_r.
    + intros _ Hnone. rewrite Hnone in Hlen. simpl in Hlen. lia.
  - rewrite onEvent_run. simpl. split.
    + rewrite updates_app, updates_map_update. simpl. by rewrite app_nil_r.
    + intros _ _. rewrite app_comm_cons. apply last_snoc.
Qed.

End StreamedText.

Lemma openai_updates_are_cumulative_witness :
  let this :=
    example_OpenAI
      [OpenAI.Chunk.mk (Some (OpenAI.Delta.mk (Some "Hel") None));
       OpenAI.Chunk.mk None;
       OpenAI.Chunk.mk (Some (OpenAI.Delta.mk (Some "") None));
       OpenAI.Chunk.mk (Some (OpenAI.Delta.mk (Some "lo") None))] in
  let es :=
    events_of (call (@sendMessage _ (@OpenAIAdapter_AIAdapter example_JSON)
                       example_prompt [] "") this) in
  updates es = [[text_part "Hel"]; [text_part "Hello"]]
  ∧ last es = Some (message_complete "Hello").
Proof.
  intros this es.
  destruct (@openai_updates_are_cumulative example_JSON this example_prompt [] ""
              (OpenAI.Stream.mk
                 [OpenAI.Chunk.mk (Some (OpenAI.Delta.mk (Some "Hel") None));
                  OpenAI.Chunk.mk None;
                  OpenAI.Chunk.mk (Some (OpenAI.Delta.mk (Some "") None));
                  OpenAI.Chunk.mk (Some (OpenAI.Delta.mk (Some "lo") None))]
                 None) eq_refl) as [Hupdates Hlast].
  split; [exact Hupdates | by apply Hlast].
Defined.

(** ** The reply of the Anthropic provider *)

Lemma fold_left_anthropic_block blocks text calls :
  fold_left anthropic_block blocks (text, calls)
  = (text +:+ concat_text (block_texts blocks), calls ++ block_calls blocks).
Proof.
  revert text calls. induction blocks as [| block blocks IH]; intros text calls.
  - simpl. by rewrite append_nil_r, app_nil_r.
  - destruct block as [t | id name input | type]; simpl; rewrite IH.
    + change (concat_text (t :: block_texts blocks))
        with (t +:+ concat_text (block_texts blocks)).
      by rewrite append_assoc.
    + by rewrite <- app_assoc.
    + done.
Qed.

(** X3. The Anthropic adapter splits a reply in one pass: the text blocks,
    concatenated in order, are the text of the one [message_update] (none
    when the text is empty); the [tool_use] blocks become the [tool_use]
    events, in order, with id, name and input as received; and only a
    reply without such a block is completed, with that text. *)
Theorem anthropic_reply_split (this : AnthropicAdapter)
    (messages : list AIMessage.t) (tools : list AITool.t) (systemPrompt : string)
    (response : Anthropic.Response.t) :
  anthropic_client this (anthropic_request messages tools systemPrompt)
  = Returned response →
  let text := concat_text (block_texts (Anthropic.Response.content response)) in
  let calls := block_calls (Anthropic.Response.content response) in
  events_of (call (sendMessage messages tools systemPrompt) this)
  = message_start
    :: (if truthy text then [message_update [text_part text]] else [])
    ++ match calls with
       | [] => [message_complete text]
       | _ => map tool_use calls
       end.
Proof.
  intros Hresponse text calls.
  unfold events_of, call, sendMessage, AnthropicAdapter_AIAdapter, try_catch.
  pose proof (AnthropicAdapter_try_run messages tools systemPrompt this) as Hrun.
  unfold call in Hrun. rewrite Hrun. clear Hrun. simpl. rewrite Hresponse.
  rewrite fold_left_anthropic_block. simpl. fold text calls.
  destruct calls; [| done]. done.
Qed.

Lemma anthropic_reply_split_witness :
  let response :=
    Anthropic.Response.mk
      [Anthropic.TextBlock "Let me ";
       Anthropic.ToolUseBlock "toolu_1" "fs.list" (JObject []);
       Anthropic.OtherBlock "thinking";
       Anthropic.TextBlock "look.";
       Anthropic.ToolUseBlock "toolu_2" "nav.click" (JObject [])] in
  events_of (call (sendMessage example_prompt [] "")
               {| anthropic_client := λ _, Returned response |})
  = [message_start; message_update [text_part "Let me look."];
     tool_use (ToolCall.mk "toolu_1" "fs.list" (JObject []));
     tool_use (ToolCall.mk "toolu_2" "nav.click" (JObject []))].
Proof.
  intros response.
  apply (anthropic_reply_split {| anthropic_client := λ _, Returned response |}
           example_prompt [] "" response eq_refl).
Defined.

(** ** The Google adapter *)

Lemma GoogleAdapter_try_run_call messages tools systemPrompt this :
  GoogleAdapter_try messages tools systemPrompt (Run.mk this [])
  = call (GoogleAdapter_try messages tools systemPrompt) this.
Proof. reflexivity. Qed.

(** X4. The Google adapter does not use the tool catalog: whatever tools
    it is given, the call goes as with none, and it never emits a
    [tool_use] event.  With an empty history it consults no chat and
    fails: one [error] event, no completion. *)
Theorem GoogleAdapter_ignores_tools (this : GoogleAdapter)
    (messages : list AIMessage.t) (tools : list AITool.t) (systemPrompt : string) :
  call (sendMessage messages tools systemPrompt) this
  = call (sendMessage messages [] systemPrompt) this
  ∧ tool_uses (events_of (call (sendMessage messages tools systemPrompt) this)) = []
  ∧ count is_error (events_of (call (sendMessage [] tools systemPrompt) this)) = 1
  ∧ completions (events_of (call (sendMessage [] tools systemPrompt) this)) = [].
Proof.
  split; [reflexivity |].
  unfold events_of, call, sendMessage, GoogleAdapter_AIAdapter, try_catch.
  rewrite !GoogleAdapter_try_run_call, !GoogleAdapter_try_run. simpl.
  destruct (google_client this (google_model this) systemPrompt) as [e | model];
    [done |].
  split; [| done].
  destruct (messages !! _) as [lastMessage |]; [| done].
  by destruct (model _ _) as [text | [e |] |].
Qed.

(** ** Tool calls streamed in fragments *)

Lemma Array_get_set {A} (a : list (option A)) i j v :
  Array_get (Array_set a i v) j = if decide (i = j) then Some v else Array_get a j.
Proof.
  unfold Array_get, Array_set. case_bool_decide as Hi.
  - destruct (decide (i = j)) as [<- | Hij].
    + by rewrite list_lookup_insert_eq.
    + by rewrite list_lookup_insert_ne.
  - destruct (decide (j < length a)) as [Hj | Hj].
    { rewrite lookup_app_l by done. destruct (decide (i = j)); [lia | done]. }
    rewrite lookup_app_r by lia.
    rewrite (lookup_ge_None_2 a j) by lia.
    destruct (decide (j - length a < i - length a)) as [Hlt | Hge].
    { rewrite lookup_app_l by (by rewrite length_replicate).
      rewrite lookup_replicate_2 by done.
      destruct (decide (i = j)); [lia | done]. }
    rewrite lookup_app_r by (rewrite length_replicate; lia).
    rewrite length_replicate.
    destruct (decide (i = j)) as [<- | Hij].
    + by replace (i - length a - (i - length a)) with 0 by lia.
    + destruct (j - length a - (i - length a)) as [| n] eqn:En; [lia | done].
Qed.

Lemma Array_set_length {A} (a : list (option A)) i v :
  (length a ≤ length (Array_set a i v))%nat ∧ i < length (Array_set a i v).
Proof.
  unfold Array_set. case_bool_decide as Hi.
  - rewrite length_insert. lia.
  - rewrite !length_app, length_replicate. simpl. lia.
Qed.

Lemma openai_tool_call_delta_grown toolCalls d :
  openai_tool_call_delta toolCalls d
  = Array_set toolCalls (OpenAI.ToolCallDelta.index d)
      (grown (default blank (Array_get toolCalls (OpenAI.ToolCallDelta.index d))) d).
Proof.
  unfold openai_tool_call_delta, grown, blank, delta_name, delta_arguments.
  f_equal.
  destruct d as [index id fn]. cbn [OpenAI.ToolCallDelta.index
    OpenAI.ToolCallDelta.id OpenAI.ToolCallDelta.function].
  assert (Hid : ∀ had : string,
             or_default id (or_default id had) = or_default id had).
  { intros had. destruct id as [[| c s] |]; done. }
  set (name := fn ≫= OpenAI.FunctionDelta.name).
  set (arguments := fn ≫= OpenAI.FunctionDelta.arguments).
  destruct (Array_get toolCalls index) as [[id0 type0 [name0 args0]] |];
    cbn [default Accumulated.id Accumulated.type Accumulated.function
         FunctionCall.name FunctionCall.arguments].
  - destruct id as [[| c s] |], name as [[| c1 s1] |], arguments as [[| c2 s2] |];
      cbn [truthy_opt truthy or_default Accumulated.id Accumulated.type
           Accumulated.function FunctionCall.name FunctionCall.arguments];
      by rewrite ?append_nil_r.
  - destruct id as [[| c s] |], name as [[| c1 s1] |], arguments as [[| c2 s2] |];
      cbn [truthy_opt truthy or_default Accumulated.id Accumulated.type
           Accumulated.function FunctionCall.name FunctionCall.arguments];
      by rewrite ?append_nil_r.
Qed.

Lemma fold_left_grown deltas entry :
  fold_left grown deltas entry
  = Accumulated.mk (last_id (Accumulated.id entry) deltas)
      (Accumulated.type entry)
      (FunctionCall.mk
         (FunctionCall.name (Accumulated.function entry)
            +:+ concat_text (map delta_name deltas))
         (FunctionCall.arguments (Accumulated.function entry)
            +:+ concat_text (map delta_arguments deltas))).
Proof.
  revert entry. induction deltas as [| d deltas IH]; intros entry.
  - destruct entry as [id type [name arguments]]. simpl.
    by rewrite !append_nil_r.
  - cbn [fold_left]. rewrite IH. unfold grown at 1 2 3 4.
    cbn [Accumulated.id Accumulated.type Accumulated.function
         FunctionCall.name FunctionCall.arguments map last_id fold_left].
    change (concat_text (delta_name d :: map delta_name deltas))
      with (delta_name d +:+ concat_text (map delta_name deltas)).
    change (concat_text (delta_arguments d :: map delta_arguments deltas))
      with (delta_arguments d +:+ concat_text (map delta_arguments deltas)).
    by rewrite !append_assoc.
Qed.

Lemma fold_left_openai_tool_call_delta deltas toolCalls index :
  Array_get (fold_left openai_tool_call_delta deltas toolCalls) index
  = match deltas_at index deltas with
    | [] => Array_get toolCalls index
    | ds => Some (fold_left grown ds (default blank (Array_get toolCalls index)))
    end.
Proof.
  revert toolCalls. induction deltas as [| d deltas IH]; intros toolCalls.
  { done. }
  cbn [fold_left]. rewrite IH. clear IH.
  rewrite openai_tool_call_delta_grown, Array_get_set.
  unfold deltas_at. rewrite filter_cons.
  destruct (decide (OpenAI.ToolCallDelta.index d = index)) as [<- | Hne].
  - cbn [default fold_left]. by destruct (filter _ deltas).
  - done.
Qed.

Lemma openai_chunks_deltas {St} chunks acc toolCalls (r : Run.t St) :
  ∃ acc' r',
    openai_chunks chunks acc toolCalls r
    = (Returned (acc', fold_left openai_tool_call_delta (stream_deltas chunks)
                         toolCalls), r').
Proof.
  revert acc toolCalls r.
  induction chunks as [| chunk rest IH]; intros acc toolCalls r.
  { by exists acc, r. }
  unfold stream_deltas. rewrite bind_cons, fold_left_app.
  cbn [openai_chunks].
  destruct (OpenAI.Chunk.delta chunk) as [delta |]; [| apply IH].
  cbn [mbind option_bind].
  unfold bind, when. destruct (truthy_opt (OpenAI.Delta.content delta)).
  - rewrite onEvent_run. destruct (OpenAI.Delta.tool_calls delta); apply IH.
  - unfold ret. destruct (OpenAI.Delta.tool_calls delta); apply IH.
Qed.

Lemma openai_toolCalls_deltas chunks :
  openai_toolCalls chunks
  = fold_left openai_tool_call_delta (stream_deltas chunks) [].
Proof.
  unfold openai_toolCalls, call.
  by destruct (openai_chunks_deltas chunks "" [] (Run.mk tt []))
    as (acc & r & ->).
Qed.

(** X5. A tool call streamed in fragments is put together slot by slot:
    once the stream is read, slot [index] of the array holds the call
    whose name and arguments are the concatenation, in arrival order, of
    the fragments addressed to that index, and whose id is the last
    non-empty id among them; fragments for other indices do not touch
    it, and a slot no fragment addressed is a hole. *)
Theorem openai_tool_call_fragments (chunks : list OpenAI.Chunk.t) (index : nat) :
  Array_get (openai_toolCalls chunks) index
  = assembled (deltas_at index (stream_deltas chunks)).
Proof.
  rewrite openai_toolCalls_deltas, fold_left_openai_tool_call_delta.
  unfold assembled.
  destruct (deltas_at index (stream_deltas chunks)) as [| d ds] eqn:E.
  { by destruct index. }
  rewrite fold_left_grown.
  replace (Array_get [] index) with (None : option Accumulated.t)
    by by destruct index.
  done.
Qed.

Lemma fold_left_openai_tool_call_delta_length deltas toolCalls :
  (length toolCalls ≤ length (fold_left openai_tool_call_delta deltas toolCalls))%nat
  ∧ ∀ d, d ∈ deltas →
         OpenAI.ToolCallDelta.index d
         < length (fold_left openai_tool_call_delta deltas toolCalls).
Proof.
  revert toolCalls. induction deltas as [| d deltas IH]; intros toolCalls.
  { split; [done |]. intros d Hd. by apply elem_of_nil in Hd. }
  cbn [fold_left]. destruct (IH (openai_tool_call_delta toolCalls d)) as [Hle Hin].
  rewrite openai_tool_call_delta_grown in Hle, Hin |- *.
  pose proof (Array_set_length toolCalls (OpenAI.ToolCallDelta.index d)
                (grown (default blank
                          (Array_get toolCalls (OpenAI.ToolCallDelta.index d))) d))
    as [Hgrow Hslot].
  split; [lia |].
  intros d' [-> | Hd']%elem_of_cons; [lia | by apply Hin].
Qed.

Lemma for_of_emit_tool_use_hole `{!JSON} toolCalls index (r : Run.t OpenAIAdapter) :
  toolCalls !! index = Some None →
  ∃ e : JsError,
    for_of toolCalls openai_emit_tool_use r
    = (Threw e,
       Run.mk (Run.self r)
         (Run.emitted r
            ++ map tool_use (reported_calls (toolNameMap (Run.self r)) toolCalls)))
    ∧ (length (reported_calls (toolNameMap (Run.self r)) toolCalls) ≤ index)%nat.
Proof.
  revert index r.
  induction toolCalls as [| toolCall rest IH]; intros index [this es] Hhole.
  { done. }
  destruct toolCall as [toolCall |]; simpl.
  - destruct index as [| index]; [done |]. simpl in Hhole.
    unfold bind at 1. unfold bind at 1. unfold get at 1. simpl.
    unfold bind at 1. unfold sync at 1.
    destruct (JSON_parse _) as [e | input]; simpl.
    + exists e. rewrite app_nil_r. split; [done | lia].
    + destruct (IH index
                  (Run.mk this
                     (es ++ [tool_use
                               (ToolCall.mk (Accumulated.id toolCall)
                                  (or_default
                                     (toolNameMap this
                                        !! FunctionCall.name
                                             (Accumulated.function toolCall))
                                     (FunctionCall.name
                                        (Accumulated.function toolCall)))
                                  input)])) Hhole)
        as (e & -> & Hlen).
      exists e. simpl in *. rewrite <- app_assoc. split; [done | lia].
  - eexists. unfold bind, throw. rewrite app_nil_r. split; [done | lia].
Qed.

Lemma fold_left_openai_tool_call_delta_slot deltas d :
  d ∈ deltas →
  ∃ entry,
    fold_left openai_tool_call_delta deltas [] !! OpenAI.ToolCallDelta.index d
    = Some (Some entry).
Proof.
  intros Hd.
  pose proof (fold_left_openai_tool_call_delta deltas []
                (OpenAI.ToolCallDelta.index d)) as Hget.
  assert (d ∈ deltas_at (OpenAI.ToolCallDelta.index d) deltas) as Hat
    by (by apply list_elem_of_filter).
  destruct (deltas_at _ deltas) as [| d0 ds]; [by apply elem_of_nil in Hat |].
  unfold Array_get in Hget.
  destruct (fold_left openai_tool_call_delta deltas [] !! _) as [[entry |] |];
    [by exists entry | done | done].
Qed.

(** X6. A streamed reply that skips an index fails.  When some fragment
    addresses an array index (a number below [2^32 - 1]) above one that
    no fragment addresses, the array of calls has a hole there; the
    final loop reports the calls before the hole at most, then throws
    on it: the caller gets one [error] event, no completion, and at most
    as many [tool_use] events as the index of the hole -- the calls
    after it are lost. *)
Theorem openai_skipped_index_fails `{!JSON} (this : OpenAIAdapter)
    (messages : list AIMessage.t) (tools : list AITool.t) (systemPrompt : string)
    (stream : OpenAI.Stream.t) (d : OpenAI.ToolCallDelta.t) (index : nat) :
  openai_client this (openai_request this messages tools systemPrompt)
  = Returned stream →
  OpenAI.Stream.failure stream = None →
  d ∈ stream_deltas (OpenAI.Stream.chunks stream) →
  index < OpenAI.ToolCallDelta.index d →
  (N.of_nat (OpenAI.ToolCallDelta.index d) < Array_limit)%N →
  deltas_at index (stream_deltas (OpenAI.Stream.chunks stream)) = [] →
  let es := events_of (call (sendMessage messages tools systemPrompt) this) in
  Array_elements (openai_toolCalls (OpenAI.Stream.chunks stream)) !! index
  = Some None
  ∧ count is_error es = 1
  ∧ completions es = []
  ∧ (length (tool_uses es) ≤ index)%nat.
Proof.
  intros Hclient Hfailure Hd Hindex Hlimit Hnone es. subst es.
  unfold events_of, call, sendMessage, OpenAIAdapter_AIAdapter, try_catch.
  pose proof (OpenAIAdapter_try_run messages tools systemPrompt this) as Hrun.
  unfold call in Hrun. rewrite Hrun. clear Hrun. simpl. rewrite Hclient.
  destruct (openai_chunks_toolCalls (OpenAI.Stream.chunks stream)
              (Run.mk (rebuilt this tools) [message_start]))
    as (acc & shown & -> & Hshown).
  rewrite Hfailure. simpl.
  destruct (fold_left_openai_tool_call_delta_slot
              (stream_deltas (OpenAI.Stream.chunks stream)) d Hd)
    as (entry & Hentry).
  rewrite <- openai_toolCalls_deltas in Hentry.
  assert (Hstored : openai_toolCalls (OpenAI.Stream.chunks stream) !! index
                    = Some None).
  { pose proof (fold_left_openai_tool_call_delta
                  (stream_deltas (OpenAI.Stream.chunks stream)) [] index) as Hget.
    rewrite <- openai_toolCalls_deltas, Hnone in Hget.
    replace (Array_get [] index) with (None : option Accumulated.t) in Hget
      by by destruct index.
    unfold Array_get in Hget.
    destruct (lookup_lt_is_Some_2
                (openai_toolCalls (OpenAI.Stream.chunks stream)) index)
      as [[other |] Hother]; [| | done].
    - apply lookup_lt_Some in Hentry. lia.
    - rewrite Hother in Hget. done. }
  assert (Hhole : Array_elements (openai_toolCalls (OpenAI.Stream.chunks stream))
                    !! index = Some None).
  { rewrite (Array_elements_before _ index (OpenAI.ToolCallDelta.index d) entry);
      [done | lia | done | done]. }
  split; [exact Hhole |].
  rewrite bool_decide_eq_true_2 by (apply lookup_lt_Some in Hhole; lia).
  destruct (for_of_emit_tool_use_hole
              (Array_elements (openai_toolCalls (OpenAI.Stream.chunks stream)))
              index
              (Run.mk (rebuilt this tools) (message_start :: shown)) Hhole)
    as (e & -> & Hreported).
  unfold catch_handler. rewrite onEvent_run. simpl in *.
  rewrite count_cons, !count_app, !completions_app, !tool_uses_app, count_cons,
    count_nil.
  rewrite (count_none is_error shown)
    by (eapply Forall_impl; [exact Hshown |]; by intros []).
  rewrite (count_none is_error (map tool_use _))
    by (apply Forall_forall; intros x (tc & -> & _)%list_elem_of_fmap; done).
  rewrite completions_updates, completions_map_tool_use by done.
  rewrite tool_uses_updates, tool_uses_map_tool_use by done.
  simpl. rewrite app_nil_r. done.
Qed.

Lemma openai_skipped_index_fails_witness :
  let this := example_OpenAI [example_call_chunk 1 "call_1" "fs_list" "{}"] in
  let es :=
    events_of (call (@sendMessage _ (@OpenAIAdapter_AIAdapter example_JSON)
                       example_prompt [example_tool "fs.list"] "") this) in
  Array_elements
    (openai_toolCalls [example_call_chunk 1 "call_1" "fs_list" "{}"]) !! 0
  = Some None
  ∧ count is_error es = 1 ∧ completions es = [] ∧ (length (tool_uses es) ≤ 0)%nat.
Proof.
  intros this es.
  apply (@openai_skipped_index_fails example_JSON this example_prompt
           [example_tool "fs.list"] ""
           (OpenAI.Stream.mk [example_call_chunk 1 "call_1" "fs_list" "{}"] None)
           (OpenAI.ToolCallDelta.mk 1 (Some "call_1")
              (Some (OpenAI.FunctionDelta.mk (Some "fs_list") (Some "{}"))))
           0 eq_refl eq_refl).
  - apply list_elem_of_here.
  - simpl. lia.
  - reflexivity.
  - reflexivity.
Defined.

(** A number that is no array index leaves the array empty: the one
    call of the reply is stored as a property, the final loop does not
    run, and the reply is completed as if it held no call. *)
Lemma openai_index_beyond_array `{!JSON} (this : OpenAIAdapter)
    (messages : list AIMessage.t) (tools : list AITool.t) (systemPrompt : string)
    (stream : OpenAI.Stream.t) (d : OpenAI.ToolCallDelta.t) :
  openai_client this (openai_request this messages tools systemPrompt)
  = Returned stream →
  OpenAI.Stream.failure stream = None →
  stream_deltas (OpenAI.Stream.chunks stream) = [d] →
  (Array_limit ≤ N.of_nat (OpenAI.ToolCallDelta.index d))%N →
  let es := events_of (call (sendMessage messages tools systemPrompt) this) in
  tool_uses es = []
  ∧ last es
    = Some (message_complete
              (concat_text (content_fragments (OpenAI.Stream.chunks stream)))).
Proof.
  intros Hclient Hfailure Hdeltas Hlimit es. subst es.
  assert (Hnone : Array_elements (openai_toolCalls (OpenAI.Stream.chunks stream))
                  = []).
  { rewrite openai_toolCalls_deltas, Hdeltas. cbn [fold_left].
    rewrite openai_tool_call_delta_grown. by apply Array_elements_beyond. }
  split.
  { by rewrite OpenAIAdapter_tool_uses, Hclient, Hfailure, Hnone. }
  unfold events_of, call, sendMessage, OpenAIAdapter_AIAdapter, try_catch.
  pose proof (OpenAIAdapter_try_run messages tools systemPrompt this) as Hrun.
  unfold call in Hrun. rewrite Hrun. clear Hrun. simpl. rewrite Hclient.
  destruct (openai_chunks_toolCalls (OpenAI.Stream.chunks stream)
              (Run.mk (rebuilt this tools) [message_start]))
    as (acc & shown & Hchunks & _).
  destruct (openai_chunks_text (OpenAI.Stream.chunks stream) "" []
              (Run.mk (rebuilt this tools) [message_start]))
    as (toolCalls' & Htext).
  rewrite Htext in Hchunks. injection Hchunks as <- -> Hshown.
  rewrite Htext, Hfailure, Hnone. simpl.
  rewrite app_comm_cons. apply last_snoc.
Qed.

(** * Further properties of the registry *)

(** ** Maps in insertion order *)

Lemma Map_get_set {V} (k k' : string) (v : V) m :
  Map_get k (Map_set k' v m) = if decide (k' = k) then Some v else Map_get k m.
Proof.
  induction m as [| [k0 v0] m IH]; simpl.
  - done.
  - destruct (decide (k0 = k')) as [-> | Hne]; simpl.
    + by destruct (decide (k' = k)).
    + destruct (decide (k0 = k)) as [-> | Hne'].
      * by rewrite decide_False by done.
      * done.
Qed.

Lemma Map_set_keys {V} (k : string) (v : V) m :
  (Map_set k v m).*1 = if decide (k ∈ m.*1) then m.*1 else m.*1 ++ [k].
Proof.
  induction m as [| [k0 v0] m IH].
  - destruct (decide (k ∈ ([] : list (string * V)).*1)) as [Hin | _];
      [by apply elem_of_nil in Hin | done].
  - destruct (decide (k ∈ ((k0, v0) :: m).*1)) as [Hin | Hout];
      cbn [Map_set]; destruct (decide (k0 = k)) as [-> | Hne].
    + reflexivity.
    + change (((k0, v0) :: Map_set k v m).*1) with (k0 :: (Map_set k v m).*1).
      rewrite IH. apply elem_of_cons in Hin as [-> | Hin]; [done |].
      by rewrite decide_True.
    + exfalso. apply Hout. apply list_elem_of_here.
    + change (((k0, v0) :: Map_set k v m).*1) with (k0 :: (Map_set k v m).*1).
      rewrite IH. rewrite decide_False; [done |].
      intros Hin. apply Hout. by apply list_elem_of_further.
Qed.

Lemma Map_set_elem_of {V} (k : string) (v : V) m kv :
  kv ∈ Map_set k v m → kv = (k, v) ∨ kv ∈ m.
Proof.
  induction m as [| [k0 v0] m IH]; simpl.
  - intros ->%list_elem_of_singleton. by left.
  - destruct (decide (k0 = k)) as [-> | Hne].
    + intros [-> | Hin]%elem_of_cons; [by left |].
      right. by apply list_elem_of_further.
    + intros [-> | Hin]%elem_of_cons.
      * right. apply list_elem_of_here.
      * destruct (IH Hin) as [-> | Hin']; [by left |].
        right. by apply list_elem_of_further.
Qed.

Lemma Map_get_None {V} (k : string) (m : list (string * V)) :
  k ∉ m.*1 → Map_get k m = None.
Proof.
  induction m as [| [k0 v0] m IH]; simpl; [done |].
  intros Hout. rewrite decide_False.
  - apply IH. intros Hin. apply Hout. by apply list_elem_of_further.
  - intros ->. apply Hout. apply list_elem_of_here.
Qed.

Lemma Map_get_elem_of {V} (k : string) (v : V) m :
  Map_get k m = Some v → (k, v) ∈ m.
Proof.
  induction m as [| [k0 v0] m IH]; simpl; [done |].
  destruct (decide (k0 = k)) as [-> | Hne].
  - intros [= ->]. apply list_elem_of_here.
  - intros Hget. apply list_elem_of_further. by apply IH.
Qed.

Lemma elem_of_Map_get {V} (k : string) (v : V) m :
  NoDup m.*1 → (k, v) ∈ m → Map_get k m = Some v.
Proof.
  induction m as [| [k0 v0] m IH]; simpl.
  - intros _ Hin. by apply elem_of_nil in Hin.
  - intros [Hout Hnodup]%NoDup_cons [[= -> ->] | Hin]%elem_of_cons.
    + by rewrite decide_True.
    + rewrite decide_False; [by apply IH |].
      intros ->. apply Hout. apply list_elem_of_fmap. by exists (k, v).
Qed.

Lemma NoDup_keys_functional {V} (k : string) (v1 v2 : V) m :
  NoDup m.*1 → (k, v1) ∈ m → (k, v2) ∈ m → v1 = v2.
Proof.
  intros Hkeys H1 H2.
  apply (elem_of_Map_get _ _ _ Hkeys) in H1.
  apply (elem_of_Map_get _ _ _ Hkeys) in H2. congruence.
Qed.

(** ** Registering and unregistering *)

Section Registering.
Context `{!PermissionManager} {A : Type}.
Implicit Types w : ToolRegistry A.

Lemma for_of_set_registeredTools {X} (f : X → list (string * Registration.t)
                                        → list (string * Registration.t))
    (xs : list X) w :
  for_of xs (λ x, modify (set_registeredTools (f x))) w
  = (Returned tt,
     set_registeredTools (λ m, fold_left (λ m x, f x m) xs m) w).
Proof.
  revert w. induction xs as [| x xs IH]; intros w.
  - by destruct w.
  - cbn [for_of fold_left]. unfold bind at 1. unfold modify at 1.
    rewrite IH. by destruct w.
Qed.

Lemma registerExtension_run extensionId tools w :
  registerExtension extensionId tools w
  = (Returned tt,
     set_trace
       (λ t, t ++ [console_log ("Registering tools from extension: "
                                +:+ extensionId);
                   console_log ("Registered " +:+ pretty (length tools)
                                +:+ " tools from " +:+ extensionId)])
       (set_registeredTools
          (λ m, fold_left
                  (λ m tool, Map_set (ToolDescriptor.name tool)
                               (Registration.mk extensionId tool) m)
                  tools m)
          w)).
Proof.
  unfold registerExtension. unfold bind at 1. unfold effect at 1.
  unfold modify at 1. unfold bind at 1.
  rewrite for_of_set_registeredTools. unfold effect, modify.
  destruct w. unfold set_trace, set_registeredTools. simpl.
  by rewrite <- app_assoc.
Qed.

Lemma fold_left_Map_set_get extensionId tools m name :
  Map_get name
    (fold_left (λ m tool, Map_set (ToolDescriptor.name tool)
                            (Registration.mk extensionId tool) m) tools m)
  = match last_named name tools with
    | Some descriptor => Some (Registration.mk extensionId descriptor)
    | None => Map_get name m
    end.
Proof.
  induction tools as [| tool tools IH] using rev_ind.
  { done. }
  rewrite fold_left_app. cbn [fold_left]. rewrite Map_get_set.
  unfold last_named in *. rewrite filter_app, filter_cons, filter_nil.
  destruct (decide (ToolDescriptor.name tool = name)) as [Heq | Hne].
  - by rewrite last_snoc.
  - by rewrite app_nil_r.
Qed.

Lemma Map_set_well_formed extensionId tool m :
  well_formed m →
  well_formed (Map_set (ToolDescriptor.name tool)
                 (Registration.mk extensionId tool) m).
Proof.
  intros [Hkeys Hnames]. split.
  - rewrite Map_set_keys. case_decide as Hin; [done |].
    apply NoDup_app. split; [done |]. split; [| apply NoDup_singleton].
    intros k Hk ->%list_elem_of_singleton. done.
  - apply Forall_forall. intros kv [-> | Hin]%Map_set_elem_of; [done |].
    by eapply Forall_forall in Hnames.
Qed.

Lemma fold_left_Map_set_well_formed extensionId tools m :
  well_formed m →
  well_formed
    (fold_left (λ m tool, Map_set (ToolDescriptor.name tool)
                            (Registration.mk extensionId tool) m) tools m).
Proof.
  revert m. induction tools as [| tool tools IH]; intros m Hm; [done |].
  cbn [fold_left]. apply IH. by apply Map_set_well_formed.
Qed.

(** *** [unregisterExtension] *)

Lemma filter_iff_elem {X} (P Q : X → Prop)
    `{!∀ x, base.Decision (P x), !∀ x, base.Decision (Q x)} (l : list X) :
  (∀ x, x ∈ l → P x ↔ Q x) → filter P l = filter Q l.
Proof.
  induction l as [| x l IH]; intros Hiff; [done |].
  rewrite !filter_cons.
  assert (Hx : P x ↔ Q x) by (apply Hiff, list_elem_of_here).
  rewrite IH by (intros y Hy; apply Hiff; by apply list_elem_of_further).
  destruct (decide (P x)), (decide (Q x)); tauto.
Qed.

Lemma for_of_unregister extensionId (entries : list (string * Registration.t)) w :
  for_of entries
    (λ entry,
       let '(toolName, registration) := entry in
       when (bool_decide (Registration.extensionId registration = extensionId))
         (modify (set_registeredTools (Map_delete toolName)))) w
  = (Returned tt,
     set_registeredTools
       (λ m, fold_left
               (λ m (entry : string * Registration.t),
                  if bool_decide (Registration.extensionId entry.2 = extensionId)
                  then Map_delete entry.1 m else m)
               entries m) w).
Proof.
  revert w. induction entries as [| [toolName registration] entries IH]; intros w.
  - by destruct w.
  - cbn [for_of fold_left fst snd]. unfold bind at 1.
    case_bool_decide as Howner; unfold when, modify, ret; rewrite IH;
      by destruct w.
Qed.

Lemma fold_left_unregister extensionId
    (entries m : list (string * Registration.t)) :
  fold_left
    (λ m (entry : string * Registration.t),
       if bool_decide (Registration.extensionId entry.2 = extensionId)
       then Map_delete entry.1 m else m)
    entries m
  = filter
      (λ kv, kv.1 ∉ (filter (λ entry, Registration.extensionId entry.2 = extensionId)
                       entries).*1) m.
Proof.
  revert m. induction entries as [| entry entries IH]; intros m.
  - cbn [fold_left]. induction m as [| kv m IHm]; [done |].
    rewrite filter_cons_True; [by rewrite <- IHm |]. apply not_elem_of_nil.
  - cbn [fold_left]. rewrite IH. rewrite filter_cons.
    case_bool_decide as Howner.
    + rewrite decide_True by done.
      unfold Map_delete. rewrite list_filter_filter. apply list_filter_iff.
      intros kv. rewrite fmap_cons, not_elem_of_cons. tauto.
    + by rewrite decide_False by done.
Qed.

Lemma unregisterExtension_run extensionId w :
  NoDup (registeredTools w).*1 →
  unregisterExtension extensionId w
  = (Returned tt,
     set_registeredTools (others extensionId)
       (set_trace
          (λ t, t ++ [console_log ("Unregistering extension: " +:+ extensionId)])
          w)).
Proof.
  intros Hkeys. unfold unregisterExtension.
  unfold bind at 1. unfold effect at 1. unfold modify at 1.
  unfold bind at 1. unfold get at 1.
  rewrite for_of_unregister.
  destruct w as [tools adapter0 history pm ports pending trace0 clock0 ps np].
  cbn in Hkeys |- *. unfold set_registeredTools, set_trace. cbn. do 2 f_equal.
  rewrite fold_left_unregister. unfold others. apply filter_iff_elem.
  intros [k registration] Hin. cbn. split.
  - intros Hout Howner. apply Hout. apply list_elem_of_fmap.
    exists (k, registration). split; [done |]. by apply list_elem_of_filter.
  - intros Hother ((k' & registration') & Hk & [Howner Hin']%list_elem_of_filter)%list_elem_of_fmap.
    cbn in Hk, Howner. subst k'.
    by rewrite (NoDup_keys_functional _ _ _ _ Hkeys Hin Hin') in Hother.
Qed.

Lemma registerExtension_registeredTools extensionId tools w :
  registeredTools (registerExtension extensionId tools w).2
  = fold_left (λ m tool, Map_set (ToolDescriptor.name tool)
                           (Registration.mk extensionId tool) m)
      tools (registeredTools w).
Proof. by rewrite registerExtension_run. Qed.

Lemma unregisterExtension_registeredTools extensionId w :
  NoDup (registeredTools w).*1 →
  registeredTools (unregisterExtension extensionId w).2
  = others extensionId (registeredTools w).
Proof. intros Hkeys. by rewrite unregisterExtension_run. Qed.

Lemma others_keys extensionId m :
  NoDup m.*1 → NoDup (others extensionId m).*1.
Proof.
  intros Hkeys.
  assert (Hsub : (others extensionId m).*1 `sublist_of` m.*1)
    by (apply fmap_sublist, sublist_filter).
  exact (sublist_NoDup _ _ Hkeys Hsub).
Qed.

Lemma others_well_formed extensionId m :
  well_formed m → well_formed (others extensionId m).
Proof.
  intros [Hkeys Hnames]. split.
  - by apply others_keys.
  - apply Forall_forall. intros kv [_ Hin]%list_elem_of_filter.
    by eapply Forall_forall in Hnames.
Qed.

Lemma Map_get_others extensionId m name :
  NoDup m.*1 →
  Map_get name (others extensionId m)
  = match Map_get name m with
    | Some registration =>
        if decide (Registration.extensionId registration = extensionId)
        then None else Some registration
    | None => None
    end.
Proof.
  intros Hkeys.
  assert (Hkeys' : NoDup (others extensionId m).*1).
  { by apply others_keys. }
  destruct (Map_get name m) as [registration |] eqn:Hget.
  - apply Map_get_elem_of in Hget. case_decide as Howner.
    + destruct (Map_get name (others extensionId m)) as [registration' |] eqn:Hget';
        [| done].
      apply Map_get_elem_of, list_elem_of_filter in Hget' as [Hother Hin].
      rewrite (NoDup_keys_functional _ _ _ _ Hkeys Hin Hget) in Hother. done.
    + apply elem_of_Map_get; [done |]. by apply list_elem_of_filter.
  - destruct (Map_get name (others extensionId m)) as [registration' |] eqn:Hget';
      [| done].
    apply Map_get_elem_of, list_elem_of_filter in Hget' as [_ Hin].
    apply (elem_of_Map_get _ _ _ Hkeys) in Hin. congruence.
Qed.

End Registering.

Section RegisteredTools.
Context `{!PermissionManager} {A : Type}.
Implicit Types w : ToolRegistry A.

(** X7. Registering never fails, and the last registration of a name
    wins: afterwards a name sent in [tools] belongs to [extensionId], with
    the last descriptor sent under that name -- whoever owned it before --
    and every other name is as it was.  The stored permissions are not
    touched. *)
Theorem registerExtension_last_wins w (extensionId : string)
    (tools : list ToolDescriptor.t) (name : string) :
  let r := registerExtension extensionId tools w in
  r.1 = Returned tt
  ∧ Map_get name (registeredTools r.2)
    = match last_named name tools with
      | Some descriptor => Some (Registration.mk extensionId descriptor)
      | None => Map_get name (registeredTools w)
      end
  ∧ permissionManager r.2 = permissionManager w.
Proof.
  cbn zeta. rewrite registerExtension_run. cbn [fst snd].
  split; [done |]. split; [| done].
  apply fold_left_Map_set_get.
Qed.

(** X8. The map of registered tools stays well formed: if no name occurs
    twice and every entry is filed under the name of its descriptor, the
    same holds after [registerExtension] and after [unregisterExtension],
    whatever they are called with. *)
Theorem registeredTools_stay_well_formed w (extensionId : string)
    (tools : list ToolDescriptor.t) :
  well_formed (registeredTools w) →
  well_formed (registeredTools (registerExtension extensionId tools w).2)
  ∧ well_formed (registeredTools (unregisterExtension extensionId w).2).
Proof.
  intros Hw. split.
  - rewrite registerExtension_run. cbn [snd].
    by apply fold_left_Map_set_well_formed.
  - rewrite unregisterExtension_run by apply Hw. cbn [snd].
    by apply others_well_formed.
Qed.

(** X9. What is offered to the model can be dispatched.  In a well
    formed map [getAITools] changes nothing and returns one tool per
    registration, in registration order, under pairwise different names;
    a name is offered exactly when [executeTool] finds a registration
    for it, the tool offered bearing the description and the parameters of
    that registration; and [getRegisteredTools] lists the same names in
    the same order, each with the owner and the descriptor that
    [executeTool] finds. *)
Theorem getAITools_offers_registered w :
  well_formed (registeredTools w) →
  getAITools w = (Returned (offered (registeredTools w)), w)
  ∧ NoDup (AITool.name <$> offered (registeredTools w))
  ∧ (∀ t : AITool.t,
       t ∈ offered (registeredTools w) ↔
       ∃ registration,
         Map_get (AITool.name t) (registeredTools w) = Some registration
         ∧ t = AITool.mk
                 (ToolDescriptor.name (Registration.descriptor registration))
                 (ToolDescriptor.description (Registration.descriptor registration))
                 (ToolDescriptor.parameters (Registration.descriptor registration)))
  ∧ ∃ listed,
      getRegisteredTools w = (Returned listed, w)
      ∧ RegisteredTool.name <$> listed
        = AITool.name <$> offered (registeredTools w)
      ∧ ∀ entry,
          entry ∈ listed →
          Map_get (RegisteredTool.name entry) (registeredTools w)
          = Some (Registration.mk (RegisteredTool.extensionId entry)
                    (RegisteredTool.descriptor entry)).
Proof.
  intros [Hkeys Hnames].
  assert (Hsame : AITool.name <$> offered (registeredTools w)
                  = (registeredTools w).*1).
  { clear Hkeys. induction Hnames as [| kv m Hkv _ IH]; [done |].
    change (AITool.name <$> offered (kv :: m))
      with (ToolDescriptor.name (Registration.descriptor kv.2)
            :: (AITool.name <$> offered m)).
    rewrite IH, <- Hkv. done. }
  split; [reflexivity |]. split; [by rewrite Hsame |]. split.
  - intros t. unfold offered. rewrite list_elem_of_fmap. split.
    + intros ([k registration] & -> & Hin). exists registration. split; [| done].
      cbn. apply elem_of_Map_get; [done |].
      eapply Forall_forall in Hnames; [| exact Hin]. cbn in Hnames.
      by rewrite <- Hnames.
    + intros (registration & Hget & ->). cbn in Hget.
      apply Map_get_elem_of in Hget. by eexists (_, registration).
  - eexists. split; [reflexivity |]. split.
    + rewrite Hsame, <- list_fmap_compose. done.
    + intros entry ([k [owner descriptor]] & -> & Hin)%list_elem_of_fmap. cbn.
      by apply elem_of_Map_get.
Qed.

(** X10. Unregistering removes what the extension owns, and nothing
    else: the remaining registrations are those of the other extensions,
    in their order, so a name resolves afterwards exactly when it did
    before and belonged to somebody else.  It never fails. *)
Theorem unregisterExtension_removes_own w (extensionId : string) :
  NoDup (registeredTools w).*1 →
  let r := unregisterExtension extensionId w in
  r.1 = Returned tt
  ∧ registeredTools r.2 = others extensionId (registeredTools w)
  ∧ (∀ name,
       Map_get name (registeredTools r.2)
       = match Map_get name (registeredTools w) with
         | Some registration =>
             if decide (Registration.extensionId registration = extensionId)
             then None else Some registration
         | None => None
         end)
  ∧ permissionManager r.2 = permissionManager w.
Proof.
  intros Hkeys r. subst r. rewrite unregisterExtension_run by done.
  cbn [fst snd]. split; [done |]. split; [done |]. split; [| done].
  intros name. by apply Map_get_others.
Qed.

(** X11. A tool that was taken over is not given back.  When one
    extension registers a tool and then another registers a tool of the
    same name, the name belongs to the second; if the first unregisters,
    the second keeps it; if the second unregisters, the name is gone,
    although the first never unregistered. *)
Theorem taken_over_tool_is_not_restored w (first second : string)
    (tool1 tool2 : ToolDescriptor.t) :
  NoDup (registeredTools w).*1 →
  first ≠ second →
  ToolDescriptor.name tool2 = ToolDescriptor.name tool1 →
  let name := ToolDescriptor.name tool1 in
  let w1 := (registerExtension first [tool1] w).2 in
  let w2 := (registerExtension second [tool2] w1).2 in
  Map_get name (registeredTools w1) = Some (Registration.mk first tool1)
  ∧ Map_get name (registeredTools w2) = Some (Registration.mk second tool2)
  ∧ Map_get name (registeredTools (unregisterExtension first w2).2)
    = Some (Registration.mk second tool2)
  ∧ Map_get name (registeredTools (unregisterExtension second w2).2) = None.
Proof.
  intros Hkeys Hne Hname name w1 w2. subst name w1 w2.
  set (m1 := Map_set (ToolDescriptor.name tool1)
               (Registration.mk first tool1) (registeredTools w)).
  set (m2 := Map_set (ToolDescriptor.name tool2)
               (Registration.mk second tool2) m1).
  assert (Hw1 : registeredTools (registerExtension first [tool1] w).2 = m1)
    by by rewrite registerExtension_registeredTools.
  assert (Hw2 : registeredTools
                  (registerExtension second [tool2]
                     (registerExtension first [tool1] w).2).2 = m2)
    by by rewrite registerExtension_registeredTools, Hw1.
  assert (Hk1 : NoDup m1.*1).
  { subst m1. rewrite Map_set_keys. case_decide as Hin; [done |].
    apply NoDup_app. split; [done |]. split; [| apply NoDup_singleton].
    by intros k Hk ->%list_elem_of_singleton. }
  assert (Hk2 : NoDup m2.*1).
  { subst m2. rewrite Map_set_keys. case_decide as Hin; [done |].
    apply NoDup_app. split; [done |]. split; [| apply NoDup_singleton].
    by intros k Hk ->%list_elem_of_singleton. }
  assert (Hget2 : Map_get (ToolDescriptor.name tool1) m2
                  = Some (Registration.mk second tool2)).
  { subst m2. rewrite Map_get_set. by rewrite decide_True. }
  rewrite !unregisterExtension_registeredTools by (by rewrite Hw2).
  rewrite Hw1, Hw2, !Map_get_others, Hget2 by done.
  cbn [Registration.extensionId].
  rewrite decide_False by done. rewrite decide_True by done.
  split; [| done].
  subst m1. rewrite Map_get_set. by rewrite decide_True.
Qed.

End RegisteredTools.

Lemma example_owners_well_formed : well_formed example_owners.
Proof.
  split.
  - apply NoDup_cons. split; [| apply NoDup_singleton].
    by intros [=]%list_elem_of_singleton.
  - repeat constructor.
Qed.

Lemma registeredTools_stay_well_formed_witness :
  let w :=
    @example_registry (example_PermissionManager allows) Adapter []
      example_adapter example_owners in
  well_formed
    (registeredTools
       (registerExtension "ext-1"
          [example_descriptor "fs.list"; example_descriptor "fs.read"] w).2)
  ∧ well_formed (registeredTools (unregisterExtension "ext-1" w).2).
Proof.
  intros w.
  apply (registeredTools_stay_well_formed w "ext-1"
           [example_descriptor "fs.list"; example_descriptor "fs.read"]).
  exact example_owners_well_formed.
Defined.

Lemma getAITools_offers_registered_witness :
  let w :=
    @example_registry (example_PermissionManager allows) Adapter []
      example_adapter example_owners in
  getAITools w
  = (Returned [AITool.mk "nav.click" "" (JObject []);
               AITool.mk "fs.list" "" (JObject [])], w)
  ∧ NoDup ["nav.click"; "fs.list"].
Proof.
  intros w.
  destruct (getAITools_offers_registered w) as (Hrun & Hnames & _ & _).
  - exact example_owners_well_formed.
  - split; [exact Hrun | exact Hnames].
Defined.

Lemma unregisterExtension_removes_own_witness :
  let w :=
    @example_registry (example_PermissionManager allows) Adapter []
      example_adapter example_owners in
  registeredTools (unregisterExtension "ext-1" w).2
  = [example_registration "ext-2" "fs.list"].
Proof.
  intros w.
  destruct (unregisterExtension_removes_own w "ext-1") as (_ & Hrest & _).
  - apply example_owners_well_formed.
  - exact Hrest.
Defined.

Lemma taken_over_tool_is_not_restored_witness :
  let w :=
    @example_registry (example_PermissionManager allows) Adapter []
      example_adapter [] in
  let w2 :=
    (registerExtension "ext-2" [example_descriptor "fs.list"]
       (registerExtension "ext-1" [example_descriptor "fs.list"] w).2).2 in
  Map_get "fs.list" (registeredTools (unregisterExtension "ext-2" w2).2) = None.
Proof.
  intros w w2.
  destruct (taken_over_tool_is_not_restored w "ext-1" "ext-2"
              (example_descriptor "fs.list") (example_descriptor "fs.list"))
    as (_ & _ & _ & Hgone).
  - cbn. constructor.
  - done.
  - reflexivity.
  - exact Hgone.
Defined.

(** ** Messages of other extensions *)

Section ExternalMessages.
Context `{!PermissionManager} {A : Type}.
Implicit Types w : ToolRegistry A.

Lemma bind_effect {R} (e : Effect) (k : unit → M (ToolRegistry A) R) w :
  bind (effect e) k w = k tt (set_trace (λ t, t ++ [e]) w).
Proof. reflexivity. Qed.

Lemma for_of_register_unchecked extensionId
    (tools : list (option ToolDescriptor.t)) w :
  for_of tools (λ element,
    match element with
    | None => throw (TypeError_undefined "tool")
    | Some descriptor =>
        modify (set_registeredTools
                  (Map_set (ToolDescriptor.name descriptor)
                     (Registration.mk extensionId descriptor)))
    end) w
  = (if has_null tools then Threw (TypeError_undefined "tool") else Returned tt,
     set_registeredTools
       (λ m, fold_left (λ m tool, Map_set (ToolDescriptor.name tool)
                                    (Registration.mk extensionId tool) m)
               (before_null tools) m)
       w).
Proof.
  revert w. induction tools as [| [descriptor |] tools IH]; intros w.
  - by destruct w.
  - cbn [for_of has_null before_null fold_left]. unfold bind at 1.
    unfold modify at 1. rewrite IH. by destruct w.
  - cbn [for_of has_null before_null fold_left]. unfold bind, throw.
    by destruct w.
Qed.


(** On an array of descriptors the unchecked call is the typed one. *)
Lemma registerExtension_unchecked_typed extensionId tools w :
  registerExtension_unchecked extensionId (Some (map Some tools)) w
  = registerExtension extensionId tools w.
Proof.
  rewrite registerExtension_run. unfold registerExtension_unchecked.
  rewrite bind_effect. unfold bind at 1. rewrite for_of_register_unchecked.
  assert (Hnull : has_null (map Some tools) = false) by (by induction tools).
  assert (Hbefore : before_null (map Some tools) = tools).
  { induction tools as [| tool tools IH]; [done |]. simpl. by rewrite IH. }
  rewrite Hnull, Hbefore, length_map. unfold effect, modify.
  destruct w. unfold set_trace, set_registeredTools. simpl.
  by rewrite <- app_assoc.
Qed.


End ExternalMessages.


(** * Further properties of tool execution *)

Lemma first_match {X} (P : X → Prop) `{!∀ x, base.Decision (P x)} (l : list X) :
  Forall (λ x, ¬ P x) l
  ∨ ∃ before x after, l = before ++ x :: after
                      ∧ Forall (λ x, ¬ P x) before ∧ P x.
Proof.
  induction l as [| x l [Hnone | (before & y & after & -> & Hbefore & Hy)]].
  - by left.
  - destruct (decide (P x)) as [Hx | Hx].
    + right. by exists [], x, l.
    + left. by constructor.
  - destruct (decide (P x)) as [Hx | Hx].
    + right. by exists [], x, (before ++ y :: after).
    + right. exists (x :: before), y, after. repeat split; [| done].
      by constructor.
Qed.

Section Permission.
Context `{!JSON} `{!PermissionManager} `{!Browser}.
Context {A : Type} `{!AIAdapter A}.
Implicit Types w : ToolRegistry A.

Lemma requestPermissionFromUser_answered toolCall descriptor context w
    before response after :
  promise_fresh w →
  deliveries (clock w) = before ++ response :: after →
  Forall (λ r, PermissionResponseMessage.requestId r ≠ next_requestId w) before →
  PermissionResponseMessage.requestId response = next_requestId w →
  ∃ w', requestPermissionFromUser toolCall descriptor context w
        = (Returned (PermissionResponseMessage.granted response), w')
        ∧ pendingPermissionRequests w' !! next_requestId w = None.
Proof.
  intros Hfresh Hdeliveries Hbefore Hid.
  rewrite requestPermissionFromUser_run, Hdeliveries.
  rewrite map_app, <- app_assoc. cbn [map app].
  destruct (await_promise_others (next_requestId w) (next_promise w) before
              (PERMISSION_RESPONSE response
               :: map PERMISSION_RESPONSE after
                  ++ [timer_60000 (next_requestId w) (next_promise w)])
              (prompting w toolCall descriptor context))
    as (w1 & Hwaiting & ->); [by apply prompting_waiting_for | done |].
  by apply await_promise_response.
Qed.

Lemma requestPermissionFromUser_outcome toolCall descriptor context w :
  promise_fresh w →
  let r := requestPermissionFromUser toolCall descriptor context w in
  r.1 = Threw (Error "Permission request timeout")
  ∨ ∃ response,
      response ∈ deliveries (clock w)
      ∧ PermissionResponseMessage.requestId response = next_requestId w
      ∧ r.1 = Returned (PermissionResponseMessage.granted response).
Proof.
  intros Hfresh r. subst r.
  destruct (first_match
              (λ r, PermissionResponseMessage.requestId r = next_requestId w)
              (deliveries (clock w)))
    as [Hnone | (before & response & after & Hdeliveries & Hbefore & Hid)].
  - left.
    by destruct (requestPermissionFromUser_timeout toolCall descriptor context w)
      as (w' & -> & _).
  - right. exists response. split; [| split; [done |]].
    + rewrite Hdeliveries. apply elem_of_app. right. apply list_elem_of_here.
    + by destruct (requestPermissionFromUser_answered toolCall descriptor context
                     w before response after) as (w' & -> & _).
Qed.

Lemma handlePermissionResponse_logs response w :
  ∃ logs, trace (handlePermissionResponse response w).2 = trace w ++ logs
          ∧ Forall is_log logs.
Proof.
  destruct (pendingPermissionRequests w
              !! PermissionResponseMessage.requestId response) as [entry |] eqn:E.
  - rewrite (handlePermissionResponse_run _ _ _ E). cbn [snd].
    destruct (remember_decision_frame response entry
                (set_pendingPermissionRequests
                   (delete (PermissionResponseMessage.requestId response)) w))
      as (_ & _ & _ & _ & _ & _ & errors & Htrace & Herrors).
    exists errors. split; [exact Htrace |].
    eapply Forall_impl; [exact Herrors |]. by intros e (text & detail & ->).
  - rewrite (handlePermissionResponse_stale _ _ E). cbn [snd].
    eexists. split; [reflexivity |]. by repeat constructor.
Qed.

Lemma run_task_logs task w :
  ∃ logs, (run_task task w).1 = Returned tt
          ∧ trace (run_task task w).2 = trace w ++ logs
          ∧ Forall is_log logs.
Proof.
  destruct task as [response | requestId reject]; cbn [run_task].
  - destruct (handlePermissionResponse_logs response w) as (logs & Htrace & Hlogs).
    exists logs. split; [| done].
    destruct (pendingPermissionRequests w
                !! PermissionResponseMessage.requestId response) as [entry |] eqn:E.
    + by rewrite (handlePermissionResponse_run _ _ _ E).
    + by rewrite (handlePermissionResponse_stale _ _ E).
  - exists []. unfold permission_timeout, bind, get.
    destruct (pendingPermissionRequests w !! requestId);
      cbn; by rewrite app_nil_r.
Qed.

Lemma await_promise_logs promise tasks w :
  ∃ logs, trace (await_promise promise tasks w).2 = trace w ++ logs
          ∧ Forall is_log logs.
Proof.
  revert w. induction tasks as [| task tasks IH]; intros w.
  - exists []. cbn. unfold bind, get. destruct (promises w !! promise);
      cbn; by rewrite app_nil_r.
  - destruct (promises w !! promise) as [settled |] eqn:E.
    + rewrite (await_promise_settled _ _ _ _ E). exists [].
      cbn. by rewrite app_nil_r.
    + rewrite (await_promise_unsettled _ _ _ _ E).
      destruct (run_task_logs task w) as (logs & Hreturned & Htrace & Hlogs).
      destruct (run_task task w) as [c w1]. cbn in Hreturned, Htrace. subst c.
      destruct (IH w1) as (logs' & Htrace' & Hlogs').
      exists (logs ++ logs'). rewrite Htrace', Htrace, app_assoc.
      split; [done |]. by apply Forall_app.
Qed.

(** X13. The first answer that bears the id of a permission request
    decides it.  The request is posted once to every connected port;
    answers to other requests that come in before do not end the wait;
    the wait then ends with what the first answer to this request says,
    whatever follows -- a second answer, the timer -- and leaves no
    pending entry.  Apart from the posts, the wait only writes to the
    console. *)
Theorem requestPermissionFromUser_first_answer w (toolCall : ToolCall.t)
    (descriptor : ToolDescriptor.t) (context : ToolContext.t)
    (before after : list PermissionResponseMessage.t)
    (response : PermissionResponseMessage.t) :
  promise_fresh w →
  deliveries (clock w) = before ++ response :: after →
  Forall (λ r, PermissionResponseMessage.requestId r ≠ next_requestId w) before →
  PermissionResponseMessage.requestId response = next_requestId w →
  let r := requestPermissionFromUser toolCall descriptor context w in
  r.1 = Returned (PermissionResponseMessage.granted response)
  ∧ pendingPermissionRequests r.2 !! next_requestId w = None
  ∧ ∃ logs,
      trace r.2
      = trace w
        ++ map (λ port,
                  port_postMessage port
                    (PermissionRequestMessage.mk "PERMISSION_REQUEST"
                       (ToolCall.name toolCall) descriptor
                       (ToolCall.input toolCall) context (next_requestId w)))
             (connectedPorts w)
        ++ logs
      ∧ Forall is_log logs.
Proof.
  intros Hfresh Hdeliveries Hbefore Hid r. subst r.
  destruct (requestPermissionFromUser_answered toolCall descriptor context w
              before response after Hfresh Hdeliveries Hbefore Hid)
    as (w' & Hrun & Hgone).
  rewrite Hrun. cbn [fst snd]. split; [done |]. split; [done |].
  rewrite requestPermissionFromUser_run in Hrun.
  destruct (await_promise_logs (next_promise w)
              (map PERMISSION_RESPONSE (deliveries (clock w))
               ++ [timer_60000 (next_requestId w) (next_promise w)])
              (prompting w toolCall descriptor context))
    as (logs & Htrace & Hlogs).
  rewrite Hrun in Htrace. cbn [snd] in Htrace.
  exists logs. split; [| done]. rewrite Htrace.
  unfold prompting, set_pendingPermissionRequests, set_next_promise, set_trace,
    set_clock. cbn [trace connectedPorts]. by rewrite <- app_assoc.
Qed.

End Permission.


Section Execution.
Context `{!JSON} `{!PermissionManager} `{!Browser}.
Context {A : Type} `{!AIAdapter A}.
Implicit Types w : ToolRegistry A.

Lemma getToolContext_cases toolName w :
  (∀ e, (getToolContext toolName w).1 ≠ Threw e)
  ∧ permissionManager (getToolContext toolName w).2 = permissionManager w.
Proof.
  unfold getToolContext, bind, get, try_catch, tick, await, modify, ret, effect.
  destruct (isDomainAwareTool _ _); cbn; [| done].
  destruct (tabs_query _) as [[| tab tabs] | e |]; cbn; done.
Qed.

Lemma dispatch_cases toolCall registration w :
  ∃ errors,
    (∀ e, (dispatch toolCall registration w).1 ≠ Threw e)
    ∧ trace (dispatch toolCall registration w).2
      = trace w
        ++ sent_to_extension (Registration.extensionId registration)
             (execute_request toolCall)
           :: errors
    ∧ Forall is_log errors.
Proof.
  unfold dispatch, bind, get, try_catch, tick, await, modify, ret, effect, throw.
  cbn.
  destruct (runtime_sendMessage _ _ _) as [[response |] | e |]; cbn.
  - exists []. by destruct (truthy_opt _).
  - eexists [_]. split; [done |]. rewrite <- app_assoc. split; [done |].
    by repeat constructor.
  - eexists [_]. split; [done |]. rewrite <- app_assoc. split; [done |].
    by repeat constructor.
  - exists []. done.
Qed.

Lemma executeTool_run toolCall registration w :
  Map_get (ToolCall.name toolCall) (registeredTools w) = Some registration →
  executeTool toolCall w
  = match getToolContext (ToolCall.name toolCall) w with
    | (Returned context, w1) =>
        match checkPermission (permissionManager w1) (ToolCall.name toolCall)
                context (Registration.descriptor registration) with
        | Returned check =>
            if negb (PermissionCheck.allowed check)
               && negb (PermissionCheck.requiresPrompt check)
            then (Returned
                    (text_result
                       ("Permission denied for tool: " +:+ ToolCall.name toolCall)
                       (Some "Permission denied")), w1)
            else
              match (if PermissionCheck.requiresPrompt check
                     then requestPermissionFromUser toolCall
                            (Registration.descriptor registration) context
                     else ret true) w1 with
              | (Returned granted, w2) =>
                  if negb granted
                  then (Returned
                          (text_result
                             ("User denied permission for tool: "
                              +:+ ToolCall.name toolCall)
                             (Some "User denied permission")), w2)
                  else dispatch toolCall registration w2
              | (Threw e, w2) => (Threw e, w2)
              | (Unsettled, w2) => (Unsettled, w2)
              end
        | Threw e => (Threw e, w1)
        | Unsettled => (Unsettled, w1)
        end
    | (Threw e, w1) => (Threw e, w1)
    | (Unsettled, w1) => (Unsettled, w1)
    end.
Proof.
  intros Hget. unfold executeTool.
  unfold bind at 1. unfold get at 1. cbn beta iota. rewrite Hget.
  unfold bind at 1.
  destruct (getToolContext _ w) as [[context | e |] w1]; [| done | done].
  unfold bind at 1. unfold get at 1. cbn beta iota.
  unfold bind at 1. unfold await at 1.
  destruct (checkPermission _ _ _ _) as [check | e |]; [| done | done].
  destruct (_ && _); [done |].
  unfold bind at 1.
  destruct (PermissionCheck.requiresPrompt check).
  - destruct (requestPermissionFromUser _ _ _ w1) as [[granted | e |] w2];
      [| done | done].
    by destruct (negb granted).
  - done.
Qed.

Lemma since_app w w' effects :
  trace w' = trace w ++ effects → since w w' = effects.
Proof. intros Htrace. unfold since. by rewrite Htrace, drop_app_length. Qed.

Lemma dispatched_app effects1 effects2 :
  dispatched (effects1 ++ effects2) = dispatched effects1 ++ dispatched effects2.
Proof. apply omap_app. Qed.

Lemma dispatched_housekeeping effects :
  Forall housekeeping effects → dispatched effects = [].
Proof.
  induction 1 as [| e effects He _ IH]; [done |].
  destruct e; try done; exact IH.
Qed.

Lemma dispatched_sent extensionId request effects :
  dispatched (sent_to_extension extensionId request :: effects)
  = (extensionId, request) :: dispatched effects.
Proof. reflexivity. Qed.

Lemma is_log_housekeeping e : is_log e → housekeeping e.
Proof. by destruct e. Qed.

(** Where [executeTool] stands when the owner has not been asked: the
    effects so far hold no request to an extension. *)
Lemma executeTool_before_dispatch toolCall w :
  promises_bounded w →
  let r1 := getToolContext (ToolCall.name toolCall) w in
  (∀ e, r1.1 ≠ Threw e)
  ∧ permissionManager r1.2 = permissionManager w
  ∧ promises_bounded r1.2
  ∧ (∃ effects, trace r1.2 = trace w ++ effects ∧ Forall housekeeping effects)
  ∧ ∀ descriptor context,
      let r2 := requestPermissionFromUser toolCall descriptor context r1.2 in
      ∃ effects, trace r2.2 = trace w ++ effects ∧ Forall housekeeping effects.
Proof.
  intros Hbounded r1. subst r1.
  destruct (getToolContext_cases (ToolCall.name toolCall) w) as [Hthrew Hpm].
  destruct (getToolContext_frames (ToolCall.name toolCall) w)
    as (_ & _ & _ & _ & effects1 & Htrace1 & Heffects1).
  split; [done |]. split; [done |].
  split; [by apply keeps_getToolContext |].
  split; [by exists effects1 |].
  intros descriptor context r2. subst r2.
  destruct (requestPermissionFromUser_frames toolCall descriptor context
              (getToolContext (ToolCall.name toolCall) w).2)
    as (_ & _ & _ & _ & effects2 & Htrace2 & Heffects2).
  exists (effects1 ++ effects2). rewrite Htrace2, Htrace1, app_assoc.
  split; [done |]. by apply Forall_app.
Qed.

(** X14. A tool runs only with permission.  If [executeTool] sends a
    request to an extension, then the call's name is registered, the
    request goes to the extension that owns it and is the request of this
    call, the permission check returned, and either it allowed the call
    without a prompt or it required a prompt and an answer granting this
    very request was delivered.  And the request is the only one sent. *)
Theorem executeTool_needs_permission w (toolCall : ToolCall.t)
    (extensionId : string) (request : ToolExecutionRequest.t) :
  promises_bounded w →
  (extensionId, request) ∈ dispatched (since w (executeTool toolCall w).2) →
  ∃ registration context check,
    Map_get (ToolCall.name toolCall) (registeredTools w) = Some registration
    ∧ extensionId = Registration.extensionId registration
    ∧ request = execute_request toolCall
    ∧ checkPermission (permissionManager w) (ToolCall.name toolCall) context
        (Registration.descriptor registration) = Returned check
    ∧ permitted check
    ∧ dispatched (since w (executeTool toolCall w).2) = [(extensionId, request)].
Proof.
  intros Hbounded Hsent.
  destruct (Map_get (ToolCall.name toolCall) (registeredTools w))
    as [registration |] eqn:Hget; cycle 1.
  { rewrite (executeTool_unregistered _ _ Hget) in Hsent. cbn [snd] in Hsent.
    rewrite (since_app w w []) in Hsent by (by rewrite app_nil_r).
    by apply elem_of_nil in Hsent. }
  destruct (executeTool_before_dispatch toolCall w Hbounded)
    as (Hthrew & Hpm & Hbounded1 & (effects1 & Htrace1 & Heffects1) & Hprompt).
  rewrite (executeTool_run _ _ _ Hget) in Hsent |- *.
  destruct (getToolContext (ToolCall.name toolCall) w) as [c1 w1].
  cbn [fst snd] in Hthrew, Hpm, Hbounded1, Htrace1, Hprompt.
  assert (Hnot1 : (extensionId, request) ∉ dispatched (since w w1)).
  { rewrite (since_app _ _ _ Htrace1), dispatched_housekeeping by done.
    apply not_elem_of_nil. }
  destruct c1 as [context | e |]; [| done | done].
  rewrite Hpm in Hsent |- *.
  destruct (checkPermission (permissionManager w) (ToolCall.name toolCall) context
              (Registration.descriptor registration))
    as [check | e |] eqn:Hcheck; [| done | done].
  destruct (negb (PermissionCheck.allowed check)
            && negb (PermissionCheck.requiresPrompt check)) eqn:Hdenied; [done |].
  specialize (Hprompt (Registration.descriptor registration) context).
  cbn zeta in Hprompt. destruct Hprompt as (effects2 & Htrace2 & Heffects2).
  exists registration, context, check.
  assert (Hgo : ∀ w2 effects,
             trace w2 = trace w ++ effects → Forall housekeeping effects →
             (extensionId, request)
             ∈ dispatched (since w (dispatch toolCall registration w2).2) →
             extensionId = Registration.extensionId registration
             ∧ request = execute_request toolCall
             ∧ dispatched (since w (dispatch toolCall registration w2).2)
               = [(extensionId, request)]).
  { intros w2 effects Htrace Heffects Hin.
    destruct (dispatch_cases toolCall registration w2)
      as (errors & _ & Htrace' & Herrors).
    rewrite Htrace, <- app_assoc in Htrace'.
    rewrite (since_app _ _ _ Htrace') in Hin |- *.
    assert (Hnone : dispatched errors = []).
    { apply dispatched_housekeeping.
      eapply Forall_impl; [exact Herrors | apply is_log_housekeeping]. }
    rewrite dispatched_app, dispatched_sent, Hnone,
      (dispatched_housekeeping effects) in Hin |- * by done.
    cbn [app] in Hin |- *.
    apply list_elem_of_singleton in Hin. injection Hin as -> ->. done. }
  destruct (PermissionCheck.requiresPrompt check) eqn:Hrequires.
  - pose proof (requestPermissionFromUser_outcome toolCall
                  (Registration.descriptor registration) context w1
                  (promises_bounded_fresh _ Hbounded1)) as Houtcome.
    cbn zeta in Houtcome.
    destruct (requestPermissionFromUser toolCall
                (Registration.descriptor registration) context w1)
      as [c2 w2].
    cbn [fst snd] in Houtcome, Htrace2.
    assert (Hnot2 : (extensionId, request) ∉ dispatched (since w w2)).
    { rewrite (since_app _ _ _ Htrace2), dispatched_housekeeping by done.
      apply not_elem_of_nil. }
    destruct c2 as [granted | e |]; [| done | done].
    destruct granted; [| done]. cbn [negb] in Hsent |- *.
    destruct (Hgo w2 effects2 Htrace2 Heffects2 Hsent) as (-> & -> & Honly).
    repeat split; try done.
    unfold permitted. rewrite Hrequires.
    destruct Houtcome as [[=] | (response & Hin & Hid & [= Hgranted])].
    by exists (clock w1), response.
  - cbn [negb] in Hsent |- *. unfold ret in Hsent |- *. cbn [negb] in Hsent |- *.
    destruct (Hgo w1 effects1 Htrace1 Heffects1 Hsent) as (-> & -> & Honly).
    repeat split; try done.
    unfold permitted. rewrite Hrequires.
    rewrite andb_true_r in Hdenied. by apply negb_false_iff in Hdenied.
Qed.

(** X15. What makes [executeTool] throw.  It throws only when the
    permission check itself throws or when the permission prompt times
    out; a tool that fails -- its owner throws, answers nothing, or
    reports an error -- gives an error result instead.  And when it
    throws, no request was sent to any extension. *)
Theorem executeTool_throws_only w (toolCall : ToolCall.t) (thrown : Thrown) :
  promises_bounded w →
  (executeTool toolCall w).1 = Threw thrown →
  (thrown = Error "Permission request timeout"
   ∨ ∃ registration context,
       Map_get (ToolCall.name toolCall) (registeredTools w) = Some registration
       ∧ checkPermission (permissionManager w) (ToolCall.name toolCall) context
           (Registration.descriptor registration) = Threw thrown)
  ∧ dispatched (since w (executeTool toolCall w).2) = [].
Proof.
  intros Hbounded Hthrown.
  destruct (Map_get (ToolCall.name toolCall) (registeredTools w))
    as [registration |] eqn:Hget; cycle 1.
  { by rewrite (executeTool_unregistered _ _ Hget) in Hthrown. }
  destruct (executeTool_before_dispatch toolCall w Hbounded)
    as (Hthrew & Hpm & Hbounded1 & (effects1 & Htrace1 & Heffects1) & Hprompt).
  rewrite (executeTool_run _ _ _ Hget) in Hthrown |- *.
  destruct (getToolContext (ToolCall.name toolCall) w) as [c1 w1].
  cbn [fst snd] in Hthrew, Hpm, Hbounded1, Htrace1, Hprompt.
  assert (Hnone1 : dispatched (since w w1) = []).
  { by rewrite (since_app _ _ _ Htrace1), dispatched_housekeeping. }
  destruct c1 as [context | e |]; [| by destruct (Hthrew e) | done].
  rewrite Hpm in Hthrown |- *.
  destruct (checkPermission (permissionManager w) (ToolCall.name toolCall) context
              (Registration.descriptor registration))
    as [check | e |] eqn:Hcheck; [| | done].
  2: { cbn [fst snd] in Hthrown |- *. injection Hthrown as ->.
       split; [| done]. right. by exists registration, context. }
  destruct (negb (PermissionCheck.allowed check)
            && negb (PermissionCheck.requiresPrompt check)); [done |].
  specialize (Hprompt (Registration.descriptor registration) context).
  cbn zeta in Hprompt. destruct Hprompt as (effects2 & Htrace2 & Heffects2).
  destruct (PermissionCheck.requiresPrompt check).
  - pose proof (requestPermissionFromUser_outcome toolCall
                  (Registration.descriptor registration) context w1
                  (promises_bounded_fresh _ Hbounded1)) as Houtcome.
    cbn zeta in Houtcome.
    destruct (requestPermissionFromUser toolCall
                (Registration.descriptor registration) context w1)
      as [c2 w2].
    cbn [fst snd] in Houtcome, Htrace2.
    destruct c2 as [granted | e |]; [| | done].
    + destruct granted; [| done]. cbn [negb] in Hthrown.
      destruct (dispatch_cases toolCall registration w2) as (errors & Hnever & _).
      by destruct (Hnever thrown).
    + cbn [fst snd] in Hthrown |- *. injection Hthrown as ->.
      split.
      * left. by destruct Houtcome as [[= ->] | (response & _ & _ & [=])].
      * by rewrite (since_app _ _ _ Htrace2), dispatched_housekeeping.
  - unfold ret in Hthrown. cbn [negb] in Hthrown.
    destruct (dispatch_cases toolCall registration w1) as (errors & Hnever & _).
    by destruct (Hnever thrown).
Qed.

End Execution.


Lemma requestPermissionFromUser_first_answer_witness :
  let r :=
    @requestPermissionFromUser (example_PermissionManager prompts)
      (example_Browser example_answers) Adapter example_click
      (example_descriptor "nav.click") (ToolContext.mk None None)
      unanswered_registry in
  r.1 = Returned true
  ∧ pendingPermissionRequests r.2 !! "perm-0-0.5" = None.
Proof.
  intros r.
  destruct (@requestPermissionFromUser_first_answer
              (example_PermissionManager prompts)
              (example_Browser example_answers) Adapter
              unanswered_registry example_click
              (example_descriptor "nav.click") (ToolContext.mk None None)
              [PermissionResponseMessage.mk "perm-9-0.5" false false None]
              [example_late_denial] example_grant)
    as (Hgranted & Hgone & _).
  - by apply promise_fresh_idle.
  - reflexivity.
  - repeat constructor. by vm_compute.
  - reflexivity.
  - split; [exact Hgranted | exact Hgone].
Defined.

Lemma executeTool_needs_permission_witness :
  dispatched
    (since owners_registry
       (@executeTool (example_PermissionManager allows) (example_Browser [])
          Adapter example_click owners_registry).2)
  = [("ext-1", execute_request example_click)].
Proof.
  destruct (@executeTool_needs_permission (example_PermissionManager allows)
              (example_Browser []) Adapter owners_registry example_click
              "ext-1" (execute_request example_click))
    as (registration & context & check & _ & _ & _ & _ & _ & Honly).
  - by apply promises_bounded_idle.
  - vm_compute. apply list_elem_of_here.
  - exact Honly.
Defined.

Lemma executeTool_throws_only_witness :
  dispatched (since unanswered_registry (unanswered_call example_click).2) = [].
Proof.
  destruct (@executeTool_throws_only (example_PermissionManager prompts)
              (example_Browser []) Adapter unanswered_registry example_click
              (Error "Permission request timeout"))
    as [_ Hnone].
  - by apply promises_bounded_idle.
  - reflexivity.
  - exact Hnone.
Defined.

(** ** The three names of a buffered call *)

Section AllowedCalls.
Context `{!JSON} `{!PermissionManager} `{!Browser}.
Context {A : Type} `{!AIAdapter A}.
Implicit Types w : ToolRegistry A.

(** The permission manager allows every call without a prompt, and the
    browser answers every consultation. *)
Hypothesis allowed :
  ∀ pm name context descriptor,
    ∃ check, checkPermission pm name context descriptor = Returned check
             ∧ PermissionCheck.allowed check = true
             ∧ PermissionCheck.requiresPrompt check = false.
Hypothesis tabs_answered : ∀ now, tabs_query now ≠ no_reply.
Hypothesis owner_answers :
  ∀ now extensionId request, runtime_sendMessage now extensionId request ≠ no_reply.

Lemma getToolContext_returns toolName w :
  ∃ context, (getToolContext toolName w).1 = Returned context.
Proof.
  unfold getToolContext, bind, get, try_catch, tick, await, modify, ret, effect.
  destruct (isDomainAwareTool _ _); cbn; [| by eexists].
  pose proof (tabs_answered (clock w)) as Hanswer.
  destruct (tabs_query _) as [[| tab tabs] | e |]; cbn;
    try (by destruct Hanswer); by eexists.
Qed.

Lemma dispatch_returns toolCall registration w :
  ∃ result, (dispatch toolCall registration w).1 = Returned result.
Proof.
  unfold dispatch, bind, get, try_catch, tick, await, modify, ret, effect, throw.
  cbn.
  pose proof (owner_answers (clock w) (Registration.extensionId registration)
                (execute_request toolCall)) as Hanswer.
  unfold execute_request in Hanswer.
  destruct (runtime_sendMessage _ _ _) as [[response |] | e |]; cbn;
    [destruct (truthy_opt _) | | |];
    try (by destruct Hanswer); by eexists.
Qed.

Lemma forwarded_app effects1 effects2 :
  forwarded (effects1 ++ effects2) = forwarded effects1 ++ forwarded effects2.
Proof. apply omap_app. Qed.

Lemma forwarded_housekeeping effects :
  Forall housekeeping effects → forwarded effects = [].
Proof.
  induction 1 as [| e effects He _ IH]; [done |].
  destruct e; try done; exact IH.
Qed.

Lemma forwarded_map_caller_onEvent events :
  forwarded (map caller_onEvent events) = events.
Proof. induction events as [| event events IH]; [done |]. simpl. by rewrite IH. Qed.

(** An allowed call: the owner registered under the call's name is asked,
    once, and the call gets a result. *)
Lemma executeTool_allowed toolCall w :
  ∃ result w' effects,
    executeTool toolCall w = (Returned result, w')
    ∧ conversationHistory w' = conversationHistory w
    ∧ registeredTools w' = registeredTools w
    ∧ trace w' = trace w ++ effects
    ∧ forwarded effects = []
    ∧ dispatched effects
      = option_list (dispatch_to (registeredTools w) toolCall).
Proof.
  unfold dispatch_to.
  destruct (Map_get (ToolCall.name toolCall) (registeredTools w))
    as [registration |] eqn:Hget; cycle 1.
  { rewrite (executeTool_unregistered _ _ Hget). eexists _, w, [].
    by rewrite app_nil_r. }
  destruct (executeTool_frames toolCall w) as (Hh & Hr & _ & _ & _).
  rewrite (executeTool_run _ _ _ Hget) in Hh, Hr |- *.
  destruct (getToolContext_returns (ToolCall.name toolCall) w)
    as (context & Hcontext).
  destruct (getToolContext_frames (ToolCall.name toolCall) w)
    as (_ & _ & _ & _ & effects1 & Htrace1 & Heffects1).
  destruct (getToolContext (ToolCall.name toolCall) w) as [c1 w1].
  cbn [fst snd] in Hcontext, Htrace1. subst c1.
  destruct (allowed (permissionManager w1) (ToolCall.name toolCall) context
              (Registration.descriptor registration))
    as (check & Hcheck & Hallowed & Hprompt).
  rewrite Hcheck, Hallowed, Hprompt in Hh, Hr |- *.
  cbn [negb andb] in Hh, Hr |- *. unfold ret in Hh, Hr |- *.
  cbn [negb] in Hh, Hr |- *.
  destruct (dispatch_returns toolCall registration w1) as (result & Hresult).
  destruct (dispatch_cases toolCall registration w1)
    as (errors & _ & Htrace2 & Herrors).
  destruct (dispatch toolCall registration w1) as [c2 w2].
  cbn [fst snd] in Hresult, Htrace2, Hh, Hr. subst c2.
  exists result, w2,
    (effects1 ++ sent_to_extension (Registration.extensionId registration)
                   (execute_request toolCall) :: errors).
  split; [done |]. split; [done |]. split; [done |].
  split; [by rewrite Htrace2, Htrace1, <- app_assoc |].
  assert (Hquiet : Forall housekeeping errors).
  { eapply Forall_impl; [exact Herrors |]. apply is_log_housekeeping. }
  split.
  - rewrite forwarded_app, (forwarded_housekeeping _ Heffects1).
    cbn. by apply forwarded_housekeeping.
  - rewrite dispatched_app, (dispatched_housekeeping _ Heffects1).
    rewrite dispatched_sent, (dispatched_housekeeping _ Hquiet). done.
Qed.

Lemma for_of_run_tool_call_allowed calls w :
  ∃ results w' effects,
    for_of calls run_tool_call w = (Returned tt, w')
    ∧ length results = length calls
    ∧ conversationHistory w'
      = conversationHistory w ++ zip_with tool_message calls results
    ∧ registeredTools w' = registeredTools w
    ∧ trace w' = trace w ++ effects
    ∧ forwarded effects = zip_with tool_result calls results
    ∧ dispatched effects = omap (dispatch_to (registeredTools w)) calls.
Proof.
  revert w. induction calls as [| toolCall calls IH]; intros w.
  { exists [], w, []. by rewrite !app_nil_r. }
  cbn [for_of]. unfold bind. rewrite run_tool_call_run.
  destruct (executeTool_allowed toolCall w)
    as (result & w1 & effects1 & -> & Hh1 & Hr1 & Ht1 & Hf1 & Hd1).
  destruct (IH (set_conversationHistory (λ h, h ++ [tool_message toolCall result])
                  (set_trace
                     (λ t, t ++ [caller_onEvent (tool_result toolCall result)])
                     w1)))
    as (results & w2 & effects2 & -> & Hlen & Hh2 & Hr2 & Ht2 & Hf2 & Hd2).
  cbn [conversationHistory registeredTools trace set_conversationHistory
       set_trace] in Hh2, Hr2, Ht2, Hd2.
  exists (result :: results), w2,
    (effects1 ++ caller_onEvent (tool_result toolCall result) :: effects2).
  split; [done |]. split; [cbn [length]; by rewrite Hlen |].
  split; [by rewrite Hh2, Hh1, <- app_assoc |].
  split; [by rewrite Hr2 |].
  split; [by rewrite Ht2, Ht1, <- !app_assoc |].
  split.
  - rewrite forwarded_app, Hf1.
    change (forwarded (caller_onEvent ?e :: ?l)) with (e :: forwarded l).
    by rewrite Hf2.
  - rewrite dispatched_app, Hd1.
    change (dispatched (caller_onEvent ?e :: ?l)) with (dispatched l).
    rewrite Hd2, Hr1. cbn.
    by destruct (dispatch_to (registeredTools w) toolCall).
Qed.

End AllowedCalls.

(** C10. In a turn of one of the repository's adapters that buffers
    calls, with a permission manager that allows them and a browser that
    answers, the same calls go three ways.  The caller is handed each
    [tool_use] with the call as the adapter reported it.  The history
    gets one assistant message that names each call by the rewritten
    form of its name (every dot replaced by an underscore), followed by
    one [tool] message per call.  And each call is dispatched once, in
    order, to the extension registered under the name the call carries,
    with that name as [toolName]; a call whose name is not registered is
    not dispatched, even when its rewritten name is.  For a name with a
    dot the two names differ. *)
Theorem history_records_rewritten_names
    `{!JSON} `{!PermissionManager} `{!Browser}
    (this : Adapter) (tools : list AITool.t) (w : ToolRegistry Adapter) :
  let r0 := call (sendMessage (conversationHistory w) tools systemPrompt) this in
  let pendingToolCalls := tool_uses (events_of r0) in
  let r := executePrompt_turn this tools w in
  pendingToolCalls ≠ [] →
  (∀ pm name context descriptor,
     ∃ check, checkPermission pm name context descriptor = Returned check
              ∧ PermissionCheck.allowed check = true
              ∧ PermissionCheck.requiresPrompt check = false) →
  (∀ now, tabs_query now ≠ no_reply) →
  (∀ now extensionId request,
     runtime_sendMessage now extensionId request ≠ no_reply) →
  r.1 = Returned true
  ∧ tool_uses (forwarded (since w r.2)) = pendingToolCalls
  ∧ (∃ results,
       length results = length pendingToolCalls
       ∧ conversationHistory r.2
         = conversationHistory w
           ++ AIMessage.mk assistant None
                (Some (map (λ tc,
                         ToolCallRef.mk (ToolCall.id tc) "function"
                           (FunctionCall.mk (replace_dots (ToolCall.name tc))
                              (JSON_stringify (ToolCall.input tc))))
                         pendingToolCalls))
                None
              :: zip_with tool_message pendingToolCalls results)
  ∧ dispatched (since w r.2)
    = omap (λ tc,
         (λ registration,
            (Registration.extensionId registration,
             ToolExecutionRequest.mk "TOOL_EXECUTE" (ToolCall.name tc)
               (ToolCall.input tc) (ToolCall.id tc)))
         <$> Map_get (ToolCall.name tc) (registeredTools w))
        pendingToolCalls
  ∧ ∀ tc, tc ∈ pendingToolCalls →
          contains_dot (ToolCall.name tc) = true →
          replace_dots (ToolCall.name tc) ≠ ToolCall.name tc.
Proof.
  intros r0 pendingToolCalls r Hcalls Hallowed Htabs Howners.
  pose proof (Adapter_events_exclusive this (conversationHistory w) tools
                systemPrompt Hcalls) as Hnone.
  pose proof (Adapter_tool_use_Returned this (conversationHistory w) tools
                systemPrompt Hcalls) as Hret.
  fold r0 in Hnone, Hret.
  pose proof (call_adapter_run this tools w) as Hrun. cbv zeta in Hrun.
  fold r0 in Hrun. rewrite Hret, Hnone in Hrun. fold pendingToolCalls in Hrun.
  subst r. unfold executePrompt_turn, bind. rewrite Hrun.
  rewrite bool_decide_eq_true_2
    by (destruct pendingToolCalls; [done | simpl; lia]).
  set (w1 := set_conversationHistory _ _).
  assert (Hrun_calls : run_tool_calls pendingToolCalls w1
                       = for_of pendingToolCalls run_tool_call
                           (set_conversationHistory
                              (λ h, h ++ [tool_calls_message pendingToolCalls]) w1))
    by reflexivity.
  rewrite Hrun_calls. clear Hrun_calls.
  destruct (for_of_run_tool_call_allowed Hallowed Htabs Howners pendingToolCalls
              (set_conversationHistory
                 (λ h, h ++ [tool_calls_message pendingToolCalls]) w1))
    as (results & w2 & effects & -> & Hlen & Hh & Hr & Ht & Hf & Hd).
  cbn [fst snd]. unfold ret. cbn [fst snd].
  subst w1.
  cbn [conversationHistory registeredTools trace set_conversationHistory
       set_trace set_adapter] in Hh, Hr, Ht, Hd.
  assert (Hsince : since w w2 = map caller_onEvent (events_of r0) ++ effects).
  { apply since_app. by rewrite Ht, <- app_assoc. }
  split; [done |]. split; [| split; [| split]].
  - rewrite Hsince, forwarded_app, forwarded_map_caller_onEvent, Hf.
    rewrite tool_uses_app. fold pendingToolCalls.
    assert (Hresults : ∀ calls rs, tool_uses (zip_with tool_result calls rs) = []).
    { induction calls as [| c calls IH]; intros [| x rs]; try done.
      cbn. apply IH. }
    by rewrite Hresults, app_nil_r.
  - exists results. split; [done |].
    rewrite Hh, app_nil_r, <- app_assoc. done.
  - rewrite Hsince, dispatched_app, Hd.
    assert (Hquiet : ∀ events, dispatched (map caller_onEvent events) = [])
      by (by induction events).
    rewrite Hquiet. done.
  - intros tc _. apply replace_dots_changes.
Qed.

Lemma history_records_rewritten_names_witness :
  let tools := [example_tool "nav.click"; example_tool "fs.list"] in
  let r :=
    @executePrompt_turn example_JSON (example_PermissionManager allows)
      (example_Browser []) Adapter (@Adapter_AIAdapter example_JSON) recorder
      example_two_calls tools
      (@example_registry (example_PermissionManager allows) Adapter []
         example_two_calls
         (example_owners ++ [example_registration "ext-3" "fs_list"])) in
  r.1 = Returned true
  ∧ tool_uses (forwarded (trace r.2)) = [example_click; example_list]
  ∧ (∃ results,
       conversationHistory r.2
       = AIMessage.mk assistant None
           (Some [ToolCallRef.mk "call_1" "function"
                    (FunctionCall.mk "nav_click" "{}");
                  ToolCallRef.mk "call_2" "function"
                    (FunctionCall.mk "fs_list" "{}")])
           None
         :: zip_with tool_message [example_click; example_list] results)
  ∧ dispatched (trace r.2)
    = [("ext-1", ToolExecutionRequest.mk "TOOL_EXECUTE" "nav.click"
                   (JObject []) "call_1");
       ("ext-2", ToolExecutionRequest.mk "TOOL_EXECUTE" "fs.list"
                   (JObject []) "call_2")].
Proof.
  intros tools r.
  destruct (@history_records_rewritten_names example_JSON
              (example_PermissionManager allows) (example_Browser [])
              example_two_calls tools
              (@example_registry (example_PermissionManager allows) Adapter []
                 example_two_calls
                 (example_owners ++ [example_registration "ext-3" "fs_list"])))
    as (Hreturned & Hforwarded & (results & _ & Hhistory) & Hdispatched & _).
  - vm_compute. discriminate.
  - intros pm name context descriptor. by exists allows.
  - done.
  - done.
  - split; [exact Hreturned |]. split; [exact Hforwarded |].
    split; [by exists results | exact Hdispatched].
Defined.

(** * Further properties of a prompt *)

Section Relating.
Context `{!PermissionManager} {A : Type}.
Implicit Types w : ToolRegistry A.

Lemma emitting_refl P : Reflexive (emitting (A := A) P).
Proof. intros w. exists []. by rewrite app_nil_r. Qed.

Lemma emitting_trans P : Transitive (emitting (A := A) P).
Proof.
  intros w1 w2 w3 (effects & Htrace & Heffects) (effects' & Htrace' & Heffects').
  exists (effects ++ effects'). rewrite Htrace', Htrace, app_assoc.
  split; [done |]. by apply Forall_app.
Qed.

Lemma recording_refl : Reflexive (recording (A := A)).
Proof. intros w. split; [| done]. exists []. by rewrite app_nil_r. Qed.

Lemma recording_trans : Transitive (recording (A := A)).
Proof.
  intros w1 w2 w3 [(added & Hadded) Hkeeps] [(added' & Hadded') Hkeeps'].
  split; [| tauto].
  exists (added ++ added'). by rewrite Hadded', Hadded, app_assoc.
Qed.

#[local] Existing Instance emitting_refl.
#[local] Existing Instance emitting_trans.

Section Generic.
Context (Rel : relation (ToolRegistry A)) `{!Reflexive Rel} `{!Transitive Rel}.

Lemma relates_ret {R} (x : R) : relates Rel (ret x).
Proof. intros w. reflexivity. Qed.

Lemma relates_throw {R} e : relates (R := R) Rel (throw e).
Proof. intros w. reflexivity. Qed.

Lemma relates_await {R} (c : Completion R) : relates Rel (await c).
Proof. intros w. reflexivity. Qed.

Lemma relates_get : relates Rel get.
Proof. intros w. reflexivity. Qed.

Lemma relates_modify (f : ToolRegistry A → ToolRegistry A) :
  (∀ w, Rel w (f w)) → relates Rel (modify f).
Proof. intros Hf w. apply Hf. Qed.

Lemma relates_bind {R R'} (m : M (ToolRegistry A) R)
    (k : R → M (ToolRegistry A) R') :
  relates Rel m → (∀ x, relates Rel (k x)) → relates Rel (bind m k).
Proof.
  intros Hm Hk w. unfold bind. specialize (Hm w).
  destruct (m w) as [[x | e |] w1]; cbn [snd] in *; [| done | done].
  etrans; [exact Hm | apply Hk].
Qed.

Lemma relates_try_catch {R} (m : M (ToolRegistry A) R) h :
  relates Rel m → (∀ e, relates Rel (h e)) → relates Rel (try_catch m h).
Proof.
  intros Hm Hh w. unfold try_catch. specialize (Hm w).
  destruct (m w) as [[x | e |] w1]; cbn [snd] in *; [done | | done].
  etrans; [exact Hm | apply Hh].
Qed.

Lemma relates_for_of {X} (xs : list X) (body : X → M (ToolRegistry A) unit) :
  (∀ x, relates Rel (body x)) → relates Rel (for_of xs body).
Proof.
  intros Hbody. induction xs as [| x xs IH]; cbn [for_of].
  - apply relates_ret.
  - apply relates_bind; [apply Hbody | intros _; exact IH].
Qed.

End Generic.

Lemma emitting_effect P e : P e → relates (emitting (A := A) P) (effect e).
Proof. intros He w. exists [e]. split; [done |]. by constructor. Qed.

Lemma emitting_silent P (f : ToolRegistry A → ToolRegistry A) :
  (∀ w, trace (f w) = trace w) → relates (emitting P) (modify f).
Proof.
  intros Hf. apply relates_modify. intros w. exists [].
  by rewrite Hf, app_nil_r.
Qed.

Lemma emitting_tick P : relates (emitting (A := A) P) tick.
Proof.
  unfold tick. apply relates_bind; [apply _ | apply relates_get, _ | intros w].
  apply relates_bind; [apply _ | by apply emitting_silent | intros _].
  apply relates_ret, _.
Qed.

End Relating.

Section PromptEffects.
Context `{!JSON} `{!PermissionManager} `{!Browser}.
Context {A : Type} `{!AIAdapter A}.
Implicit Types w : ToolRegistry A.

#[local] Existing Instance emitting_refl.
#[local] Existing Instance emitting_trans.

Ltac emitting_leaf :=
  first [ apply emitting_effect; exact I
        | apply relates_ret, _
        | apply relates_throw, _
        | apply relates_await, _
        | apply relates_get, _
        | apply emitting_tick
        | apply emitting_silent; reflexivity ].

Ltac emitting_step :=
  first [ apply relates_bind; [apply _ | emitting_leaf | intros ?] | emitting_leaf ].

Lemma getToolContext_emits toolName :
  relates (A := A) (emitting in_turn) (getToolContext toolName).
Proof.
  unfold getToolContext. emitting_step.
  destruct (negb _); [emitting_step |].
  apply relates_bind; [apply _ | | intros [context |]; emitting_step].
  apply relates_try_catch; [apply _ | | intros [e |]; repeat emitting_step].
  apply relates_bind; [apply _ | emitting_leaf | intros now].
  apply relates_bind; [apply _ | emitting_leaf | intros [| tab tabs]]; emitting_step.
Qed.

Lemma await_promise_emits promise tasks :
  relates (A := A) (emitting in_turn) (await_promise promise tasks).
Proof.
  intros w. destruct (await_promise_logs promise tasks w) as (logs & Htrace & Hlogs).
  exists logs. split; [done |].
  eapply Forall_impl; [exact Hlogs |]. by intros [].
Qed.

Lemma requestPermissionFromUser_emits toolCall descriptor context :
  relates (A := A) (emitting in_turn)
    (requestPermissionFromUser toolCall descriptor context).
Proof.
  unfold requestPermissionFromUser. do 2 emitting_step.
  apply relates_bind;
    [apply _
    | apply relates_for_of; [apply _ | apply _ | intros port; emitting_step]
    | intros _].
  do 2 emitting_step. apply await_promise_emits.
Qed.

Lemma executeTool_emits toolCall :
  relates (A := A) (emitting in_turn) (executeTool toolCall).
Proof.
  unfold executeTool. emitting_step.
  destruct (Map_get _ _) as [registration |]; [| emitting_step].
  apply relates_bind; [apply _ | apply getToolContext_emits | intros context].
  do 2 emitting_step. destruct (_ && _); [emitting_step |].
  apply relates_bind; [apply _ | | intros granted].
  { destruct (PermissionCheck.requiresPrompt _); [| emitting_step].
    apply requestPermissionFromUser_emits. }
  destruct (negb granted); [emitting_step |].
  apply relates_try_catch; [apply _ | | intros [e |]; repeat emitting_step].
  apply relates_bind; [apply _ | emitting_leaf | intros now].
  apply relates_bind; [apply _ | emitting_leaf | intros _].
  apply relates_bind; [apply _ | emitting_leaf | intros [response |]];
    [| emitting_step].
  destruct (truthy_opt _); emitting_step.
Qed.

(** *** For any caller whose [onEvent] ends no prompt *)

Context {the_caller : Caller A}.
Hypothesis caller_emits :
  ∀ event, relates (A := A) (emitting in_turn) (caller event).

Lemma executePrompt_onEvents_emits pendingToolCalls events :
  relates (A := A) (emitting in_turn)
    (executePrompt_onEvents pendingToolCalls events).
Proof.
  revert pendingToolCalls.
  induction events as [| event events IH]; intros pendingToolCalls;
    cbn [executePrompt_onEvents]; [emitting_step |].
  apply relates_bind; [apply _ | | intros pendingToolCalls'; apply IH].
  unfold executePrompt_onEvent, unawaited, push_history.
  destruct event;
    (apply relates_bind; [apply _ | | intros _; emitting_step]);
    (apply relates_try_catch; [apply _ | | intros _; emitting_step]);
    try apply caller_emits.
  apply relates_bind; [apply _ | apply caller_emits | intros _].
  emitting_step.
Qed.

Lemma call_adapter_emits (this : A) tools :
  relates (A := A) (emitting in_turn) (call_adapter this tools).
Proof.
  unfold call_adapter. emitting_step.
  destruct (call _ this) as [completion run].
  emitting_step.
  apply relates_bind;
    [apply _ | apply executePrompt_onEvents_emits | intros pendingToolCalls].
  repeat emitting_step.
Qed.

Lemma executePrompt_turn_emits (this : A) tools :
  relates (emitting in_turn) (executePrompt_turn this tools).
Proof.
  unfold executePrompt_turn.
  apply relates_bind;
    [apply _ | apply call_adapter_emits | intros pendingToolCalls].
  case_bool_decide; [| emitting_step].
  apply relates_bind; [apply _ | | intros _; emitting_step].
  unfold run_tool_calls, push_history. emitting_step.
  apply relates_for_of; [apply _ | apply _ | intros toolCall].
  unfold run_tool_call, push_history.
  apply relates_bind; [apply _ | apply executeTool_emits | intros result].
  apply relates_bind; [apply _ | apply caller_emits | intros _].
  emitting_step.
Qed.

Lemma executePrompt_emits turns prompt :
  relates (A := A) (emitting in_turn) (executePrompt turns prompt).
Proof.
  unfold executePrompt, push_history, getAITools. emitting_step.
  destruct (adapter _); [| emitting_step].
  emitting_step.
  apply relates_bind; [apply _ | repeat emitting_step | intros tools].
  induction turns as [| turns IH]; cbn [executePrompt_while]; [emitting_step |].
  emitting_step.
  destruct (adapter _) as [this |]; [| emitting_step].
  apply relates_bind;
    [apply _ | apply executePrompt_turn_emits | intros []];
    [exact IH | emitting_step].
Qed.

End PromptEffects.

Section PortListener.
Context `{!JSON} `{!PermissionManager} `{!Browser}.
Context {A : Type} `{!AIAdapter A}.
Implicit Types w : ToolRegistry A.

Lemma postMessage_run port frame w :
  postMessage port frame w
  = if port_connected port (length (trace w))
    then (Returned tt, set_trace (λ t, t ++ [frame]) w)
    else (Threw (Error "Attempt to postMessage on disconnected port"), w).
Proof.
  unfold postMessage, bind, get. by destruct (port_connected _ _).
Qed.

Lemma postMessage_emits port event :
  relates (A := A) (emitting in_turn) (postMessage port (caller_onEvent event)).
Proof.
  intros w. rewrite postMessage_run. destruct (port_connected _ _); cbn [snd].
  - exists [caller_onEvent event]. split; [done |]. by repeat constructor.
  - exists []. by rewrite app_nil_r.
Qed.

(** X16. A prompt that comes in over a port ends with at most one
    final frame, and it is the last thing posted.  For a non-empty
    prompt: while the loop runs, neither [AGENT_COMPLETE] nor
    [AGENT_ERROR] is posted.  When [executePrompt] returns, one
    [AGENT_COMPLETE] follows; when it throws an object, one
    [AGENT_ERROR] with the object's message, or ["Unknown error"] if it
    has none -- provided the port is still connected: if it is not, the
    post throws, the [catch] block's own post throws as well, and the
    listener's promise is rejected with nothing posted.  It is rejected
    with nothing posted also when [executePrompt] throws [null] or
    [undefined].  As long as [executePrompt] is pending, nothing is
    posted.  An empty prompt does nothing at all. *)
Theorem on_EXECUTE_PROMPT_one_final_frame w (turns port : nat)
    (prompt : string) :
  let onEvent : Caller A := λ event, postMessage port (caller_onEvent event) in
  let p := executePrompt (the_caller := onEvent) turns prompt w in
  let r := on_EXECUTE_PROMPT turns port prompt w in
  let final frame :=
    if port_connected port (length (trace p.2))
    then (Returned tt, set_trace (λ t, t ++ [frame]) p.2)
    else (Threw (Error "Attempt to postMessage on disconnected port"), p.2) in
  if truthy prompt
  then (∃ effects, trace p.2 = trace w ++ effects ∧ Forall in_turn effects)
       ∧ match p.1 with
         | Returned true => r = final (port_AGENT_COMPLETE port)
         | Returned false | Unsettled => r = (Unsettled, p.2)
         | Threw (object e) =>
             r = final (port_AGENT_ERROR port
                          (or_default (message e) "Unknown error"))
         | Threw nullish => r = (Threw (TypeError_undefined "error"), p.2)
         end
  else r = (Returned tt, w).
Proof.
  intros onEvent p r final. subst r final. unfold on_EXECUTE_PROMPT, when.
  destruct (truthy prompt); [| done].
  split.
  { apply (executePrompt_emits (the_caller := onEvent)).
    intros event. apply postMessage_emits. }
  unfold try_catch, bind. fold onEvent. fold p.
  destruct p as [[[] | [e |] |] w1]; cbn [fst snd]; try done.
  - rewrite postMessage_run.
    destruct (port_connected port (length (trace w1))) eqn:Hport; [done |].
    by rewrite postMessage_run, Hport.
  - by rewrite postMessage_run.
Qed.

End PortListener.

(** The user stops a prompt: the port is gone once [message_start] is
    posted.  The loop goes on; the tool the model asks for is run; the
    loop ends when its result cannot be posted, and so does the
    listener, with no final frame. *)
Example on_EXECUTE_PROMPT_stopped :
  stopped_stream.1 = Threw (Error "Attempt to postMessage on disconnected port")
  ∧ trace stopped_stream.2
    = [caller_onEvent message_start;
       sent_to_extension "ext-2" (execute_request example_call)]
  ∧ conversationHistory stopped_stream.2
    = [AIMessage.mk user (Some "list files") None None;
       AIMessage.mk assistant None
         (Some [ToolCallRef.mk "call_1" "function"
                  (FunctionCall.mk "fs_list" "{}")])
         None].
Proof. vm_compute. repeat split. Qed.


(** ** What the loop writes into the history *)

Lemma answers_recorded_app_other history added :
  answers_recorded history →
  Forall (λ m, AIMessage.role m ≠ tool) added →
  answers_recorded (history ++ added).
Proof.
  intros Hhistory Hadded i m Hi Hrole.
  apply lookup_app_Some in Hi as [Hi | [_ Hi]].
  - destruct (Hhistory i m Hi Hrole)
      as (Htext & j & a & refs & ref & Hj & Ha & Hassistant & Hrefs & Href & Hid).
    split; [done |]. exists j, a, refs, ref.
    repeat split; try done. by apply lookup_app_l_Some.
  - apply list_elem_of_lookup_2 in Hi.
    by eapply Forall_forall in Hadded.
Qed.

Lemma resultText_truthy result : truthy (resultText result) = true.
Proof.
  unfold resultText.
  destruct (_ <$> ToolExecutionResponse.content result) as [[| c s] |]; done.
Qed.

Lemma answers_recorded_calls `{!JSON} history calls results :
  answers_recorded history →
  answers_recorded
    (history ++ tool_calls_message calls :: zip_with tool_message calls results).
Proof.
  intros Hhistory i m Hi Hrole.
  apply lookup_app_Some in Hi as [Hi | [Hlen Hi]].
  - destruct (Hhistory i m Hi Hrole)
      as (Htext & j & a & refs & ref & Hj & Ha & Hassistant & Hrefs & Href & Hid).
    split; [done |]. exists j, a, refs, ref.
    repeat split; try done. by apply lookup_app_l_Some.
  - destruct (i - length history) as [| k] eqn:Hk.
    { injection Hi as <-. done. }
    cbn in Hi. apply lookup_zip_with_Some in Hi
      as (toolCall & result & -> & HtoolCall & Hresult).
    split; [apply resultText_truthy |].
    exists (length history), (tool_calls_message calls),
      (map openAIToolCall calls), (openAIToolCall toolCall).
    split; [lia |]. split.
    { rewrite lookup_app_r by done. by rewrite Nat.sub_diag. }
    repeat split.
    apply list_elem_of_fmap. exists toolCall. split; [done |].
    by eapply list_elem_of_lookup_2.
Qed.

Section PromptHistory.
Context `{!JSON} `{!PermissionManager} `{!Browser}.
Context {A : Type} `{!AIAdapter A}.
Implicit Types w : ToolRegistry A.

#[local] Existing Instance recording_refl.
#[local] Existing Instance recording_trans.

Lemma completions_assistant events :
  Forall (λ m, AIMessage.role m ≠ tool) (completions events).
Proof.
  apply Forall_forall. intros m (e & He & Hm)%list_elem_of_omap.
  by destruct e; inversion Hm.
Qed.

Lemma executePrompt_turn_recording (this : A) tools :
  relates recording (executePrompt_turn this tools).
Proof.
  intros w. unfold executePrompt_turn, bind. rewrite call_adapter_run.
  set (r := call (sendMessage (conversationHistory w) tools systemPrompt) this).
  set (w1 := set_conversationHistory _ _).
  assert (Hcall : recording w w1).
  { split; [by eexists |]. intros Hw.
    apply answers_recorded_app_other; [done | apply completions_assistant]. }
  destruct r.1 as [[] | e |]; [| done | done].
  case_bool_decide; [| done].
  destruct (run_tool_calls_run (tool_uses (events_of r)) w1)
    as (results & effects & Hhistory & _).
  destruct (run_tool_calls (tool_uses (events_of r)) w1) as [c w2].
  cbn [snd] in Hhistory.
  assert (Hcalls : recording w1 w2).
  { split; [by eexists |]. rewrite Hhistory. apply answers_recorded_calls. }
  destruct c; cbn [snd]; by etrans.
Qed.

Lemma executePrompt_while_recording turns tools :
  relates (A := A) recording (executePrompt_while turns tools).
Proof.
  induction turns as [| turns IH]; cbn [executePrompt_while].
  { apply relates_ret, _. }
  apply relates_bind; [apply _ | apply relates_get, _ | intros w].
  destruct (adapter w) as [this |]; [| apply relates_throw, _].
  apply relates_bind;
    [apply _ | apply executePrompt_turn_recording | intros []];
    [exact IH | apply relates_ret, _].
Qed.

Lemma executePrompt_run turns prompt w :
  executePrompt turns prompt w
  = match adapter w with
    | None =>
        (Threw (Error "Adapter not initialized. Please configure API key first."),
         w)
    | Some _ =>
        executePrompt_while turns (offered (registeredTools w))
          (set_conversationHistory
             (λ h, h ++ [AIMessage.mk user (Some prompt) None None]) w)
    end.
Proof.
  unfold executePrompt, bind, get, push_history, modify, getAITools, ret.
  by destruct (adapter w).
Qed.

(** X17. The history only grows, and what the loop adds keeps it
    answerable.  Without an adapter [executePrompt] throws and changes
    nothing.  With one, however the prompt ends -- it returns, it throws,
    it is still pending -- the history it leaves is the former history,
    then the user's prompt, then what the turns added; and if in the
    former history every [tool] message has a text and answers a call
    recorded by an assistant message before it, the same holds of the
    history it leaves. *)
Theorem executePrompt_history w (turns : nat) (prompt : string) :
  answers_recorded (conversationHistory w) →
  let r := executePrompt turns prompt w in
  match adapter w with
  | None =>
      r = (Threw (Error "Adapter not initialized. Please configure API key first."),
           w)
  | Some _ =>
      (∃ added,
         conversationHistory r.2
         = conversationHistory w
           ++ AIMessage.mk user (Some prompt) None None :: added)
      ∧ answers_recorded (conversationHistory r.2)
  end.
Proof.
  intros Hw r. subst r.
  rewrite executePrompt_run. destruct (adapter w) as [this |]; [| done].
  set (w1 := set_conversationHistory _ w).
  destruct (executePrompt_while_recording turns (offered (registeredTools w)) w1)
    as [(added & Hadded) Hkeeps].
  split.
  - exists added. rewrite Hadded. subst w1. cbn. by rewrite <- app_assoc.
  - apply Hkeeps. subst w1. cbn.
    apply answers_recorded_app_other; [done |]. by repeat constructor.
Qed.

End PromptHistory.

Lemma executePrompt_history_witness :
  let r := example_run example_owners
             [example_call_chunk 0 "call_1" "nav_click" "{}";
              example_call_chunk 1 "call_2" "fs_list" "{}"] "click, then list" in
  (∃ added,
     conversationHistory r.2
     = [] ++ AIMessage.mk user (Some "click, then list") None None :: added)
  ∧ answers_recorded (conversationHistory r.2).
Proof.
  intros r.
  apply (@executePrompt_history example_JSON (example_PermissionManager allows)
           (example_Browser []) Adapter (@Adapter_AIAdapter example_JSON)
           (@example_registry (example_PermissionManager allows) _ []
              (example_agent
                 [example_call_chunk 0 "call_1" "nav_click" "{}";
                  example_call_chunk 1 "call_2" "fs_list" "{}"])
              example_owners)
           5 "click, then list").
  intros i m Hi. simpl in Hi. by rewrite lookup_nil in Hi.
Defined.

(** ** How a prompt ends *)

Section PromptEnd.
Context `{!JSON} `{!PermissionManager} `{!Browser}.
Context {A : Type} `{!AIAdapter A}.
Implicit Types w : ToolRegistry A.



End PromptEnd.


(** ** Choosing the provider *)

(** X19. Switching the provider keeps the conversation, and a failed
    switch keeps the adapter.  [initializeAdapter] never touches the
    history, the registered tools or the stored permissions.  For a
    provider other than the three known ones it throws
    ["Unsupported provider: ..."] and the adapter in place stays; else it
    returns [true] with the new adapter in place.  For Anthropic the
    model and the base URL given are not used, and for Google the base
    URL is not.  When no model is given, the OpenAI and the Google
    adapter are set up with [initializeAdapter]'s default model,
    ["claude-sonnet-4-20250514"], not with their own. *)
Theorem initializeAdapter_outcome `{!PermissionManager} (sdk : Clients)
    (apiKey : string) (provider model baseURL : option string)
    (w : ToolRegistry Adapter) :
  let r := initializeAdapter sdk apiKey provider model baseURL w in
  let name := default "anthropic" provider in
  conversationHistory r.2 = conversationHistory w
  ∧ registeredTools r.2 = registeredTools w
  ∧ permissionManager r.2 = permissionManager w
  ∧ (if bool_decide (name = "anthropic" ∨ name = "openai" ∨ name = "google")
     then r.1 = Returned true
          ∧ ∃ created, adapter r.2 = Some created
                       ∧ createAdapter sdk name apiKey
                           (Some (default "claude-sonnet-4-20250514" model))
                           baseURL = inr created
     else r.1 = Threw (Error ("Unsupported provider: " +:+ name))
          ∧ adapter r.2 = adapter w)
  ∧ initializeAdapter sdk apiKey (Some "anthropic") model baseURL w
    = initializeAdapter sdk apiKey None None None w
  ∧ initializeAdapter sdk apiKey (Some "google") model baseURL w
    = initializeAdapter sdk apiKey (Some "google") model None w
  ∧ adapter (initializeAdapter sdk apiKey (Some "openai") None baseURL w).2
    = Some (anOpenAIAdapter
              {| openai_client := new_OpenAI sdk apiKey baseURL;
                 openai_model := "claude-sonnet-4-20250514";
                 toolNameMap := ∅ |})
  ∧ adapter (initializeAdapter sdk apiKey (Some "google") None baseURL w).2
    = Some (aGoogleAdapter
              {| google_client := new_GoogleGenerativeAI sdk apiKey;
                 google_model := "claude-sonnet-4-20250514" |}).
Proof.
  intros r name. subst r name.
  unfold initializeAdapter, try_catch, bind, sync, modify, effect, ret, throw.
  unfold createAdapter.
  repeat split; try reflexivity.
  1-3: by repeat case_decide.
  case_bool_decide as Hknown.
  - repeat case_decide; cbn; try (split; [done |]; by eexists).
    exfalso. tauto.
  - repeat case_decide; cbn; try done; exfalso; tauto.
Qed.

(** ** A stream that breaks *)

(** X20. An OpenAI stream that breaks loses its tool calls.  When the
    stream fails after some chunks, with anything but [null] or
    [undefined], the text updates already made stay as they are, then
    comes the one [error] event with the failure's message
    (["Unknown error occurred"] if it has none) and nothing else: no
    [tool_use], even for calls whose fragments had all arrived, and no
    completion. *)
Theorem openai_broken_stream `{!JSON} (this : OpenAIAdapter)
    (messages : list AIMessage.t) (tools : list AITool.t) (systemPrompt : string)
    (stream : OpenAI.Stream.t) (failure : JsError) :
  openai_client this (openai_request this messages tools systemPrompt)
  = Returned stream →
  OpenAI.Stream.failure stream = Some (object failure) →
  events_of (call (sendMessage messages tools systemPrompt) this)
  = message_start
    :: map (λ t, message_update [text_part t])
         (running_text "" (content_fragments (OpenAI.Stream.chunks stream)))
    ++ [error (or_default (message failure) "Unknown error occurred")].
Proof.
  intros Hclient Hfailure.
  unfold events_of, call, sendMessage, OpenAIAdapter_AIAdapter, try_catch.
  pose proof (OpenAIAdapter_try_run messages tools systemPrompt this) as Hrun.
  unfold call in Hrun. rewrite Hrun. clear Hrun. simpl. rewrite Hclient.
  destruct (openai_chunks_text (OpenAI.Stream.chunks stream) "" []
              (Run.mk (rebuilt this tools) [message_start]))
    as (toolCalls & ->).
  by rewrite Hfailure.
Qed.

Lemma openai_broken_stream_witness :
  let stream :=
    OpenAI.Stream.mk
      [OpenAI.Chunk.mk (Some (OpenAI.Delta.mk (Some "Let me look") None));
       example_call_chunk 0 "call_1" "fs_list" "{}"]
      (Some (object (Error "network error"))) in
  events_of
    (call (@sendMessage _ (@OpenAIAdapter_AIAdapter example_JSON)
             example_prompt [example_tool "fs.list"] "")
       {| openai_client := λ _, Returned stream;
          openai_model := "gpt-4";
          toolNameMap := ∅ |})
  = [message_start; message_update [text_part "Let me look"];
     error "network error"].
Proof.
  intros stream.
  apply (@openai_broken_stream example_JSON
           {| openai_client := λ _, Returned stream;
              openai_model := "gpt-4";
              toolNameMap := ∅ |}
           example_prompt [example_tool "fs.list"] "" stream
           (Error "network error") eq_refl eq_refl).
Defined.

(** ** What a remembered answer stores *)

Section Remembering.
Context `{!JSON} `{!PermissionManager} `{!Browser}.
Context {A : Type} `{!AIAdapter A}.
Implicit Types w : ToolRegistry A.

Lemma await_promise_stale promise responses tasks w :
  promises w !! promise = None →
  Forall (λ r, pendingPermissionRequests w
               !! PermissionResponseMessage.requestId r = None) responses →
  await_promise promise (map PERMISSION_RESPONSE responses ++ tasks) w
  = await_promise promise tasks
      (set_trace
         (λ t, t ++ map (λ r, console_warn "No pending permission request for:"
                                (PermissionResponseMessage.requestId r))
                      responses) w).
Proof.
  revert w. induction responses as [| response responses IH];
    intros w Hpromise Hstale.
  - cbn [map app]. destruct w. unfold set_trace. cbn. by rewrite app_nil_r.
  - apply Forall_cons in Hstale as [Hresponse Hstale].
    cbn [map app]. rewrite await_promise_unsettled by done.
    cbn [run_task]. rewrite (handlePermissionResponse_stale _ _ Hresponse).
    rewrite IH by done. destruct w. unfold set_trace. cbn.
    by rewrite <- app_assoc.
Qed.

(** X21. What the answer to a prompt leaves in the permission storage.
    In any registry whose promises are bounded -- as they are before the
    first prompt and after every later one -- the first answer to the
    request is stored exactly when it says [remember]: as [always_allow]
    if it grants and [always_deny] if not, for the tool of the call, and
    -- only when its scope is ["domain"] -- for the domain of the URL the
    call was made in, if it had one.  An answer without [remember] leaves
    the storage as it was, and so do the answers that came in before it,
    when they are to requests that are not pending. *)
Theorem remembered_answer_is_stored w (toolCall : ToolCall.t)
    (descriptor : ToolDescriptor.t) (context : ToolContext.t)
    (before after : list PermissionResponseMessage.t)
    (response : PermissionResponseMessage.t) :
  promises_bounded w →
  deliveries (clock w) = before ++ response :: after →
  Forall (λ r, PermissionResponseMessage.requestId r ≠ next_requestId w
               ∧ pendingPermissionRequests w
                 !! PermissionResponseMessage.requestId r = None) before →
  PermissionResponseMessage.requestId response = next_requestId w →
  let r := requestPermissionFromUser toolCall descriptor context w in
  let decision :=
    if PermissionResponseMessage.granted response
    then always_allow else always_deny in
  let domain :=
    if decide (PermissionResponseMessage.scope response = Some "domain")
    then match ToolContext.url context with
         | Some url =>
             if truthy url then Some (extractDomain (permissionManager w) url)
             else None
         | None => None
         end
    else None in
  r.1 = Returned (PermissionResponseMessage.granted response)
  ∧ permissionManager r.2
    = if PermissionResponseMessage.remember response
      then (storePermission (permissionManager w) (ToolCall.name toolCall)
              decision domain).2
      else permissionManager w.
Proof.
  intros Hbounded Hdeliveries Hbefore Hid r decision domain.
  subst r decision domain.
  destruct (promises_bounded_fresh _ Hbounded) as [Hunsettled _].
  rewrite requestPermissionFromUser_run, Hdeliveries.
  rewrite map_app, <- app_assoc.
  set (w1 := prompting w toolCall descriptor context).
  assert (Hpending1 : pendingPermissionRequests w1
                      = <[next_requestId w := pending_entry w toolCall context]>
                          (pendingPermissionRequests w)) by done.
  assert (Hpromises1 : promises w1 !! next_promise w = None) by exact Hunsettled.
  rewrite await_promise_stale; cycle 1.
  { exact Hpromises1. }
  { eapply Forall_impl; [exact Hbefore |]. intros other [Hother Hstale].
    rewrite Hpending1. by rewrite lookup_insert_ne. }
  set (w2 := set_trace _ w1).
  assert (Hpromises2 : promises w2 !! next_promise w = None) by exact Hpromises1.
  cbn [map app]. rewrite await_promise_unsettled by exact Hpromises2.
  cbn [run_task].
  rewrite (handlePermissionResponse_run w2 response
             (pending_entry w toolCall context));
    [| rewrite Hid; change (pendingPermissionRequests w2)
                      with (pendingPermissionRequests w1);
       rewrite Hpending1; apply lookup_insert_eq].
  rewrite (await_promise_settled _ (Returned (PermissionResponseMessage.granted response)));
    cycle 1.
  { cbn [promises set_promises]. unfold settled_with.
    destruct (remember_decision_frame response (pending_entry w toolCall context)
                (set_pendingPermissionRequests
                   (delete (PermissionResponseMessage.requestId response)) w2))
      as (_ & -> & _).
    change (promises (set_pendingPermissionRequests _ w2)) with (promises w2).
    change (Pending.resolve (pending_entry w toolCall context))
      with (next_promise w).
    rewrite Hpromises2. apply lookup_insert_eq. }
  cbn [fst snd]. split; [done |].
  change (permissionManager (set_promises ?f ?w0)) with (permissionManager w0).
  unfold remember_decision.
  destruct (PermissionResponseMessage.remember response); [| done].
  change (permissionManager (set_pendingPermissionRequests _ w2))
    with (permissionManager w).
  cbn [Pending.toolName Pending.domain pending_entry].
  destruct (storePermission _ _ _ _) as [[| e |] pm]; done.
Qed.

End Remembering.

(** The prompt of the witness comes second: a first one has been
    answered, so a promise has settled and the clock has moved on. *)
Lemma remembered_answer_is_stored_witness :
  let first :=
    @requestPermissionFromUser (example_PermissionManager prompts)
      (example_Browser example_answers) Adapter example_click
      (example_descriptor "nav.click") (ToolContext.mk None None)
      unanswered_registry in
  let r :=
    @requestPermissionFromUser (example_PermissionManager prompts)
      (example_Browser example_second_answers) Adapter example_list
      (example_descriptor "fs.list")
      (ToolContext.mk (Some "https://example.org/files") None) first.2 in
  promises first.2 = {[0 := Returned true]}
  ∧ r.1 = Returned false
  ∧ permissionManager r.2
    = [("nav.click", always_allow, None);
       ("fs.list", always_deny, Some "https://example.org/files")].
Proof.
  intros first r. split; [reflexivity |].
  apply (@remembered_answer_is_stored (example_PermissionManager prompts)
           (example_Browser example_second_answers) Adapter
           first.2 example_list (example_descriptor "fs.list")
           (ToolContext.mk (Some "https://example.org/files") None)
           [example_late_denial] [] example_domain_denial).
  - apply (@keeps_requestPermissionFromUser (example_PermissionManager prompts)
             (example_Browser example_answers)).
    by apply promises_bounded_idle.
  - reflexivity.
  - repeat constructor. by vm_compute.
  - reflexivity.
Defined.
